(** * utils/utils.py of PyTorch-YOLOv3: geometry, NMS, target assignment, metrics

    A shallow embedding of the numeric core of [utils/utils.py] and the
    properties its specification states about it.

    Numbers.  The tensors of the source hold floating-point values.  They are
    modelled as exact rationals ([Q]): rounding, infinities and NaN are outside
    the model, and equality of computed values is [Qeq] ([==]).  Division by
    zero, which yields NaN or an infinity in the source, is [0] in [Q]: the
    theorems that depend on the value of a quotient establish or assume that
    its divisor is not zero, and the one run below that does divide by zero
    (the merge loop on an empty cluster) is pointed out where it occurs.

    Two consequences of exactness are kept out of the statements.  A rational
    never absorbs the [1e-16] of a divisor, so an IoU that is [1.0] in the
    source (a box with itself) is just below 1 here: IoU values are bounded
    by 1 with [<=], and thresholds are compared under the condition
    [t * (1 + 1e-16) < 1], which holds of the same thresholds in both.  And
    [(w * x) / w] is [x] here and [x] up to rounding in the source: where the
    merge loop recomputes a coordinate, the statements give the expression it
    evaluates and do not replace it by its exact value.

    Tensors.  A two-dimensional tensor is a list of rows; a column of it is a
    list of numbers.  Boolean-mask indexing [t[mask]] is [select mask t]. *)

From Stdlib Require Import QArith Qminmax Qround ZArith List Bool Lia Lqa.
From Stdlib Require Ascii.
Import ListNotations.

Open Scope Q_scope.

(** ** Numeric helpers *)

(** The constant [1e-16] that guards the divisions of the source. *)
Definition eps : Q := 1 # 10000000000000000.

Definition Qlt_bool (a b : Q) : bool := negb (Qle_bool b a).

(** [torch.clamp(x, min=lo)] *)
Definition clamp_min (x lo : Q) : Q := if Qlt_bool x lo then lo else x.

(** [.sum()] of a column. *)
Definition qsum (l : list Q) : Q := fold_left Qplus l 0.

(** [.long()]: conversion of a float to an integer truncates toward zero. *)
Definition Qtrunc (q : Q) : Z := Z.quot (Qnum q) (Zpos (Qden q)).

(** ** List helpers standing for tensor indexing *)

(** [t[mask]] for a boolean mask over the first dimension. *)
Fixpoint select {A : Type} (mask : list bool) (t : list A) : list A :=
  match mask, t with
  | m :: mask', x :: t' => if m then x :: select mask' t' else select mask' t'
  | _, _ => []
  end.

(** [t[i] = v]; the loops below only write inside the list. *)
Fixpoint set_nth {A : Type} (i : nat) (v : A) (l : list A) : list A :=
  match l, i with
  | [], _ => []
  | _ :: l', O => v :: l'
  | x :: l', S j => x :: set_nth j v l'
  end.

(** Elementwise operation on two columns. *)
Fixpoint zip_with {A B C : Type} (f : A -> B -> C) (l1 : list A) (l2 : list B) : list C :=
  match l1, l2 with
  | a :: l1', b :: l2' => f a b :: zip_with f l1' l2'
  | _, _ => []
  end.

(** [.max(dim)] along one row: the maximal value and the index of its first
    occurrence; [None] on an empty row, where torch raises. *)
Fixpoint max_from (best : Q) (besti : nat) (i : nat) (l : list Q) : Q * nat :=
  match l with
  | [] => (best, besti)
  | x :: l' => if Qlt_bool best x then max_from x i (S i) l' else max_from best besti (S i) l'
  end.

Definition max_with_index (l : list Q) : option (Q * nat) :=
  match l with
  | [] => None
  | x :: l' => Some (max_from x O 1%nat l')
  end.

(** ** Geometry: [bbox_iou], [bbox_wh_iou], [xywh2xyxy] *)

(** A row of four box columns: corner form [(x1, y1, x2, y2)] or centre-size
    form [(cx, cy, w, h)], depending on the caller. *)
Record box : Type := Box { c0 : Q; c1 : Q; c2 : Q; c3 : Q }.

Definition xywh2xyxy (x : box) : box :=
  Box (c0 x - c2 x / 2) (c1 x - c3 x / 2) (c0 x + c2 x / 2) (c1 x + c3 x / 2).

(** The corner coordinates [bbox_iou] reads off a row, by convention. *)
Definition corners (x1y1x2y2 : bool) (b : box) : Q * Q * Q * Q :=
  if x1y1x2y2 then (c0 b, c1 b, c2 b, c3 b)
  else (c0 b - c2 b / 2, c1 b - c3 b / 2, c0 b + c2 b / 2, c1 b + c3 b / 2).

(** One entry of [bbox_iou].  For two identical boxes the value is
    [area / (area + 1e-16)], below 1; the source rounds it to [1.0]. *)
Definition iou_elem (x1y1x2y2 : bool) (box1 box2 : box) : Q :=
  let '(b1_x1, b1_y1, b1_x2, b1_y2) := corners x1y1x2y2 box1 in
  let '(b2_x1, b2_y1, b2_x2, b2_y2) := corners x1y1x2y2 box2 in
  let inter_rect_x1 := Qmax b1_x1 b2_x1 in
  let inter_rect_y1 := Qmax b1_y1 b2_y1 in
  let inter_rect_x2 := Qmin b1_x2 b2_x2 in
  let inter_rect_y2 := Qmin b1_y2 b2_y2 in
  let inter_area :=
    clamp_min (inter_rect_x2 - inter_rect_x1 + 1) 0
    * clamp_min (inter_rect_y2 - inter_rect_y1 + 1) 0 in
  let b1_area := (b1_x2 - b1_x1 + 1) * (b1_y2 - b1_y1 + 1) in
  let b2_area := (b2_x2 - b2_x1 + 1) * (b2_y2 - b2_y1 + 1) in
  inter_area / (b1_area + b2_area - inter_area + eps).

(** Broadcasting of the first dimension: one row against [n] rows, or [n]
    rows against [n] rows (the only shapes the callers use). *)
Definition broadcast2 {A B C : Type} (f : A -> B -> C) (l1 : list A) (l2 : list B) : list C :=
  match l1, l2 with
  | [a], _ => map (f a) l2
  | _, [b] => map (fun a => f a b) l1
  | _, _ => zip_with f l1 l2
  end.

Definition bbox_iou (box1 box2 : list box) (x1y1x2y2 : bool) : list Q :=
  broadcast2 (iou_elem x1y1x2y2) box1 box2.

(** [bbox_wh_iou(wh1, wh2)]: one anchor [(w1, h1)] against the [(w2, h2)]
    rows of [wh2].  For equal sizes the value is below 1; the source rounds
    it to [1.0] once the [1e-16] is absorbed. *)
Definition wh_iou_elem (wh1 wh2 : Q * Q) : Q :=
  let '(w1, h1) := wh1 in
  let '(w2, h2) := wh2 in
  let inter_area := Qmin w1 w2 * Qmin h1 h2 in
  let union_area := (w1 * h1 + eps) + w2 * h2 - inter_area in
  inter_area / union_area.

Definition bbox_wh_iou (wh1 : Q * Q) (wh2 : list (Q * Q)) : list Q :=
  map (wh_iou_elem wh1) wh2.

(** ** [compute_ap] *)

(** The loop [for i in range(mpre.size - 1, 0, -1)] with its in-place update
    [mpre[i - 1] = np.maximum(mpre[i - 1], mpre[i])]; the argument [i] is the
    first index the loop still has to visit. *)
Fixpoint envelope_from (i : nat) (mpre : list Q) : list Q :=
  match i with
  | O => mpre
  | S j => envelope_from j (set_nth j (Qmax (nth j mpre 0) (nth (S j) mpre 0)) mpre)
  end.

(** [mpre] after the envelope loop. *)
Definition precision_envelope (precision : list Q) : list Q :=
  let mpre := [0] ++ precision ++ [0] in
  envelope_from (length mpre - 1) mpre.

(** [np.where(mrec[1:] != mrec[:-1])[0]] *)
Fixpoint where_ne (i : nat) (a b : list Q) : list nat :=
  match a, b with
  | x :: a', y :: b' =>
      if Qeq_bool x y then where_ne (S i) a' b' else i :: where_ne (S i) a' b'
  | _, _ => []
  end.

Definition compute_ap (recall precision : list Q) : Q :=
  let mrec := [0] ++ recall ++ [1] in
  let mpre := precision_envelope precision in
  let i := where_ne O (tl mrec) (removelast mrec) in
  qsum (map (fun k => (nth (k + 1) mrec 0 - nth k mrec 0) * nth (k + 1) mpre 0) i).

(** ** Outcomes of the stateful functions

    The source raises Python exceptions on malformed tensors and has one
    unbounded [while] loop.  A run of the model ends with a value, with the
    error the source raises, or by exhausting the fuel given to the loop. *)

Inductive error : Type :=
| EmptyReduction   (* [.max(dim)] / [.argmax(dim)] over a dimension of size 0 *)
| EmptyStack       (* [torch.stack] of an empty list *)
| IndexOutOfRange  (* an index outside [-n, n) on a dimension of size n *)
| ShapeMismatch.   (* a boolean mask whose length is not the indexed size *)

Inductive outcome (A : Type) : Type :=
| Done (a : A)
| Raised (e : error)
| OutOfFuel.

Arguments Done {A} a.
Arguments Raised {A} e.
Arguments OutOfFuel {A}.

Definition bind {A B : Type} (c : outcome A) (k : A -> outcome B) : outcome B :=
  match c with
  | Done a => k a
  | Raised e => Raised e
  | OutOfFuel => OutOfFuel
  end.

Notation "x <- c ;; k" := (bind c (fun x => k))
  (at level 61, c at next level, right associativity).

(** Runs [f] on every element, left to right, stopping at the first failure. *)
Fixpoint map_outcome {A B : Type} (f : A -> outcome B) (l : list A) : outcome (list B) :=
  match l with
  | [] => Done []
  | a :: l' => b <- f a ;; bs <- map_outcome f l' ;; Done (b :: bs)
  end.

Definition of_option {A : Type} (e : error) (o : option A) : outcome A :=
  match o with
  | Some a => Done a
  | None => Raised e
  end.

(** ** NMS engine: [non_max_suppression] *)

(** A row of the raw prediction tensor: four box columns, the objectness
    column and the class-score columns [5:]. *)
Record prediction_row : Type :=
  PredRow { p_box : box; p_conf : Q; p_cls : list Q }.

(** A row of [detections]:
    [(x1, y1, x2, y2, object_conf, class_score, class_pred)]. *)
Record detection : Type :=
  Detection { d_box : box; d_conf : Q; d_cls_conf : Q; d_cls_pred : Q }.

(** [t[keys.argsort()]]: the rows in ascending order of their keys.  The
    order torch gives to equal keys is unspecified; this insertion sort keeps
    them in their original order. *)
Fixpoint insert_by {A : Type} (k : Q) (a : A) (l : list (Q * A)) : list (Q * A) :=
  match l with
  | [] => [(k, a)]
  | (k', a') :: l' =>
      if Qle_bool k k' then (k, a) :: l else (k', a') :: insert_by k a l'
  end.

Definition sort_pairs {A : Type} (l : list (Q * A)) : list (Q * A) :=
  fold_right (fun ka acc => insert_by (fst ka) (snd ka) acc) [] l.

Definition argsort_apply {A : Type} (keys : list Q) (rows : list A) : list A :=
  map snd (sort_pairs (combine keys rows)).

(** [image_pred[:, 5:].max(1)]: value and index of the best class per row. *)
Definition class_max (image_pred : list prediction_row) : outcome (list (Q * nat)) :=
  map_outcome (fun r => of_option EmptyReduction (max_with_index (p_cls r))) image_pred.

(** [(weights * boxes).sum(0) / weights.sum()].  When the weights sum to
    zero (an empty cluster among them) the source yields NaN or an infinity,
    and a row with such coordinates never matches again; the quotient is [0]
    here.  The theorems that read merged coordinates assume a sum that is not
    zero, and the runs that are proved to end never form such a row. *)
Definition weighted_box (weights : list Q) (boxes : list box) : box :=
  let total := qsum weights in
  Box (qsum (zip_with Qmult weights (map c0 boxes)) / total)
      (qsum (zip_with Qmult weights (map c1 boxes)) / total)
      (qsum (zip_with Qmult weights (map c2 boxes)) / total)
      (qsum (zip_with Qmult weights (map c3 boxes)) / total).

(** [d[:4] = b] *)
Definition set_box (d : detection) (b : box) : detection :=
  Detection b (d_conf d) (d_cls_conf d) (d_cls_pred d).

(** The mask [invalid] of one iteration of the [while] loop. *)
Definition invalid_mask (nms_thres : Q) (detections : list detection) : list bool :=
  match detections with
  | [] => []
  | d0 :: _ =>
      let large_overlap :=
        map (fun iou => Qlt_bool nms_thres iou)
            (bbox_iou [d_box d0] (map d_box detections) true) in
      let label_match :=
        map (fun d => Qeq_bool (d_cls_pred d0) (d_cls_pred d)) detections in
      zip_with andb large_overlap label_match
  end.

(** One iteration of the [while] loop on the pool [d0 :: rest]: the row
    appended to [keep_boxes] and the next value of [detections].  Row 0 is
    overwritten in place before [detections[~invalid]] is taken. *)
Definition nms_body (nms_thres : Q) (d0 : detection) (rest : list detection)
  : detection * list detection :=
  let detections := d0 :: rest in
  let invalid := invalid_mask nms_thres detections in
  let weights := map d_conf (select invalid detections) in
  let merged := weighted_box weights (map d_box (select invalid detections)) in
  let d0' := set_box d0 merged in
  (d0', select (map negb invalid) (d0' :: rest)).

(** [while detections.size(0): ...] *)
Fixpoint nms_loop (fuel : nat) (nms_thres : Q) (detections keep_boxes : list detection)
  : outcome (list detection) :=
  match detections with
  | [] => Done keep_boxes
  | d0 :: rest =>
      match fuel with
      | O => OutOfFuel
      | S fuel' =>
          let '(kept, detections') := nms_body nms_thres d0 rest in
          nms_loop fuel' nms_thres detections' (keep_boxes ++ [kept])
      end
  end.

(** The rows of [detections] before the loop, for one image whose box
    columns are already in corner form. *)
Definition candidates (conf_thres : Q) (image_pred : list prediction_row)
  : outcome (list detection) :=
  let image_pred := filter (fun r => Qle_bool conf_thres (p_conf r)) image_pred in
  match image_pred with
  | [] => Done []
  | _ =>
      best <- class_max image_pred ;;
      let score := zip_with (fun r m => p_conf r * fst m) image_pred best in
      let image_pred := argsort_apply (map Qopp score) image_pred in
      best <- class_max image_pred ;;
      Done (zip_with (fun r m =>
                        Detection (p_box r) (p_conf r) (fst m) (inject_Z (Z.of_nat (snd m))))
                     image_pred best)
  end.

(** The body of [for image_i, image_pred in enumerate(prediction)]; [None]
    is the entry of [output] that is left untouched. *)
Definition nms_image (fuel : nat) (conf_thres nms_thres : Q) (image_pred : list prediction_row)
  : outcome (option (list detection)) :=
  detections <- candidates conf_thres image_pred ;;
  match detections with
  | [] => Done None
  | _ =>
      keep_boxes <- nms_loop fuel nms_thres detections [] ;;
      Done (match keep_boxes with [] => None | _ => Some keep_boxes end)
  end.

Definition non_max_suppression (fuel : nat) (prediction : list (list prediction_row))
    (conf_thres nms_thres : Q) : outcome (list (option (list detection))) :=
  let prediction :=
    map (map (fun r => PredRow (xywh2xyxy (p_box r)) (p_conf r) (p_cls r))) prediction in
  map_outcome (nms_image fuel conf_thres nms_thres) prediction.

(** The columns [5:] of a seven-column detection row are its class score and
    its class index: this is how [non_max_suppression] reads a row of its own
    output when that output is passed back to it as a prediction tensor. *)
Definition as_prediction (d : detection) : prediction_row :=
  PredRow (d_box d) (d_conf d) [d_cls_conf d; d_cls_pred d].

(** ** Metrics engine: [get_batch_statistics] *)

(** A row of [targets]: sample index, class label and four box columns. *)
Record target_row : Type :=
  Target { t_img : Q; t_label : Q; t_box : box }.

(** [x in l] on floats. *)
Definition mem_q (x : Q) (l : list Q) : bool := existsb (Qeq_bool x) l.

Definition mem_nat (x : nat) (l : list nat) : bool := existsb (Nat.eqb x) l.

(** The loop [for pred_i, (pred_box, pred_label) in enumerate(...)] over the
    detections still to visit, with the state [detected_boxes].  It returns
    the flags written into [true_positives] for these detections and the
    final [detected_boxes]; [annotations] are the (label, box) rows of the
    image and are not empty. *)
Fixpoint match_loop (iou_threshold : Q) (annotations : list (Q * box))
    (preds : list detection) (detected_boxes : list nat) : list Q * list nat :=
  match preds with
  | [] => ([], detected_boxes)
  | d :: preds' =>
      if Nat.eqb (length detected_boxes) (length annotations)
      then (map (fun _ => 0) preds, detected_boxes)                       (* break *)
      else if negb (mem_q (d_cls_pred d) (map fst annotations))
      then let '(tps, det) := match_loop iou_threshold annotations preds' detected_boxes in
           (0 :: tps, det)                                                (* continue *)
      else
        match max_with_index (bbox_iou [d_box d] (map snd annotations) true) with
        | Some (iou, box_index) =>
            if Qle_bool iou_threshold iou && negb (mem_nat box_index detected_boxes)
            then let '(tps, det) :=
                   match_loop iou_threshold annotations preds' (detected_boxes ++ [box_index]) in
                 (1 :: tps, det)
            else let '(tps, det) :=
                   match_loop iou_threshold annotations preds' detected_boxes in
                 (0 :: tps, det)
        | None => (map (fun _ => 0) preds, detected_boxes)
        end
  end.

(** [targets[targets[:, 0] == sample_i][:, 1:]] *)
Definition annotations_of (targets : list target_row) (sample_i : nat) : list (Q * box) :=
  map (fun t => (t_label t, t_box t))
      (filter (fun t => Qeq_bool (t_img t) (inject_Z (Z.of_nat sample_i))) targets).

(** One entry [[true_positives, pred_scores, pred_labels]] of [batch_metrics]. *)
Definition sample_statistics (iou_threshold : Q) (targets : list target_row)
    (sample_i : nat) (output : list detection) : list Q * list Q * list Q :=
  let pred_scores := map d_conf output in
  let pred_labels := map d_cls_pred output in
  let annotations := annotations_of targets sample_i in
  let true_positives :=
    match annotations with
    | [] => map (fun _ => 0) output
    | _ => fst (match_loop iou_threshold annotations output [])
    end in
  (true_positives, pred_scores, pred_labels).

Fixpoint batch_statistics_from (sample_i : nat) (outputs : list (option (list detection)))
    (targets : list target_row) (iou_threshold : Q) : list (list Q * list Q * list Q) :=
  match outputs with
  | [] => []
  | None :: outputs' => batch_statistics_from (S sample_i) outputs' targets iou_threshold
  | Some output :: outputs' =>
      sample_statistics iou_threshold targets sample_i output
      :: batch_statistics_from (S sample_i) outputs' targets iou_threshold
  end.

Definition get_batch_statistics (outputs : list (option (list detection)))
    (targets : list target_row) (iou_threshold : Q) : list (list Q * list Q * list Q) :=
  batch_statistics_from O outputs targets iou_threshold.

(** ** Metrics engine: [ap_per_class]

    Class labels are integer-valued; they are modelled as [Z].  The arrays
    [tp], [conf] and [pred_cls] have one entry per detection. *)

(** [np.unique]: the distinct values in ascending order. *)
Fixpoint insert_unique (c : Z) (l : list Z) : list Z :=
  match l with
  | [] => [c]
  | x :: l' =>
      if (c <? x)%Z then c :: l
      else if (c =? x)%Z then l
      else x :: insert_unique c l'
  end.

Definition unique (l : list Z) : list Z := fold_right insert_unique [] l.

(** [.cumsum()] *)
Fixpoint cumsum_from (acc : Q) (l : list Q) : list Q :=
  match l with
  | [] => []
  | x :: l' => (acc + x) :: cumsum_from (acc + x) l'
  end.

Definition cumsum (l : list Q) : list Q := cumsum_from 0 l.

(** [(a == c).sum()] *)
Definition count_eq (c : Z) (a : list Z) : nat := length (filter (Z.eqb c) a).

(** The lists [ap], [p], [r] the loop over the classes appends to. *)
Record pr_lists : Type := PR { l_ap : list Q; l_p : list Q; l_r : list Q }.

(** The body of [for c in unique_classes], on the arrays already sorted by
    objectness. *)
Definition class_body (tp : list Q) (pred_cls target_cls : list Z) (c : Z) (acc : pr_lists)
  : pr_lists :=
  let i := map (Z.eqb c) pred_cls in
  let n_gt := count_eq c target_cls in
  let n_p := length (filter (fun b => b) i) in
  if Nat.eqb n_p 0 && Nat.eqb n_gt 0 then acc
  else if Nat.eqb n_p 0 || Nat.eqb n_gt 0
  then PR (l_ap acc ++ [0]) (l_p acc ++ [0]) (l_r acc ++ [0])
  else
    let fpc := cumsum (map (fun t => 1 - t) (select i tp)) in
    let tpc := cumsum (select i tp) in
    let recall_curve := map (fun t => t / (inject_Z (Z.of_nat n_gt) + eps)) tpc in
    let precision_curve := zip_with (fun t f => t / (t + f)) tpc fpc in
    PR (l_ap acc ++ [compute_ap recall_curve precision_curve])
       (l_p acc ++ [last precision_curve 0])
       (l_r acc ++ [last recall_curve 0]).

(** The result tuple [(p, r, ap, f1, unique_classes)]. *)
Record ap_result : Type :=
  APResult { r_p : list Q; r_r : list Q; r_ap : list Q; r_f1 : list Q; r_classes : list Z }.

Definition ap_per_class (tp conf : list Q) (pred_cls target_cls : list Z) : ap_result :=
  let keys := map Qopp conf in
  let tp := argsort_apply keys tp in
  let pred_cls := argsort_apply keys pred_cls in
  let unique_classes := unique target_cls in
  let acc :=
    fold_left (fun acc c => class_body tp pred_cls target_cls c acc)
              unique_classes (PR [] [] []) in
  let f1 := zip_with (fun p r => 2 * p * r / (p + r + eps)) (l_p acc) (l_r acc) in
  APResult (l_p acc) (l_r acc) (l_ap acc) f1 unique_classes.

(** ** Target assignment: [build_targets]

    The tensors of shape [(nB, nA, nG, nG)] are read through their index
    tuples [(b, anchor, row, column)]; the sizes are kept apart, and every
    indexed access checks them the way torch does (an index [i] with
    [-n <= i < 0] addresses [i + n]). *)

Record shape : Type := Shape { nB : nat; nA : nat; nG : nat; nC : nat }.

Abbreviation index := (Z * Z * Z * Z)%type.

Abbreviation grid A := (index -> A).

Definition index_eqb (k k' : index) : bool :=
  let '(b, a, j, i) := k in
  let '(b', a', j', i') := k' in
  ((b =? b') && (a =? a') && (j =? j') && (i =? i'))%Z.

(** [Tensor(nB, nA, nG, nG).fill_(v)] *)
Definition fill {A : Type} (v : A) : grid A := fun _ => v.

Definition upd {A : Type} (g : grid A) (k : index) (v : A) : grid A :=
  fun k' => if index_eqb k k' then v else g k'.

Definition norm_index (n : nat) (i : Z) : option Z :=
  if ((0 <=? i) && (i <? Z.of_nat n))%Z then Some i
  else if ((- Z.of_nat n <=? i) && (i <? 0))%Z then Some (i + Z.of_nat n)%Z
  else None.

Definition locate (sh : shape) (k : index) : option index :=
  let '(b, a, j, i) := k in
  match norm_index (nB sh) b, norm_index (nA sh) a,
        norm_index (nG sh) j, norm_index (nG sh) i with
  | Some b', Some a', Some j', Some i' => Some (b', a', j', i')
  | _, _, _, _ => None
  end.

(** [t[b, n, gj, gi] = values] with index tensors: the writes happen in the
    order of the rows, so that of two rows addressing one element the later
    one determines it (the last-write-wins policy the specification records
    for colliding ground-truth boxes). *)
Fixpoint index_put {A : Type} (sh : shape) (g : grid A) (writes : list (index * A))
  : outcome (grid A) :=
  match writes with
  | [] => Done g
  | (k, v) :: writes' =>
      k' <- of_option IndexOutOfRange (locate sh k) ;;
      index_put sh (upd g k' v) writes'
  end.

(** [t[b, n, gj, gi]] with index tensors. *)
Definition index_get {A : Type} (sh : shape) (g : grid A) (ks : list index)
  : outcome (list A) :=
  map_outcome (fun k => k' <- of_option IndexOutOfRange (locate sh k) ;; Done (g k')) ks.

(** [tcls[b, n, gj, gi, target_labels] = 1] *)
Fixpoint tcls_put (sh : shape) (g : grid (Z -> Q)) (writes : list (index * Z))
  : outcome (grid (Z -> Q)) :=
  match writes with
  | [] => Done g
  | (k, label) :: writes' =>
      k' <- of_option IndexOutOfRange (locate sh k) ;;
      label' <- of_option IndexOutOfRange (norm_index (nC sh) label) ;;
      tcls_put sh (upd g k' (fun c => if (c =? label')%Z then 1 else g k' c)) writes'
  end.

(** [m.t()] for a matrix with [n] columns. *)
Definition transpose (n : nat) (m : list (list Q)) : list (list Q) :=
  map (fun k => map (fun row => nth k row 0) m) (seq 0 n).

(** [for i, anchor_ious in enumerate(ious.t()):
       noobj_mask[b[i], anchor_ious > ignore_thres, gj[i], gi[i]] = 0] *)
Fixpoint noobj_loop (sh : shape) (ignore_thres : Q) (noobj_mask : grid Z)
    (rows : list (Z * Z * Z * list Q)) : outcome (grid Z) :=
  match rows with
  | [] => Done noobj_mask
  | (b_i, gj_i, gi_i, anchor_ious) :: rows' =>
      if negb (Nat.eqb (length anchor_ious) (nA sh)) then Raised ShapeMismatch
      else
        let mask := map (fun iou => Qlt_bool ignore_thres iou) anchor_ious in
        let hit := select mask (seq 0 (length mask)) in
        noobj_mask <- index_put sh noobj_mask
                        (map (fun a => ((b_i, Z.of_nat a, gj_i, gi_i), 0%Z)) hit) ;;
        noobj_loop sh ignore_thres noobj_mask rows'
  end.

(** The tuple [build_targets] returns. *)
Record targets_out : Type :=
  TargetsOut {
    iou_scores : grid Q;
    class_mask : grid Q;
    obj_mask : grid Z;
    noobj_mask : grid Z;
    tx : grid Q;
    ty : grid Q;
    tw : grid Q;
    th : grid Q;
    tcls : grid (Z -> Q);
    tconf : grid Q
  }.

(** [target[:, 2:6] * nG] *)
Definition scale_box (sh : shape) (t : target_row) : box :=
  let g := inject_Z (Z.of_nat (nG sh)) in
  Box (c0 (t_box t) * g) (c1 (t_box t) * g) (c2 (t_box t) * g) (c3 (t_box t) * g).

Fixpoint zip4 {A B C D : Type} (la : list A) (lb : list B) (lc : list C) (ld : list D)
  : list (A * B * C * D) :=
  match la, lb, lc, ld with
  | a :: la', b :: lb', c :: lc', d :: ld' => (a, b, c, d) :: zip4 la' lb' lc' ld'
  | _, _, _, _ => []
  end.

Section BuildTargets.

(** [torch.log], the natural logarithm; it has no rational model and is
    kept as a parameter. *)
Variable log : Q -> Q.

Definition build_targets (sh : shape) (pred_boxes : grid box) (pred_cls : grid (list Q))
    (target : list target_row) (anchors : list (Q * Q)) (ignore_thres : Q)
  : outcome targets_out :=
  (* Output tensors *)
  let obj_mask : grid Z := fill 0%Z in
  let noobj_mask : grid Z := fill 1%Z in
  let class_mask : grid Q := fill 0 in
  let iou_scores : grid Q := fill 0 in
  let tx : grid Q := fill 0 in
  let ty : grid Q := fill 0 in
  let tw : grid Q := fill 0 in
  let th : grid Q := fill 0 in
  let tcls : grid (Z -> Q) := fill (fun _ => 0) in
  (* Convert to position relative to box *)
  let target_boxes := map (scale_box sh) target in
  let gxy := map (fun b => (c0 b, c1 b)) target_boxes in
  let gwh := map (fun b => (c2 b, c3 b)) target_boxes in
  (* Get anchors with best iou *)
  ious <- match anchors with
          | [] => Raised EmptyStack
          | _ => Done (map (fun anchor => bbox_wh_iou anchor gwh) anchors)
          end ;;
  let ious_t := transpose (length target) ious in
  best <- map_outcome (fun col => of_option EmptyReduction (max_with_index col)) ious_t ;;
  let best_n := map snd best in
  (* Separate target values *)
  let b := map (fun t => Qtrunc (t_img t)) target in
  let target_labels := map (fun t => Qtrunc (t_label t)) target in
  let gx := map fst gxy in
  let gy := map snd gxy in
  let gw := map fst gwh in
  let gh := map snd gwh in
  let gi := map Qtrunc gx in
  let gj := map Qtrunc gy in
  let at_best := zip4 b (map Z.of_nat best_n) gj gi in
  (* Set masks *)
  obj_mask <- index_put sh obj_mask (map (fun k => (k, 1%Z)) at_best) ;;
  noobj_mask <- index_put sh noobj_mask (map (fun k => (k, 0%Z)) at_best) ;;
  (* Set noobj mask to zero where iou exceeds ignore threshold *)
  noobj_mask <- noobj_loop sh ignore_thres noobj_mask
                  (zip4 b gj gi ious_t) ;;
  (* Coordinates *)
  tx <- index_put sh tx (combine at_best (map (fun g => g - inject_Z (Qfloor g)) gx)) ;;
  ty <- index_put sh ty (combine at_best (map (fun g => g - inject_Z (Qfloor g)) gy)) ;;
  (* Width and height *)
  tw <- index_put sh tw
          (combine at_best
             (zip_with (fun g n => log (g / fst (nth n anchors (0, 0)) + eps)) gw best_n)) ;;
  th <- index_put sh th
          (combine at_best
             (zip_with (fun g n => log (g / snd (nth n anchors (0, 0)) + eps)) gh best_n)) ;;
  (* One-hot encoding of label *)
  tcls <- tcls_put sh tcls (combine at_best target_labels) ;;
  (* Compute label correctness and iou at best anchor *)
  rows <- index_get sh pred_cls at_best ;;
  argmax <- (if Nat.eqb (nC sh) 0 then Raised EmptyReduction
             else map_outcome
                    (fun row => of_option EmptyReduction (max_with_index row)) rows) ;;
  class_mask <- index_put sh class_mask
                  (combine at_best
                     (zip_with (fun m l => if (Z.of_nat (snd m) =? l)%Z then 1 else 0)
                               argmax target_labels)) ;;
  boxes <- index_get sh pred_boxes at_best ;;
  iou_scores <- index_put sh iou_scores
                  (combine at_best (bbox_iou boxes target_boxes false)) ;;
  Done (TargetsOut iou_scores class_mask obj_mask noobj_mask tx ty tw th tcls
                   (fun k => inject_Z (obj_mask k))).

End BuildTargets.

(** ** The specification's reading of the geometry *)

(** Corner form with [x2 >= x1] and [y2 >= y1]. *)
Definition well_formed (b : box) : Prop := c0 b <= c2 b /\ c1 b <= c3 b.

(** Area under the inclusive-pixel convention, as the specification writes it. *)
Definition spec_area (b : box) : Q := (c2 b - c0 b + 1) * (c3 b - c1 b + 1).

(** [max(ix2-ix1+1,0) * max(iy2-iy1+1,0)], as the specification writes it. *)
Definition spec_inter (a b : box) : Q :=
  Qmax (Qmin (c2 a) (c2 b) - Qmax (c0 a) (c0 b) + 1) 0
  * Qmax (Qmin (c3 a) (c3 b) - Qmax (c1 a) (c1 b) + 1) 0.

(** No spatial overlap: one box lies strictly to the right of, or strictly
    below, the other. *)
Definition no_overlap (a b : box) : Prop :=
  c2 a < c0 b \/ c2 b < c0 a \/ c3 a < c1 b \/ c3 b < c1 a.

(** The boxes are at least one unit apart along an axis: their intersection
    is empty under the inclusive-pixel convention. *)
Definition separated (a b : box) : Prop :=
  c2 a + 1 <= c0 b \/ c2 b + 1 <= c0 a \/ c3 a + 1 <= c1 b \/ c3 b + 1 <= c1 a.

Definition box_a : box := Box 0 0 10 10.
Definition box_right_of_a : box := Box (21 # 2) 0 20 10.
Definition box_far_right_of_a : box := Box 11 0 20 10.

(** ** The specification's reading of the greedy merge loop *)

(** Combined score by which the candidates are ordered. *)
Definition score (d : detection) : Q := d_conf d * d_cls_conf d.

(** Membership of [d] in the cluster of [c]: IoU with [c] strictly above
    [nms_thres] and the same predicted class as [c]. *)
Definition in_cluster (nms_thres : Q) (c d : detection) : bool :=
  Qlt_bool nms_thres (iou_elem true (d_box c) (d_box d))
  && Qeq_bool (d_cls_pred d) (d_cls_pred c).

(** The subset S of the pool. *)
Definition cluster (nms_thres : Q) (c : detection) (pool : list detection) : list detection :=
  filter (in_cluster nms_thres c) pool.

(** [sum (objectness_i * coord_i) / sum objectness_i] over a cluster. *)
Definition weighted_mean (coord : box -> Q) (s : list detection) : Q :=
  qsum (map (fun d => d_conf d * coord (d_box d)) s) / qsum (map d_conf s).

(** The row the specification describes for the candidate [c] and its
    cluster [s]: each of the four coordinates is the objectness-weighted mean
    over [s], and objectness, class score and class are those of [c]. *)
Definition merged (c : detection) (s : list detection) : detection :=
  Detection (Box (weighted_mean c0 s) (weighted_mean c1 s)
                 (weighted_mean c2 s) (weighted_mean c3 s))
            (d_conf c) (d_cls_conf c) (d_cls_pred c).

(** The row computed from [d] alone: the cluster is [d] itself, so each
    coordinate is [(objectness * coord) / objectness]. *)
Definition alone (d : detection) : detection := merged d [d].

(** The row [o] is the row [d] with its box recomputed from [d] alone:
    objectness, class score and class are those of [d], and each coordinate
    is [(objectness * coord) / objectness], the weighted mean over the
    one-row cluster.  In exact arithmetic that is the coordinate of [d]; in
    floating point it is that coordinate up to rounding. *)
Definition recomputed (o d : detection) : Prop :=
  d_conf o = d_conf d /\ d_cls_conf o = d_cls_conf d /\ d_cls_pred o = d_cls_pred d
  /\ c0 (d_box o) = qsum [d_conf d * c0 (d_box d)] / qsum [d_conf d]
  /\ c1 (d_box o) = qsum [d_conf d * c1 (d_box d)] / qsum [d_conf d]
  /\ c2 (d_box o) = qsum [d_conf d * c2 (d_box d)] / qsum [d_conf d]
  /\ c3 (d_box o) = qsum [d_conf d * c3 (d_box d)] / qsum [d_conf d].


(** Two detection rows that hold the same numbers. *)
Definition box_equiv (a b : box) : Prop :=
  c0 a == c0 b /\ c1 a == c1 b /\ c2 a == c2 b /\ c3 a == c3 b.

Definition det_equiv (a b : detection) : Prop :=
  box_equiv (d_box a) (d_box b) /\ d_conf a == d_conf b
  /\ d_cls_conf a == d_cls_conf b /\ d_cls_pred a == d_cls_pred b.

(** A list of detections on which the merge loop has nothing to merge: each
    row is in its own cluster with a non-zero weight, and no later row is in
    the cluster of an earlier one. *)
Fixpoint settled (nms_thres : Q) (dets : list detection) : Prop :=
  match dets with
  | [] => True
  | c :: rest =>
      in_cluster nms_thres c c = true /\ ~ d_conf c == 0
      /\ (forall d, In d rest -> in_cluster nms_thres c d = false)
      /\ settled nms_thres rest
  end.

(** Passing the output of [non_max_suppression] back as its input: the
    detections of each image become the rows of that image. *)
Definition as_batch (output : list (option (list detection))) : list (list prediction_row) :=
  map (fun o => match o with Some ds => map as_prediction ds | None => [] end) output.

(** *** Concrete inputs *)

(** One candidate: centre (10, 10), size 4 x 4, objectness 0.9, one class
    with score 0.8. *)
Definition one_candidate : list (list prediction_row) :=
  [[PredRow (Box 10 10 4 4) (9 # 10) [8 # 10]]].

(** Three same-class candidates in corner form, in descending score order. *)
Definition chain_head : detection := Detection (Box 0 0 10 10) (9 # 10) (9 # 10) 0.

Definition chain_tail : list detection :=
  [ Detection (Box 5 0 15 10) (9 # 10) (8 # 10) 0;
    Detection (Box 7 0 17 10) (9 # 10) (7 # 10) 0 ].

Definition chain : list detection := chain_head :: chain_tail.

(** The cluster of [chain_head] at threshold 0.3 and the row merged from it. *)
Definition chain_cluster : list detection := cluster (3 # 10) chain_head chain.

Definition chain_kept : detection := merged chain_head chain_cluster.

(** Two detections far apart. *)
Definition apart : list detection :=
  [ Detection (Box 0 0 10 10) (9 # 10) (9 # 10) 0;
    Detection (Box 50 50 60 60) (8 # 10) (7 # 10) 0 ].

(** *** Notions used to describe the pool before the loop *)




(** *** Re-running the function on its own output *)

Definition rerun (fuel : nat) (prediction : list (list prediction_row))
    (conf_thres nms_thres : Q) : outcome (list (option (list detection))) :=
  output <- non_max_suppression fuel prediction conf_thres nms_thres ;;
  non_max_suppression fuel (as_batch output) conf_thres nms_thres.

(** The two runs end with the same detections. *)
Definition same_image (a b : option (list detection)) : Prop :=
  match a, b with
  | Some ds, Some ds' => Forall2 det_equiv ds ds'
  | None, None => True
  | _, _ => False
  end.

Definition same_detections (a b : outcome (list (option (list detection)))) : Prop :=
  match a, b with
  | Done out, Done out' => Forall2 same_image out out'
  | _, _ => False
  end.

(** The pool of [one_candidate] when the loop starts, and the row the loop
    is left with after its first iteration at [nms_thres = 1]. *)
Definition one_candidate_pool : list detection :=
  [Detection (xywh2xyxy (Box 10 10 4 4)) (9 # 10) (8 # 10) 0].

Definition stuck_row : detection := Detection (Box 0 0 0 0) (9 # 10) (8 # 10) 0.


(** ** Concrete inputs for the metrics engine *)

(** One image with a ground-truth box of class 0 and one of class 1. *)
Definition two_class_targets : list target_row :=
  [ Target 0 0 (Box 0 0 10 10); Target 0 1 (Box 20 20 30 30) ].

(** Two detections on the class-1 box: the first predicts class 0, the
    second class 1. *)
Definition wrong_class_first : list detection :=
  [ Detection (Box 20 20 30 30) (9 # 10) (9 # 10) 0;
    Detection (Box 20 20 30 30) (8 # 10) (9 # 10) 1 ].

(** The (ap, p, r) entry the loop of [ap_per_class] appends for one class. *)
Definition class_entry (tp : list Q) (pred_cls target_cls : list Z) (c : Z) : pr_lists :=
  class_body tp pred_cls target_cls c (PR [] [] []).

(** ** The specification's reading of the target assignment *)

(** Scaled size of a ground-truth box. *)
Definition gt_wh (sh : shape) (t : target_row) : Q * Q :=
  (c2 (scale_box sh t), c3 (scale_box sh t)).

(** The anchor of maximal size-only IoU with a box of size [wh] (the first
    one, when several are maximal). *)
Definition best_anchor (anchors : list (Q * Q)) (wh : Q * Q) : nat :=
  match max_with_index (map (fun anchor => wh_iou_elem anchor wh) anchors) with
  | Some m => snd m
  | None => O
  end.

(** The (image, anchor, row, column) a ground-truth box is assigned to: its
    image, its best anchor, and the cell that contains its scaled centre. *)
Definition primary (sh : shape) (anchors : list (Q * Q)) (t : target_row) : index :=
  (Qtrunc (t_img t),
   Z.of_nat (best_anchor anchors (gt_wh sh t)),
   Qfloor (c1 (scale_box sh t)),
   Qfloor (c0 (scale_box sh t))).

(** A ground-truth row whose image index, class label and scaled centre lie
    inside the tensors. *)
Definition in_range (sh : shape) (t : target_row) : Prop :=
  (0 <= Qtrunc (t_img t) < Z.of_nat (nB sh))%Z
  /\ (0 <= Qtrunc (t_label t) < Z.of_nat (nC sh))%Z
  /\ 0 <= c0 (scale_box sh t) /\ c0 (scale_box sh t) < inject_Z (Z.of_nat (nG sh))
  /\ 0 <= c1 (scale_box sh t) /\ c1 (scale_box sh t) < inject_Z (Z.of_nat (nG sh)).

(** An index tuple inside the shape. *)
Definition inside (sh : shape) (k : index) : Prop :=
  let '(b, a, j, i) := k in
  (0 <= b < Z.of_nat (nB sh))%Z /\ (0 <= a < Z.of_nat (nA sh))%Z
  /\ (0 <= j < Z.of_nat (nG sh))%Z /\ (0 <= i < Z.of_nat (nG sh))%Z.

(** The index tuple [(b, best_n, gj, gi)] the source computes for a row. *)
Definition raw_cell (sh : shape) (anchors : list (Q * Q)) (t : target_row) : index :=
  (Qtrunc (t_img t),
   Z.of_nat (best_anchor anchors (gt_wh sh t)),
   Qtrunc (c1 (scale_box sh t)),
   Qtrunc (c0 (scale_box sh t))).

(** Fractional part. *)
Definition frac (q : Q) : Q := q - inject_Z (Qfloor q).

(** *** Concrete inputs *)

Definition three_anchors : list (Q * Q) := [(1, 1); (2, 2); (3, 1)].

(** One image, three anchors, a 4 x 4 grid, two classes. *)
Definition small_shape : shape := Shape 1 3 4 2.

(** Two ground-truth boxes of the same size whose centres (0.30, 0.30) and
    (0.35, 0.35) fall into the same cell of the 4 x 4 grid. *)
Definition first_colliding : target_row :=
  Target 0 0 (Box (3 # 10) (3 # 10) (1 # 2) (1 # 2)).

Definition colliding_targets : list target_row :=
  [ first_colliding; Target 0 1 (Box (35 # 100) (35 # 100) (1 # 2) (1 # 2)) ].

(** One ground-truth box centred at (0.625, 0.625) with the size of anchor 1. *)
Definition centred_target : target_row :=
  Target 0 1 (Box (5 # 8) (5 # 8) (1 # 2) (1 # 2)).

Definition single_target : list target_row := [centred_target].

(** Class scores of a two-class prediction, the same in every cell. *)
Definition flat_scores : list Q := [1 # 2; 1 # 2].

(** [tx] of an outcome, read at one index. *)
Definition tx_at (o : outcome targets_out) (k : index) : option Q :=
  match o with
  | Done out => Some (tx out k)
  | _ => None
  end.

(** ** Further notions for the geometry *)

(** The corner-form row [bbox_iou] works on, by convention. *)
Definition as_corners (x1y1x2y2 : bool) (b : box) : box :=
  if x1y1x2y2 then b else xywh2xyxy b.

(** A corner-form box moved by [(dx, dy)]. *)
Definition translate (dx dy : Q) (b : box) : box :=
  Box (c0 b + dx) (c1 b + dy) (c2 b + dx) (c3 b + dy).


(** The quotient [bbox_iou] forms from the two overlaps and the two areas. *)
Definition iou_quotient (w h area1 area2 : Q) : Q :=
  w * h / (area1 + area2 - w * h + eps).

(** Some concrete boxes. *)
Definition box_c : box := Box 2 3 6 9.
Definition box_xywh : box := Box 10 10 4 6.

(** ** Further notions for the anchors *)

(** A width and a height that are both positive. *)
Definition positive_size (wh : Q * Q) : Prop := 0 < fst wh /\ 0 < snd wh.

(** A width and a height that are not negative. *)
Definition nonneg_size (wh : Q * Q) : Prop := 0 <= fst wh /\ 0 <= snd wh.

(** Two sizes that hold the same numbers. *)
Definition same_size (a b : Q * Q) : Prop := fst a == fst b /\ snd a == snd b.

(** Area of a size. *)
Definition size_area (wh : Q * Q) : Q := fst wh * snd wh.

(** ** Further notions for [compute_ap] *)

(** [v] is the largest value of [m] from index [k] on. *)
Definition suffix_max (m : list Q) (k : nat) (v : Q) : Prop :=
  (forall j, (k <= j < length m)%nat -> nth j m 0 <= v)
  /\ exists j, (k <= j < length m)%nat /\ v = nth j m 0.

(** The padded curves of [compute_ap]. *)
Definition padded_recall (recall : list Q) : list Q := [0] ++ recall ++ [1].
Definition padded_precision (precision : list Q) : list Q := [0] ++ precision ++ [0].

(** A curve that never decreases. *)
Fixpoint non_decreasing (l : list Q) : Prop :=
  match l with
  | [] => True
  | x :: l' => match l' with [] => True | y :: _ => x <= y end /\ non_decreasing l'
  end.

(** All values within [0, 1]. *)
Definition unit_range (l : list Q) : Prop := forall x, In x l -> 0 <= x /\ x <= 1.

(** ** Further notions for the NMS engine *)










(** A batch of two images: two overlapping candidates of one class and one
    weak candidate in the first, nothing above the threshold in the second. *)
Definition two_images : list (list prediction_row) :=
  [ [ PredRow (Box 10 10 4 4) (9 # 10) [8 # 10; 1 # 10];
      PredRow (Box 11 10 4 4) (8 # 10) [7 # 10; 2 # 10];
      PredRow (Box 30 30 4 4) (1 # 10) [5 # 10; 5 # 10] ];
    [ PredRow (Box 5 5 2 2) (2 # 10) [9 # 10; 0] ] ].

(** ** Further notions for the matching *)

(** Number of true-positive flags. *)
Definition count_tp (flags : list Q) : nat := length (filter (fun f => Qeq_bool f 1) flags).

(** What the flag of one detection means: 0, or 1 for a detection whose label
    occurs among the labels of the image and whose best IoU with the boxes of
    the image reaches the threshold. *)
Definition flag_ok (iou_threshold : Q) (annotations : list (Q * box)) (d : detection) (f : Q)
  : Prop :=
  f = 0
  \/ (f = 1
      /\ mem_q (d_cls_pred d) (map fst annotations) = true
      /\ exists iou j,
           max_with_index (bbox_iou [d_box d] (map snd annotations) true) = Some (iou, j)
           /\ iou_threshold <= iou).

(** The detections of the images that have some. *)
Definition present (outputs : list (option (list detection))) : list (list detection) :=
  flat_map (fun o => match o with Some ds => [ds] | None => [] end) outputs.

(** One image, two ground-truth boxes of class 0, and three detections of
    class 0: two on the first box, one on the second. *)
Definition one_class_targets : list target_row :=
  [ Target 0 0 (Box 0 0 10 10); Target 0 0 (Box 20 20 30 30) ].

Definition three_detections : list detection :=
  [ Detection (Box 0 0 10 10) (9 # 10) (9 # 10) 0;
    Detection (Box 0 0 10 11) (8 # 10) (9 # 10) 0;
    Detection (Box 20 20 30 30) (7 # 10) (9 # 10) 0 ].

(** ** Further notions for [ap_per_class] *)

(** Strictly ascending: every element is below all the later ones. *)
Fixpoint ascending (l : list Z) : Prop :=
  match l with
  | [] => True
  | x :: l' => (forall y, In y l' -> (x < y)%Z) /\ ascending l'
  end.

(** ** Further notions for the target assignment *)

(** The IoUs of all the anchors with one ground-truth box, in anchor order. *)
Definition anchor_ious (sh : shape) (anchors : list (Q * Q)) (t : target_row) : list Q :=
  map (fun anchor => wh_iou_elem anchor (gt_wh sh t)) anchors.

(** What a run of [build_targets] on valid input computes, statement by
    statement. *)
Record targets_run (log : Q -> Q) (sh : shape) (target : list target_row)
    (anchors : list (Q * Q)) (ignore_thres : Q) (out : targets_out) : Prop :=
  TargetsRun {
    run_obj :
      index_put sh (fill 0%Z) (map (fun t => (primary sh anchors t, 1%Z)) target)
      = Done (obj_mask out);
    run_noobj :
      exists nm,
        index_put sh (fill 1%Z) (map (fun t => (primary sh anchors t, 0%Z)) target) = Done nm
        /\ noobj_loop sh ignore_thres nm
             (map (fun t => (Qtrunc (t_img t), Qfloor (c1 (scale_box sh t)),
                             Qfloor (c0 (scale_box sh t)), anchor_ious sh anchors t))
                  target)
           = Done (noobj_mask out);
    run_tcls :
      tcls_put sh (fill (fun _ => 0))
               (map (fun t => (primary sh anchors t, Qtrunc (t_label t))) target)
      = Done (tcls out);
    run_tconf : forall k, tconf out k = inject_Z (obj_mask out k)
  }.

(** ** [rescale_boxes]

    [original_shape] is the pair [(orig_h, orig_w)] of an image shape and
    [current_dim] the side of the square model input, all integers.  The rows
    of [boxes] are detection rows; only their four box columns are
    rewritten.  The source raises [ZeroDivisionError] when both sides of the
    original shape are 0: the model returns [None] there. *)

(** [x // 2] on a float. *)
Definition floor_half (x : Q) : Q := inject_Z (Qfloor (x / 2)).

Definition rescale_boxes (boxes : list detection) (current_dim : Z) (original_shape : Z * Z)
  : option (list detection) :=
  let '(orig_h, orig_w) := original_shape in
  if (Z.max orig_h orig_w =? 0)%Z then None
  else
    (* The amount of padding that was added *)
    let pad_x := inject_Z (Z.max (orig_h - orig_w) 0)
                 * (inject_Z current_dim / inject_Z (Z.max orig_h orig_w)) in
    let pad_y := inject_Z (Z.max (orig_w - orig_h) 0)
                 * (inject_Z current_dim / inject_Z (Z.max orig_h orig_w)) in
    (* Image height and width after padding is removed *)
    let unpad_h := inject_Z current_dim - pad_y in
    let unpad_w := inject_Z current_dim - pad_x in
    (* Rescale bounding boxes to dimension of original image *)
    Some (map (fun d =>
                 set_box d
                   (Box ((c0 (d_box d) - floor_half pad_x) / unpad_w * inject_Z orig_w)
                        ((c1 (d_box d) - floor_half pad_y) / unpad_h * inject_Z orig_h)
                        ((c2 (d_box d) - floor_half pad_x) / unpad_w * inject_Z orig_w)
                        ((c3 (d_box d) - floor_half pad_y) / unpad_h * inject_Z orig_h)))
              boxes).



(** Every coordinate multiplied by [k], the other columns kept. *)
Definition scaled_by (k : Q) (d d' : detection) : Prop :=
  c0 (d_box d') == c0 (d_box d) * k /\ c1 (d_box d') == c1 (d_box d) * k
  /\ c2 (d_box d') == c2 (d_box d) * k /\ c3 (d_box d') == c3 (d_box d) * k
  /\ d_conf d' = d_conf d /\ d_cls_conf d' = d_cls_conf d /\ d_cls_pred d' = d_cls_pred d.

(** ** Text files: [load_classes], the [obj.names] writer, [normalize_cvat_labels]

    A string is a list of characters.  The file system is not modelled:
    a file is the string that [read()] returns, once text mode has
    translated its line endings, or the string that the calls of [write]
    are given; a directory is the list of its entries, names with contents,
    in the order of [os.listdir].  Where a theorem relates what one function
    writes to what another reads, the translations of text mode stand
    between the two ([write_text], [read_text]); the encoding of the
    characters is left out, and such a theorem is stated for 7-bit
    characters, which the encodings of text files store as themselves. *)

Definition text : Type := list Ascii.ascii.

Definition newline : Ascii.ascii := Ascii.ascii_of_nat 10.
Definition space : Ascii.ascii := Ascii.ascii_of_nat 32.

(** [s.split(sep)] for a separator of one character. *)
Fixpoint split (sep : Ascii.ascii) (s : text) : list text :=
  match s with
  | [] => [[]]
  | c :: s' =>
      if Ascii.eqb c sep then [] :: split sep s'
      else match split sep s' with
           | [] => [[c]]
           | w :: ws => (c :: w) :: ws
           end
  end.

(** [sep.join(l)] *)
Fixpoint join (sep : Ascii.ascii) (l : list text) : text :=
  match l with
  | [] => []
  | [w] => w
  | w :: ws => w ++ sep :: join sep ws
  end.

(** [load_classes], on the string [fp.read()] returns for the file at
    [path], line endings translated. *)
Definition load_classes (content : text) : list text :=
  removelast (split newline content).

(** The content of [obj.names] that [generate_yolo_train_test_files] writes:
    one [write(class_name + "\n")] per class. *)
Definition names_file (classes : list text) : text :=
  concat (map (fun class_name => class_name ++ [newline]) classes).

Definition carriage_return : Ascii.ascii := Ascii.ascii_of_nat 13.

(** What [write] stores in a file opened with [open(path, "w")]: every
    newline becomes the line separator of the platform, [os.linesep]. *)
Definition write_text (linesep : text) (s : text) : text :=
  flat_map (fun c => if Ascii.eqb c newline then linesep else [c]) s.

(** What [read()] returns for the characters stored in a file opened with
    [open(path, "r")]: a carriage return followed by a newline, and a
    carriage return alone, both become a newline. *)
Fixpoint read_text (stored : text) : text :=
  match stored with
  | [] => []
  | c :: rest =>
      if Ascii.eqb c carriage_return then
        match rest with
        | c' :: rest' =>
            if Ascii.eqb c' newline then newline :: read_text rest'
            else newline :: read_text rest
        | [] => [newline]
        end
      else c :: read_text rest
  end.

(** The line separators of the platforms: a newline, or a carriage return
    and a newline. *)
Definition platform_linesep (linesep : text) : Prop :=
  linesep = [newline] \/ linesep = [carriage_return; newline].

(** A name made of 7-bit characters, none of them a newline or a carriage
    return. *)
Definition plain_name (name : text) : Prop :=
  Forall (fun c => c <> newline /\ c <> carriage_return
                   /\ (Ascii.nat_of_ascii c < 128)%nat) name.

(** The two exceptions that the body of [normalize_cvat_labels] can raise. *)
Inductive exception : Type :=
| ValueError   (* reshape((-1, 4)) of an array whose size is no multiple of 4 *)
| TypeError.   (* class_ + list(bbox): a str and a list *)

(** One iteration of [for line in file_content]: the lines appended to
    [file_output_content] and the new value of [lines_changed], or the
    exception.  With more than five fields the counter is incremented, then
    either [reshape] raises or, the array having at least two rows, the first
    iteration of [for bbox in bboxes] raises on [class_ + list(bbox)]. *)
Definition normalize_line (line : text) (lines_changed : nat)
  : exception + (list text * nat) :=
  let data := split space line in
  if (5 <? length data)%nat then
    let lines_changed := S lines_changed in
    if ((length data - 1) mod 4 =? 0)%nat then inl TypeError else inl ValueError
  else inr ([join space data], lines_changed).

Fixpoint normalize_lines (file_content : list text) (file_output_content : list text)
    (lines_changed : nat) : exception + (list text * nat) :=
  match file_content with
  | [] => inr (file_output_content, lines_changed)
  | line :: rest =>
      match normalize_line line lines_changed with
      | inl e => inl e
      | inr (out, lines_changed) =>
          normalize_lines rest (file_output_content ++ out) lines_changed
      end
  end.

Definition directory : Type := list (text * text).

(** The loop over the directory entries.  The result is the directory as the
    run leaves it and the returned count or the exception; a file is
    rewritten only after all its lines were processed. *)
Fixpoint normalize_files (matches : text -> bool) (files : directory) (lines_changed : nat)
  : directory * (exception + nat) :=
  match files with
  | [] => ([], inr lines_changed)
  | (file, content) :: rest =>
      if matches file then
        match normalize_lines (removelast (split newline content)) [] lines_changed with
        | inl e => (files, inl e)
        | inr (file_output_content, lines_changed) =>
            let '(rest', r) := normalize_files matches rest lines_changed in
            ((file, join newline file_output_content) :: rest', r)
        end
      else
        let '(rest', r) := normalize_files matches rest lines_changed in
        ((file, content) :: rest', r)
  end.

(** [matches] is [re.match] with the pattern [image_label_file_regex]. *)
Definition normalize_cvat_labels (matches : text -> bool) (files : directory)
  : directory * (exception + nat) :=
  normalize_files matches files 0.

(** The content up to its last newline, excluded; nothing when there is no
    newline. *)
Definition cut_at_last_newline (content cut : text) : Prop :=
  (forall body tail,
      content = body ++ newline :: tail -> ~ In newline tail -> cut = body)
  /\ (~ In newline content -> cut = []).

(** A line with more than five fields: at least five spaces. *)
Definition wide (line : text) : Prop :=
  (5 <= count_occ Ascii.ascii_dec line space)%nat.

(** The lines that end with a newline. *)
Definition terminated_line (content line : text) : Prop :=
  ~ In newline line
  /\ exists before after, content = before ++ line ++ newline :: after
       /\ (before = [] \/ exists before', before = before' ++ [newline]).

(** What a completed run leaves of a directory entry. *)
Definition rewritten (matches : text -> bool) (old new : text * text) : Prop :=
  fst new = fst old
  /\ (if matches (fst old) then cut_at_last_newline (snd old) (snd new)
      else snd new = snd old).

(** The sum of the true-positive flags of the detections of class [c], on the
    arrays as they are passed to [ap_per_class]. *)
Definition class_tp (c : Z) (tp : list Q) (pred_cls : list Z) : Q :=
  qsum (select (map (Z.eqb c) pred_cls) tp).

(** ** [prepare_image_yolo]: the padding

    An image tensor of shape [(c, h, w)] is its shape and the function from
    the indices (channel, row, column) to the values.  The model covers the
    padding of [prepare_image_yolo]; the resize that follows in the source
    is not modelled. *)

Record image : Type :=
  Image { img_c : nat; img_h : nat; img_w : nat; img_at : nat -> nat -> nat -> Q }.

(** [F.pad(img, (left, right, top, bottom), "constant", value)] *)
Definition pad_constant (img : image) (pad : nat * nat * nat * nat) (value : Q) : image :=
  let '(pad_left, pad_right, pad_top, pad_bottom) := pad in
  Image (img_c img) (pad_top + img_h img + pad_bottom) (pad_left + img_w img + pad_right)
        (fun ch i j =>
           if ((pad_top <=? i) && (i <? pad_top + img_h img)
               && (pad_left <=? j) && (j <? pad_left + img_w img))%nat
           then img_at img ch (i - pad_top) (j - pad_left)
           else value).

(** The tensor [img] of [prepare_image_yolo] after [F.pad]. *)
Definition prepare_image_yolo_padded (img : image) (pad_value : Q) : image :=
  let h := img_h img in
  let w := img_w img in
  let dim_diff := Z.abs_nat (Z.of_nat h - Z.of_nat w) in
  (* (upper / left) padding and (lower / right) padding *)
  let pad1 := (dim_diff / 2)%nat in
  let pad2 := (dim_diff - dim_diff / 2)%nat in
  (* Determine padding *)
  let pad := if (h <=? w)%nat then (0, 0, pad1, pad2)%nat else (pad1, pad2, 0, 0)%nat in
  (* Add padding *)
  pad_constant img pad pad_value.

(** * Properties *)

(** ** Helper lemmas on numbers and lists *)

Lemma Qlt_bool_true (a b : Q) : Qlt_bool a b = true <-> a < b.
Proof.
  unfold Qlt_bool. rewrite negb_true_iff.
  split; intro H.
  - apply Qnot_le_lt. intro Hle. apply Qle_bool_iff in Hle. congruence.
  - destruct (Qle_bool b a) eqn:E; [|reflexivity].
    apply Qle_bool_iff in E. exfalso. apply (Qlt_not_le _ _ H E).
Qed.

Lemma Qlt_bool_false (a b : Q) : Qlt_bool a b = false <-> b <= a.
Proof.
  unfold Qlt_bool. rewrite negb_false_iff. apply Qle_bool_iff.
Qed.

Lemma clamp_min_zero (x : Q) : clamp_min x 0 == Qmax x 0.
Proof.
  unfold clamp_min.
  destruct (Qlt_bool x 0) eqn:E.
  - apply Qlt_bool_true in E. symmetry. apply Q.max_r. lra.
  - apply Qlt_bool_false in E. symmetry. apply Q.max_l. exact E.
Qed.

Lemma clamp_min_nonneg (x : Q) : 0 <= clamp_min x 0.
Proof.
  unfold clamp_min.
  destruct (Qlt_bool x 0) eqn:E.
  - lra.
  - apply Qlt_bool_false in E. exact E.
Qed.

Lemma clamp_min_le (x y : Q) : x <= y -> 0 <= y -> clamp_min x 0 <= y.
Proof.
  intros Hxy Hy. unfold clamp_min.
  destruct (Qlt_bool x 0); assumption.
Qed.

Lemma clamp_min_of_nonpos (x : Q) : x <= 0 -> clamp_min x 0 == 0.
Proof.
  intro H. unfold clamp_min.
  destruct (Qlt_bool x 0) eqn:E; [reflexivity|].
  apply Qlt_bool_false in E. lra.
Qed.

Lemma eps_pos : 0 < eps.
Proof. reflexivity. Qed.

Lemma iou_elem_corner (a b : box) :
  iou_elem true a b
  = clamp_min (Qmin (c2 a) (c2 b) - Qmax (c0 a) (c0 b) + 1) 0
    * clamp_min (Qmin (c3 a) (c3 b) - Qmax (c1 a) (c1 b) + 1) 0
    / (spec_area a + spec_area b
       - clamp_min (Qmin (c2 a) (c2 b) - Qmax (c0 a) (c0 b) + 1) 0
         * clamp_min (Qmin (c3 a) (c3 b) - Qmax (c1 a) (c1 b) + 1) 0
       + eps).
Proof. reflexivity. Qed.

(** The overlap along one axis is at most the extent of the first box. *)
Lemma overlap_le_extent (lo1 hi1 lo2 hi2 : Q) :
  lo1 <= hi1 ->
  clamp_min (Qmin hi1 hi2 - Qmax lo1 lo2 + 1) 0 <= hi1 - lo1 + 1.
Proof.
  intro H. apply clamp_min_le; [|lra].
  pose proof (Q.le_min_l hi1 hi2). pose proof (Q.le_max_l lo1 lo2). lra.
Qed.

Lemma union_pos (a b : box) :
  well_formed a -> well_formed b ->
  0 < spec_area a + spec_area b
      - clamp_min (Qmin (c2 a) (c2 b) - Qmax (c0 a) (c0 b) + 1) 0
        * clamp_min (Qmin (c3 a) (c3 b) - Qmax (c1 a) (c1 b) + 1) 0
      + eps.
Proof.
  intros [Hax Hay] [Hbx Hby]. unfold spec_area.
  pose proof (overlap_le_extent (c0 a) (c2 a) (c0 b) (c2 b) Hax) as Hw.
  pose proof (overlap_le_extent (c1 a) (c3 a) (c1 b) (c3 b) Hay) as Hh.
  pose proof (clamp_min_nonneg (Qmin (c2 a) (c2 b) - Qmax (c0 a) (c0 b) + 1)) as Hw0.
  pose proof (clamp_min_nonneg (Qmin (c3 a) (c3 b) - Qmax (c1 a) (c1 b) + 1)) as Hh0.
  pose proof eps_pos as He.
  set (w := clamp_min (Qmin (c2 a) (c2 b) - Qmax (c0 a) (c0 b) + 1) 0) in *.
  set (h := clamp_min (Qmin (c3 a) (c3 b) - Qmax (c1 a) (c1 b) + 1) 0) in *.
  nra.
Qed.

(** ** Geometry *)

(** C5: for corner-form boxes with [x2 >= x1] and [y2 >= y1], [bbox_iou]
    returns [I / (areaA + areaB - I + 1e-16)], where [I] and the areas are
    computed with the same [+1] inclusive-pixel convention; the divisor is
    positive. *)
Theorem bbox_iou_formula (a b : box) :
  well_formed a -> well_formed b ->
  exists iou,
    bbox_iou [a] [b] true = [iou]
    /\ iou == spec_inter a b / (spec_area a + spec_area b - spec_inter a b + eps)
    /\ 0 < spec_area a + spec_area b - spec_inter a b + eps.
Proof.
  intros Ha Hb.
  exists (iou_elem true a b). split; [reflexivity|].
  pose proof (union_pos a b Ha Hb) as Hpos.
  rewrite iou_elem_corner. unfold spec_inter.
  rewrite !clamp_min_zero in *.
  split; [reflexivity | exact Hpos].
Qed.

Lemma bbox_iou_formula_witness :
  exists iou,
    bbox_iou [box_a] [box_right_of_a] true = [iou]
    /\ iou == spec_inter box_a box_right_of_a
              / (spec_area box_a + spec_area box_right_of_a
                 - spec_inter box_a box_right_of_a + eps)
    /\ 0 < spec_area box_a + spec_area box_right_of_a
           - spec_inter box_a box_right_of_a + eps.
Proof.
  apply (bbox_iou_formula box_a box_right_of_a); split; vm_compute; discriminate.
Defined.

(** C6 as stated fails: a box that lies strictly to the right of another one,
    by less than one unit, still has a positive IoU with it. *)
Lemma bbox_iou_no_overlap_positive :
  well_formed box_a /\ well_formed box_right_of_a
  /\ no_overlap box_a box_right_of_a
  /\ exists iou, bbox_iou [box_a] [box_right_of_a] true = [iou] /\ ~ iou == 0.
Proof.
  repeat split; try (vm_compute; discriminate).
  - left. reflexivity.
  - eexists. split; [reflexivity|]. vm_compute. discriminate.
Qed.

(** C6, amended: for well-formed corner-form boxes that are at least one unit
    apart along an axis, [bbox_iou] returns exactly 0 (with a positive
    divisor). *)
Theorem bbox_iou_separated_zero (a b : box) :
  well_formed a -> well_formed b -> separated a b ->
  exists iou,
    bbox_iou [a] [b] true = [iou] /\ iou == 0
    /\ 0 < spec_area a + spec_area b - spec_inter a b + eps.
Proof.
  intros Ha Hb Hsep.
  exists (iou_elem true a b). split; [reflexivity|].
  pose proof (union_pos a b Ha Hb) as Hpos.
  split.
  - rewrite iou_elem_corner.
    assert (Hz : clamp_min (Qmin (c2 a) (c2 b) - Qmax (c0 a) (c0 b) + 1) 0
                 * clamp_min (Qmin (c3 a) (c3 b) - Qmax (c1 a) (c1 b) + 1) 0 == 0).
    { destruct Ha as [Hax Hay], Hb as [Hbx Hby].
      pose proof (Q.le_min_l (c2 a) (c2 b)). pose proof (Q.le_min_r (c2 a) (c2 b)).
      pose proof (Q.le_max_l (c0 a) (c0 b)). pose proof (Q.le_max_r (c0 a) (c0 b)).
      pose proof (Q.le_min_l (c3 a) (c3 b)). pose proof (Q.le_min_r (c3 a) (c3 b)).
      pose proof (Q.le_max_l (c1 a) (c1 b)). pose proof (Q.le_max_r (c1 a) (c1 b)).
      destruct Hsep as [Hs | [Hs | [Hs | Hs]]].
      - rewrite (clamp_min_of_nonpos (Qmin (c2 a) (c2 b) - Qmax (c0 a) (c0 b) + 1)) by lra.
        ring.
      - rewrite (clamp_min_of_nonpos (Qmin (c2 a) (c2 b) - Qmax (c0 a) (c0 b) + 1)) by lra.
        ring.
      - rewrite (clamp_min_of_nonpos (Qmin (c3 a) (c3 b) - Qmax (c1 a) (c1 b) + 1)) by lra.
        ring.
      - rewrite (clamp_min_of_nonpos (Qmin (c3 a) (c3 b) - Qmax (c1 a) (c1 b) + 1)) by lra.
        ring. }
    rewrite Hz. unfold Qdiv. ring.
  - unfold spec_inter. rewrite <- !clamp_min_zero. exact Hpos.
Qed.

Lemma bbox_iou_separated_zero_witness :
  exists iou,
    bbox_iou [box_a] [box_far_right_of_a] true = [iou] /\ iou == 0
    /\ 0 < spec_area box_a + spec_area box_far_right_of_a
           - spec_inter box_a box_far_right_of_a + eps.
Proof.
  apply (bbox_iou_separated_zero box_a box_far_right_of_a).
  - split; vm_compute; discriminate.
  - split; vm_compute; discriminate.
  - left. vm_compute. discriminate.
Defined.

(** ** The precision envelope of [compute_ap] *)

Lemma length_set_nth {A : Type} (i : nat) (v : A) (l : list A) :
  length (set_nth i v l) = length l.
Proof.
  revert i. induction l as [|x l IH]; intros [|i]; simpl; auto.
Qed.

Lemma nth_set_nth_eq {A : Type} (i : nat) (v d : A) (l : list A) :
  (i < length l)%nat -> nth i (set_nth i v l) d = v.
Proof.
  revert i. induction l as [|x l IH]; intros [|i] H; simpl in *; try lia; auto.
  apply IH. lia.
Qed.

Lemma nth_set_nth_ne {A : Type} (i k : nat) (v d : A) (l : list A) :
  i <> k -> nth k (set_nth i v l) d = nth k l d.
Proof.
  revert i k. induction l as [|x l IH]; intros [|i] [|k] H; simpl; auto; try lia.
Qed.

Lemma length_envelope_from (i : nat) (mpre : list Q) :
  length (envelope_from i mpre) = length mpre.
Proof.
  revert mpre. induction i as [|j IH]; intro mpre; simpl; [reflexivity|].
  rewrite IH. apply length_set_nth.
Qed.

(** Loop invariant: when the loop is about to visit [i], the array is
    non-increasing from index [i] on; the loop extends this to index 0. *)
Lemma envelope_from_non_increasing (i : nat) :
  forall mpre : list Q,
    (i < length mpre)%nat ->
    (forall k, (i <= k)%nat -> (S k < length mpre)%nat ->
               nth (S k) mpre 0 <= nth k mpre 0) ->
    forall k, (S k < length mpre)%nat ->
              nth (S k) (envelope_from i mpre) 0 <= nth k (envelope_from i mpre) 0.
Proof.
  induction i as [|j IH]; intros mpre Hlen Hsuffix k Hk; simpl.
  - apply Hsuffix; [lia | exact Hk].
  - rewrite <- (length_set_nth j (Qmax (nth j mpre 0) (nth (S j) mpre 0)) mpre) in Hk.
    apply IH; [rewrite length_set_nth; lia | | exact Hk].
    clear k Hk. intros k Hjk Hk. rewrite length_set_nth in Hk.
    destruct (Nat.eq_dec j k) as [->|Hne].
    + rewrite nth_set_nth_eq by lia.
      rewrite nth_set_nth_ne by lia.
      apply Q.le_max_r.
    + rewrite !nth_set_nth_ne by lia.
      apply Hsuffix; [lia | exact Hk].
Qed.

(** C10: after the backward maximum scan of [compute_ap], the padded
    precision array (which keeps its length, the curve's plus two) is
    non-increasing: every element is at least the element at the next index,
    whatever the input curve. *)
Theorem precision_envelope_non_increasing (precision : list Q) :
  length (precision_envelope precision) = (length precision + 2)%nat
  /\ forall k, (S k < length (precision_envelope precision))%nat ->
               nth (S k) (precision_envelope precision) 0
               <= nth k (precision_envelope precision) 0.
Proof.
  unfold precision_envelope.
  split.
  - rewrite length_envelope_from. simpl. rewrite length_app. simpl. lia.
  - intros k Hk. rewrite length_envelope_from in Hk.
    apply envelope_from_non_increasing.
    + simpl. rewrite length_app. simpl. lia.
    + intros k' Hle Hlt. simpl in *. lia.
    + exact Hk.
Qed.

Lemma precision_envelope_non_increasing_witness :
  nth 2 (precision_envelope [1; 1 # 2; 2 # 3]) 0
  <= nth 1 (precision_envelope [1; 1 # 2; 2 # 3]) 0.
Proof.
  apply (proj2 (precision_envelope_non_increasing [1; 1 # 2; 2 # 3]) 1%nat).
  vm_compute. lia.
Defined.

(** ** The greedy merge loop of [non_max_suppression] *)

Lemma select_map_filter {A : Type} (p : A -> bool) (l : list A) :
  select (map p l) l = filter p l.
Proof.
  induction l as [|x l IH]; simpl; [reflexivity|].
  destruct (p x); rewrite IH; reflexivity.
Qed.

Lemma zip_with_map {A B C D : Type} (f : B -> C -> D) (g : A -> B) (h : A -> C) (l : list A) :
  zip_with f (map g l) (map h l) = map (fun x => f (g x) (h x)) l.
Proof.
  induction l as [|x l IH]; simpl; [reflexivity|]. rewrite IH. reflexivity.
Qed.

Lemma Qeq_bool_comm (x y : Q) : Qeq_bool x y = Qeq_bool y x.
Proof.
  destruct (Qeq_bool x y) eqn:E1, (Qeq_bool y x) eqn:E2; try reflexivity.
  - apply Qeq_bool_iff in E1. symmetry in E1. apply Qeq_bool_iff in E1. congruence.
  - apply Qeq_bool_iff in E2. symmetry in E2. apply Qeq_bool_iff in E2. congruence.
Qed.

(** The mask [invalid] marks the members of the cluster of row 0. *)
Lemma invalid_mask_cluster (nms_thres : Q) (c : detection) (rest : list detection) :
  invalid_mask nms_thres (c :: rest) = map (in_cluster nms_thres c) (c :: rest).
Proof.
  unfold invalid_mask, bbox_iou, broadcast2.
  rewrite !map_map.
  rewrite (zip_with_map andb
             (fun d => Qlt_bool nms_thres (iou_elem true (d_box c) (d_box d)))
             (fun d => Qeq_bool (d_cls_pred c) (d_cls_pred d))).
  apply map_ext. intro d. unfold in_cluster.
  rewrite (Qeq_bool_comm (d_cls_pred d)). reflexivity.
Qed.

Lemma weighted_box_cluster (s : list detection) :
  weighted_box (map d_conf s) (map d_box s)
  = Box (weighted_mean c0 s) (weighted_mean c1 s) (weighted_mean c2 s) (weighted_mean c3 s).
Proof.
  unfold weighted_box, weighted_mean.
  rewrite !map_map.
  rewrite (zip_with_map Qmult d_conf (fun d => c0 (d_box d))).
  rewrite (zip_with_map Qmult d_conf (fun d => c1 (d_box d))).
  rewrite (zip_with_map Qmult d_conf (fun d => c2 (d_box d))).
  rewrite (zip_with_map Qmult d_conf (fun d => c3 (d_box d))).
  reflexivity.
Qed.

Lemma nms_body_cluster (nms_thres : Q) (c : detection) (rest : list detection) :
  let s := cluster nms_thres c (c :: rest) in
  let kept :=
    set_box c (Box (weighted_mean c0 s) (weighted_mean c1 s)
                   (weighted_mean c2 s) (weighted_mean c3 s)) in
  nms_body nms_thres c rest
  = (kept,
     (if in_cluster nms_thres c c then [] else [kept])
     ++ filter (fun d => negb (in_cluster nms_thres c d)) rest).
Proof.
  intros s kept. unfold nms_body.
  rewrite invalid_mask_cluster.
  rewrite select_map_filter.
  fold (cluster nms_thres c (c :: rest)). fold s.
  rewrite weighted_box_cluster. fold kept.
  f_equal.
  change (map negb (map (in_cluster nms_thres c) (c :: rest)))
    with (negb (in_cluster nms_thres c c)
          :: map negb (map (in_cluster nms_thres c) rest)).
  simpl select.
  rewrite map_map.
  rewrite (select_map_filter (fun d => negb (in_cluster nms_thres c d)) rest).
  destruct (in_cluster nms_thres c c); reflexivity.
Qed.






(** *** The pool handed to the loop is in descending score order *)

Lemma bind_Done {A B : Type} (c : outcome A) (k : A -> outcome B) (b : B) :
  bind c k = Done b -> exists a, c = Done a /\ k a = Done b.
Proof.
  destruct c as [a| |]; simpl; intro H; try discriminate.
  exists a. split; [reflexivity | exact H].
Qed.





Lemma insert_by_In {A : Type} (k : Q) (a : A) (l : list (Q * A)) (p : Q * A) :
  In p (insert_by k a l) <-> p = (k, a) \/ In p l.
Proof.
  induction l as [|[k' a'] l IH]; simpl.
  - intuition congruence.
  - destruct (Qle_bool k k'); simpl; [intuition congruence|].
    rewrite IH. intuition congruence.
Qed.



Lemma sort_pairs_In {A : Type} (l : list (Q * A)) (p : Q * A) :
  In p (sort_pairs l) <-> In p l.
Proof.
  induction l as [|[k a] l IH]; simpl; [tauto|].
  rewrite insert_by_In, IH. intuition congruence.
Qed.



(** *** Termination of the merge loop *)

Lemma filter_length_le {A : Type} (p : A -> bool) (l : list A) :
  (length (filter p l) <= length l)%nat.
Proof.
  induction l as [|x l IH]; simpl; [lia|]. destruct (p x); simpl; lia.
Qed.

(** While every row of the pool belongs to its own cluster, each iteration
    removes at least row 0, and the loop ends within as many iterations as
    there are rows. *)
Lemma nms_loop_terminates (nms_thres : Q) (fuel : nat) :
  forall pool keep_boxes,
    (forall d, In d pool -> in_cluster nms_thres d d = true) ->
    (length pool <= fuel)%nat ->
    exists out,
      nms_loop fuel nms_thres pool keep_boxes = Done (keep_boxes ++ out)
      /\ (length out <= length pool)%nat.
Proof.
  induction fuel as [|fuel IH]; intros pool keep Hself Hlen.
  - destruct pool; simpl in Hlen; [|lia].
    exists []. rewrite app_nil_r. split; [reflexivity | simpl; lia].
  - destruct pool as [|c rest].
    + exists []. rewrite app_nil_r. split; [reflexivity | simpl; lia].
    + cbn [nms_loop].
      pose proof (nms_body_cluster nms_thres c rest) as Hbody. cbv zeta in Hbody.
      rewrite Hbody. rewrite (Hself c) by (left; reflexivity). cbn [app].
      pose proof (filter_length_le (fun d => negb (in_cluster nms_thres c d)) rest) as Hf.
      destruct (IH (filter (fun d => negb (in_cluster nms_thres c d)) rest)
                   (keep ++ [set_box c
                               (Box (weighted_mean c0 (cluster nms_thres c (c :: rest)))
                                    (weighted_mean c1 (cluster nms_thres c (c :: rest)))
                                    (weighted_mean c2 (cluster nms_thres c (c :: rest)))
                                    (weighted_mean c3 (cluster nms_thres c (c :: rest))))]))
        as (out & Hout & Hlen').
      * intros d Hd. apply filter_In in Hd. apply Hself. right. tauto.
      * simpl in Hlen. lia.
      * eexists (_ :: out). rewrite Hout, <- app_assoc. split; [reflexivity|].
        simpl. lia.
Qed.

(** C8 at its failing input: one candidate survives the confidence filter,
    and with [nms_thres = 1] the loop never ends, whatever the fuel: the IoU
    of the candidate with itself does not exceed 1, the mask [invalid] is all
    false and no row ever leaves the pool.  (The merge over the empty cluster
    divides 0 by 0: the row left in the pool has NaN coordinates in the
    source and [stuck_row]'s zeros here; neither ever matches itself.) *)
Theorem nms_threshold_one_diverges :
  candidates (1 # 2) (map (fun r => PredRow (xywh2xyxy (p_box r)) (p_conf r) (p_cls r))
                          (hd [] one_candidate))
  = Done one_candidate_pool
  /\ length one_candidate_pool = 1%nat
  /\ invalid_mask 1 one_candidate_pool = [false]
  /\ forall fuel, non_max_suppression fuel one_candidate (1 # 2) 1 = OutOfFuel.
Proof.
  assert (Hcand : candidates (1 # 2)
                    (map (fun r => PredRow (xywh2xyxy (p_box r)) (p_conf r) (p_cls r))
                         (hd [] one_candidate))
                  = Done one_candidate_pool) by reflexivity.
  assert (Hstuck : forall fuel keep, nms_loop fuel 1 [stuck_row] keep = OutOfFuel).
  { induction fuel as [|fuel IH]; intro keep; [reflexivity|].
    cbn [nms_loop].
    replace (nms_body 1 stuck_row []) with (stuck_row, [stuck_row])
      by (vm_compute; reflexivity).
    apply IH. }
  split; [exact Hcand|]. split; [reflexivity|]. split.
  - vm_compute. reflexivity.
  - intro fuel. unfold non_max_suppression.
    change (map (map (fun r => PredRow (xywh2xyxy (p_box r)) (p_conf r) (p_cls r)))
                one_candidate)
      with [map (fun r => PredRow (xywh2xyxy (p_box r)) (p_conf r) (p_cls r))
                (hd [] one_candidate)].
    cbn [map_outcome]. unfold nms_image. rewrite Hcand.
    unfold one_candidate_pool. cbn [bind].
    destruct fuel as [|fuel]; [reflexivity|].
    cbn [nms_loop].
    replace (nms_body 1 (Detection (xywh2xyxy (Box 10 10 4 4)) (9 # 10) (8 # 10) 0) [])
      with (stuck_row, [stuck_row]) by (vm_compute; reflexivity).
    cbv beta iota. rewrite Hstuck. reflexivity.
Qed.

(** *** Re-running the suppression *)

(** C9 as stated fails.  Run on its own output, [non_max_suppression] reads
    the corner coordinates as a centre and a size and converts them again, so
    the boxes change: the box of the one candidate, about (8, 8, 12, 12)
    after the first run, is about (2, 2, 14, 14) after the second.  And the
    merge loop alone, run on the rows it kept, can merge them further, since
    a merged box may overlap a row it did not overlap before. *)
Lemma nms_rerun_differs :
  (exists d d',
      non_max_suppression 1 one_candidate (1 # 2) (2 # 5) = Done [Some [d]]
      /\ rerun 1 one_candidate (1 # 2) (2 # 5) = Done [Some [d']]
      /\ 7 < c0 (d_box d) /\ c2 (d_box d) < 13
      /\ c0 (d_box d') < 3 /\ 13 < c2 (d_box d'))
  /\ ~ same_detections (rerun 1 one_candidate (1 # 2) (2 # 5))
                       (non_max_suppression 1 one_candidate (1 # 2) (2 # 5))
  /\ exists out out',
       nms_loop 3 (3 # 10) chain [] = Done out
       /\ nms_loop 3 (3 # 10) out [] = Done out'
       /\ length out = 2%nat /\ length out' = 1%nat.
Proof.
  split; [|split].
  - eexists. eexists.
    split; [vm_compute; reflexivity|].
    split; [vm_compute; reflexivity|].
    repeat split; vm_compute; reflexivity.
  - intro H. vm_compute in H.
    inversion H as [|? ? ? ? Himg _]; subst.
    inversion Himg as [|? ? ? ? Hdet _]; subst.
    destruct Hdet as [[Hc0 _] _]. discriminate Hc0.
  - eexists. eexists.
    split; [vm_compute; reflexivity|].
    split; [vm_compute; reflexivity|].
    split; reflexivity.
Qed.

Lemma filter_none {A : Type} (p : A -> bool) (l : list A) :
  (forall x, In x l -> p x = false) -> filter p l = [].
Proof.
  induction l as [|x l IH]; simpl; intro H; [reflexivity|].
  rewrite (H x) by (left; reflexivity). apply IH. intros y Hy. apply H. right. exact Hy.
Qed.

Lemma filter_all {A : Type} (p : A -> bool) (l : list A) :
  (forall x, In x l -> p x = true) -> filter p l = l.
Proof.
  induction l as [|x l IH]; simpl; intro H; [reflexivity|].
  rewrite (H x) by (left; reflexivity). f_equal. apply IH. intros y Hy. apply H. right. exact Hy.
Qed.

(** In exact arithmetic the weighted mean over a one-row cluster is the
    coordinate of the row. *)
Lemma weighted_mean_single (coord : box -> Q) (c : detection) :
  ~ d_conf c == 0 -> weighted_mean coord [c] == coord (d_box c).
Proof.
  intro Hw. unfold weighted_mean, qsum. simpl. field. lra.
Qed.

(** On a settled list every iteration emits its top row computed from that
    row alone and removes that row only. *)
Lemma nms_loop_settled_from (nms_thres : Q) (dets : list detection) :
  forall fuel keep_boxes,
    settled nms_thres dets -> (length dets <= fuel)%nat ->
    nms_loop fuel nms_thres dets keep_boxes = Done (keep_boxes ++ map alone dets).
Proof.
  induction dets as [|c rest IH]; intros fuel keep Hset Hlen.
  - cbn [map]. rewrite app_nil_r. destruct fuel; reflexivity.
  - destruct fuel as [|fuel]; [simpl in Hlen; lia|].
    destruct Hset as (Hself & Hw & Hrest & Hset).
    cbn [nms_loop].
    pose proof (nms_body_cluster nms_thres c rest) as Hbody. cbv zeta in Hbody.
    rewrite Hbody, Hself. cbn [app].
    assert (Hcl : cluster nms_thres c (c :: rest) = [c]).
    { unfold cluster. simpl. rewrite Hself. f_equal. apply filter_none, Hrest. }
    rewrite Hcl.
    rewrite (filter_all (fun d => negb (in_cluster nms_thres c d)) rest)
      by (intros d Hd; rewrite (Hrest d Hd); reflexivity).
    rewrite IH by (try exact Hset; simpl in Hlen; lia).
    rewrite <- app_assoc. reflexivity.
Qed.

Lemma alone_recomputed (dets : list detection) : Forall2 recomputed (map alone dets) dets.
Proof.
  induction dets as [|d dets IH]; cbn [map]; constructor; [|exact IH].
  repeat split; reflexivity.
Qed.

(** C9, amended: on a list of detections on which nothing is left to merge
    (each row overlaps itself above [nms_thres] and has a non-zero
    objectness, and no row lies in the cluster of an earlier row), the merge
    loop ends, and it merges and removes nothing: it returns one row per input
    row, in the same order, with the objectness, class score and class of that
    row, and with each coordinate recomputed from that row alone, as
    [(objectness * coord) / objectness].  The recomputed coordinate is the
    old one in exact arithmetic, and the old one up to rounding in floating
    point. *)
Theorem nms_loop_settled (nms_thres : Q) (dets : list detection) (fuel : nat) :
  settled nms_thres dets -> (length dets <= fuel)%nat ->
  exists out,
    nms_loop fuel nms_thres dets [] = Done out
    /\ length out = length dets
    /\ Forall2 recomputed out dets.
Proof.
  intros Hset Hlen. exists (map alone dets).
  split; [apply (nms_loop_settled_from nms_thres dets fuel [] Hset Hlen)|].
  split; [apply length_map|apply alone_recomputed].
Qed.

Lemma apart_settled : settled (2 # 5) apart.
Proof.
  simpl. repeat split; try (vm_compute; congruence);
    intros d Hd; simpl in Hd;
    repeat match goal with
           | H : _ \/ _ |- _ => destruct H as [<-|H]
           | H : False |- _ => destruct H
           end; vm_compute; reflexivity.
Qed.

Lemma nms_loop_settled_witness :
  exists out,
    nms_loop 2 (2 # 5) apart [] = Done out
    /\ length out = length apart
    /\ Forall2 recomputed out apart.
Proof.
  apply (nms_loop_settled (2 # 5) apart 2 apart_settled). simpl. lia.
Defined.

(** ** Totality of the candidate selection *)


Lemma argsort_apply_In {A : Type} (keys : list Q) (rows : list A) (r : A) :
  In r (argsort_apply keys rows) -> In r rows.
Proof.
  unfold argsort_apply. intro H.
  apply in_map_iff in H as ([k r'] & <- & Hp).
  apply (proj1 (sort_pairs_In _ _)) in Hp.
  apply in_combine_r in Hp. exact Hp.
Qed.




(** ** Matching detections to ground truth: [get_batch_statistics] *)

(** C3 at its failing input.  The image has a box of class 0 and a box of
    class 1 (index 1).  A detection of class 0 that sits on the class-1 box
    passes the label test, because class 0 occurs in the image, and is then
    matched to the box of highest IoU whatever its class: it is marked
    true-positive and claims box 1, and the class-1 detection on the same box
    that follows is left false-positive. *)
Theorem wrong_class_detection_matched :
  get_batch_statistics [Some wrong_class_first] two_class_targets (1 # 2)
  = [([1; 0], [9 # 10; 8 # 10], [0; 1])]
  /\ match_loop (1 # 2) (annotations_of two_class_targets 0) wrong_class_first []
     = ([1; 0], [1%nat])
  /\ map fst (annotations_of two_class_targets 0) = [0; 1]
  /\ map d_cls_pred wrong_class_first = [0; 1].
Proof.
  repeat split; vm_compute; reflexivity.
Qed.

(** ** Per-class aggregation: [ap_per_class] *)

Lemma insert_unique_In (c x : Z) (l : list Z) :
  In x (insert_unique c l) <-> x = c \/ In x l.
Proof.
  induction l as [|y l IH]; simpl; [intuition congruence|].
  destruct (c <? y)%Z; simpl; [intuition congruence|].
  destruct (c =? y)%Z eqn:E; simpl.
  - apply Z.eqb_eq in E. subst y. intuition congruence.
  - rewrite IH. intuition congruence.
Qed.

Lemma unique_In (x : Z) (l : list Z) : In x (unique l) <-> In x l.
Proof.
  induction l as [|c l IH]; simpl; [tauto|].
  rewrite insert_unique_In, IH. intuition congruence.
Qed.

Lemma count_eq_zero (c : Z) (a : list Z) : count_eq c a = 0%nat <-> ~ In c a.
Proof.
  unfold count_eq. induction a as [|x a IH]; simpl; [tauto|].
  destruct (c =? x)%Z eqn:E; simpl.
  - apply Z.eqb_eq in E. subst x. split; [discriminate | intro H; exfalso; apply H; auto].
  - apply Z.eqb_neq in E. rewrite IH. intuition congruence.
Qed.

Lemma count_true_map (c : Z) (a : list Z) :
  length (filter (fun b : bool => b) (map (Z.eqb c) a)) = count_eq c a.
Proof.
  unfold count_eq. induction a as [|x a IH]; simpl; [reflexivity|].
  destruct (c =? x)%Z; simpl; rewrite IH; reflexivity.
Qed.

(** One pass of the loop body appends the entry of its class. *)
Lemma class_body_entry (tp : list Q) (pred_cls target_cls : list Z) (c : Z) (acc : pr_lists) :
  class_body tp pred_cls target_cls c acc
  = PR (l_ap acc ++ l_ap (class_entry tp pred_cls target_cls c))
       (l_p acc ++ l_p (class_entry tp pred_cls target_cls c))
       (l_r acc ++ l_r (class_entry tp pred_cls target_cls c)).
Proof.
  unfold class_entry, class_body.
  destruct (Nat.eqb _ 0 && Nat.eqb _ 0).
  - simpl. rewrite !app_nil_r. destruct acc; reflexivity.
  - destruct (Nat.eqb _ 0 || Nat.eqb _ 0); reflexivity.
Qed.

(** A class with ground truth always gets exactly one entry, and the entry
    is (0, 0, 0) when the class has no prediction. *)
Lemma class_entry_with_gt (tp : list Q) (pred_cls target_cls : list Z) (c : Z) :
  In c target_cls ->
  exists ap p r,
    class_entry tp pred_cls target_cls c = PR [ap] [p] [r]
    /\ (~ In c pred_cls -> ap = 0 /\ p = 0 /\ r = 0).
Proof.
  intro Hgt. unfold class_entry, class_body.
  rewrite count_true_map.
  assert (Hn : count_eq c target_cls <> 0%nat) by (rewrite count_eq_zero; tauto).
  apply Nat.eqb_neq in Hn. rewrite Hn, andb_false_r, orb_false_r.
  destruct (Nat.eqb (count_eq c pred_cls) 0) eqn:Ep.
  - exists 0, 0, 0. split; [reflexivity | tauto].
  - simpl. do 3 eexists. split; [reflexivity|].
    intro Hp. apply count_eq_zero in Hp. apply Nat.eqb_neq in Ep. contradiction.
Qed.

Lemma class_loop_entries (tp : list Q) (pred_cls target_cls : list Z) (classes : list Z) :
  forall acc,
    let res := fold_left (fun acc c => class_body tp pred_cls target_cls c acc) classes acc in
    l_ap res = l_ap acc ++ flat_map (fun c => l_ap (class_entry tp pred_cls target_cls c)) classes
    /\ l_p res = l_p acc ++ flat_map (fun c => l_p (class_entry tp pred_cls target_cls c)) classes
    /\ l_r res = l_r acc ++ flat_map (fun c => l_r (class_entry tp pred_cls target_cls c)) classes.
Proof.
  induction classes as [|c classes IH]; intro acc; simpl.
  - rewrite !app_nil_r. auto.
  - destruct (IH (class_body tp pred_cls target_cls c acc)) as (Hap & Hp & Hr).
    rewrite Hap, Hp, Hr, class_body_entry. simpl. rewrite <- !app_assoc. auto.
Qed.

(** For classes that all have ground truth, position [i] of each list holds
    the entry of the [i]-th class. *)
Lemma entries_aligned (tp : list Q) (pred_cls target_cls : list Z) (classes : list Z) :
  (forall c, In c classes -> In c target_cls) ->
  let ap := flat_map (fun c => l_ap (class_entry tp pred_cls target_cls c)) classes in
  let p := flat_map (fun c => l_p (class_entry tp pred_cls target_cls c)) classes in
  let r := flat_map (fun c => l_r (class_entry tp pred_cls target_cls c)) classes in
  length ap = length classes /\ length p = length classes /\ length r = length classes
  /\ forall i c, nth_error classes i = Some c -> ~ In c pred_cls ->
       nth_error ap i = Some 0 /\ nth_error p i = Some 0 /\ nth_error r i = Some 0.
Proof.
  induction classes as [|c classes IH]; intro Hgt; simpl.
  - split; [reflexivity|]. split; [reflexivity|]. split; [reflexivity|].
    intros [|i] c H; discriminate.
  - destruct (class_entry_with_gt tp pred_cls target_cls c (Hgt c (or_introl eq_refl)))
      as (ap0 & p0 & r0 & -> & Hzero).
    destruct IH as (Lap & Lp & Lr & Hnth);
      [intros c' Hc'; apply Hgt; right; exact Hc'|].
    simpl. rewrite Lap, Lp, Lr.
    split; [reflexivity|]. split; [reflexivity|]. split; [reflexivity|].
    intros [|i] c' Hc' Hnp; simpl in *.
    + injection Hc' as <-. destruct (Hzero Hnp) as (-> & -> & ->). auto.
    + apply (Hnth i c' Hc' Hnp).
Qed.

(** C4 as stated fails: class 1 has a prediction and no ground truth, and it
    does not appear in the result; the arrays have one entry, for class 0. *)
Lemma predicted_class_without_gt_absent :
  count_eq 1 [1%Z] = 1%nat /\ count_eq 1 [0%Z] = 0%nat
  /\ r_classes (ap_per_class [1] [9 # 10] [1%Z] [0%Z]) = [0%Z]
  /\ r_ap (ap_per_class [1] [9 # 10] [1%Z] [0%Z]) = [0]
  /\ r_p (ap_per_class [1] [9 # 10] [1%Z] [0%Z]) = [0]
  /\ r_r (ap_per_class [1] [9 # 10] [1%Z] [0%Z]) = [0].
Proof.
  repeat split; vm_compute; reflexivity.
Qed.

(** C4, amended: the classes of the result are exactly the classes that have
    ground truth, each with one entry in the AP, precision and recall arrays;
    a class with ground truth and no prediction has AP, precision and recall
    0; a class without ground truth is absent from the result, whether or not
    it has predictions. *)
Theorem ap_per_class_classes (tp conf : list Q) (pred_cls target_cls : list Z) :
  let res := ap_per_class tp conf pred_cls target_cls in
  (forall c, In c (r_classes res) <-> In c target_cls)
  /\ length (r_ap res) = length (r_classes res)
  /\ length (r_p res) = length (r_classes res)
  /\ length (r_r res) = length (r_classes res)
  /\ forall i c,
       nth_error (r_classes res) i = Some c -> ~ In c pred_cls ->
       nth_error (r_ap res) i = Some 0
       /\ nth_error (r_p res) i = Some 0
       /\ nth_error (r_r res) i = Some 0.
Proof.
  intro res. unfold res, ap_per_class. cbn [r_classes r_ap r_p r_r].
  set (tp' := argsort_apply (map Qopp conf) tp).
  set (pc' := argsort_apply (map Qopp conf) pred_cls).
  destruct (class_loop_entries tp' pc' target_cls (unique target_cls) (PR [] [] []))
    as (Hap & Hp & Hr).
  cbv zeta in Hap, Hp, Hr. simpl in Hap, Hp, Hr.
  rewrite Hap, Hp, Hr.
  destruct (entries_aligned tp' pc' target_cls (unique target_cls))
    as (Lap & Lp & Lr & Hnth); [intros c Hc; apply unique_In, Hc|].
  split; [intro c; apply unique_In|].
  split; [exact Lap|]. split; [exact Lp|]. split; [exact Lr|].
  intros i c Hc Hnp. apply (Hnth i c Hc).
  intro Hin. apply Hnp. eapply argsort_apply_In. exact Hin.
Qed.

Lemma ap_per_class_classes_witness :
  nth_error (r_ap (ap_per_class [1] [9 # 10] [1%Z] [0%Z])) 0 = Some 0
  /\ nth_error (r_p (ap_per_class [1] [9 # 10] [1%Z] [0%Z])) 0 = Some 0
  /\ nth_error (r_r (ap_per_class [1] [9 # 10] [1%Z] [0%Z])) 0 = Some 0.
Proof.
  apply (proj2 (proj2 (proj2 (proj2
           (ap_per_class_classes [1] [9 # 10] [1%Z] [0%Z])))) 0%nat 0%Z).
  - vm_compute. reflexivity.
  - simpl. intros [H|[]]. discriminate H.
Defined.

(** ** Target assignment: [build_targets] *)

(** *** The best anchor *)

Lemma max_from_spec (l : list Q) :
  forall best besti i v j,
    max_from best besti i l = (v, j) ->
    best <= v
    /\ (forall x, In x l -> x <= v)
    /\ ((v = best /\ j = besti)
        \/ ((i <= j < i + length l)%nat /\ nth (j - i) l 0 = v)).
Proof.
  induction l as [|x l IH]; intros best besti i v j H; simpl in H.
  - injection H as <- <-. split; [apply Qle_refl|]. split; [intros x []|]. left. auto.
  - destruct (Qlt_bool best x) eqn:E.
    + apply Qlt_bool_true in E.
      destruct (IH _ _ _ _ _ H) as (Hle & Hall & Hpos).
      split; [lra|]. split.
      * intros y [<-|Hy]; [exact Hle | apply Hall, Hy].
      * right. destruct Hpos as [[-> ->]|[Hj Hnth]].
        -- split; [simpl; lia|]. rewrite Nat.sub_diag. reflexivity.
        -- split; [simpl; lia|].
           replace (j - i)%nat with (S (j - S i)) by lia. exact Hnth.
    + apply Qlt_bool_false in E.
      destruct (IH _ _ _ _ _ H) as (Hle & Hall & Hpos).
      split; [exact Hle|]. split.
      * intros y [<-|Hy]; [lra | apply Hall, Hy].
      * destruct Hpos as [Hsame|[Hj Hnth]]; [left; exact Hsame|].
        right. split; [simpl; lia|].
        replace (j - i)%nat with (S (j - S i)) by lia. exact Hnth.
Qed.

Lemma max_with_index_spec (l : list Q) (v : Q) (j : nat) :
  max_with_index l = Some (v, j) ->
  (j < length l)%nat /\ nth j l 0 = v /\ forall x, In x l -> x <= v.
Proof.
  destruct l as [|x l]; simpl; [discriminate|].
  intro H. injection H as H.
  destruct (max_from_spec l _ _ _ _ _ H) as (Hle & Hall & Hpos).
  destruct Hpos as [[-> ->]|[Hj Hnth]].
  - split; [lia|]. split; [reflexivity|].
    intros y [<-|Hy]; [apply Qle_refl | apply Hall, Hy].
  - split; [lia|]. split.
    + destruct j as [|j]; [lia|]. replace (S j - 1)%nat with j in Hnth by lia. exact Hnth.
    + intros y [<-|Hy]; [exact Hle | apply Hall, Hy].
Qed.

Lemma max_with_index_some (l : list Q) :
  l <> [] -> exists m, max_with_index l = Some m.
Proof.
  destruct l as [|x l]; [congruence|]. intros _. eexists. reflexivity.
Qed.

(** [best_anchor] is an anchor of the set, and no anchor has a larger
    size-only IoU with the box. *)
Lemma best_anchor_max (anchors : list (Q * Q)) (wh : Q * Q) :
  anchors <> [] ->
  (best_anchor anchors wh < length anchors)%nat
  /\ forall a, In a anchors ->
       wh_iou_elem a wh <= wh_iou_elem (nth (best_anchor anchors wh) anchors (0, 0)) wh.
Proof.
  intro Hne. unfold best_anchor.
  destruct (max_with_index_some (map (fun anchor => wh_iou_elem anchor wh) anchors))
    as ([v j] & Hm).
  { destruct anchors; [congruence | discriminate]. }
  rewrite Hm. simpl.
  apply max_with_index_spec in Hm as (Hj & Hnth & Hall).
  rewrite length_map in Hj. split; [exact Hj|].
  intros a Ha.
  rewrite (nth_indep _ 0 (wh_iou_elem (0, 0) wh)) in Hnth by (rewrite length_map; exact Hj).
  rewrite (map_nth (fun anchor => wh_iou_elem anchor wh)) in Hnth.
  rewrite Hnth. apply Hall. apply in_map_iff. exists a. auto.
Qed.

(** *** Indexed writes *)

Lemma index_eqb_eq (k k' : index) : index_eqb k k' = true <-> k = k'.
Proof.
  destruct k as [[[b a] j] i], k' as [[[b' a'] j'] i']. unfold index_eqb.
  rewrite !andb_true_iff, !Z.eqb_eq. split.
  - intros [[[-> ->] ->] ->]. reflexivity.
  - intro H. injection H as -> -> -> ->. auto.
Qed.

Lemma upd_same {A : Type} (g : grid A) (k : index) (v : A) : upd g k v k = v.
Proof.
  unfold upd. rewrite (proj2 (index_eqb_eq k k) eq_refl). reflexivity.
Qed.

Lemma upd_other {A : Type} (g : grid A) (k k' : index) (v : A) :
  k <> k' -> upd g k v k' = g k'.
Proof.
  intro H. unfold upd. destruct (index_eqb k k') eqn:E; [|reflexivity].
  apply index_eqb_eq in E. contradiction.
Qed.

Lemma norm_index_in_range (n : nat) (i : Z) :
  (0 <= i < Z.of_nat n)%Z -> norm_index n i = Some i.
Proof.
  intro H. unfold norm_index.
  replace ((0 <=? i)%Z) with true by (symmetry; apply Z.leb_le; lia).
  replace ((i <? Z.of_nat n)%Z) with true by (symmetry; apply Z.ltb_lt; lia).
  reflexivity.
Qed.

Lemma locate_inside (sh : shape) (k : index) : inside sh k -> locate sh k = Some k.
Proof.
  destruct k as [[[b a] j] i]. intros (Hb & Ha & Hj & Hi). unfold locate.
  rewrite !norm_index_in_range by assumption. reflexivity.
Qed.

(** Writes that all fall inside the shape succeed. *)
Lemma index_put_inside {A : Type} (sh : shape) (writes : list (index * A)) :
  forall g,
    (forall w, In w writes -> inside sh (fst w)) ->
    exists g', index_put sh g writes = Done g'.
Proof.
  induction writes as [|[k v] writes IH]; intros g H; simpl.
  - eexists. reflexivity.
  - rewrite (locate_inside sh k) by (apply (H (k, v)); left; reflexivity).
    cbn [of_option bind]. apply IH. intros w Hw. apply H. right. exact Hw.
Qed.

(** A property of the values that holds before the writes and for every
    written value holds afterwards, at every index. *)
Lemma index_put_preserves {A : Type} (P : A -> Prop) (sh : shape)
    (writes : list (index * A)) :
  forall g g',
    index_put sh g writes = Done g' ->
    (forall w, In w writes -> P (snd w)) ->
    forall k, P (g k) -> P (g' k).
Proof.
  induction writes as [|[k0 v0] writes IH]; intros g g' H Hall k Hk; simpl in H.
  - injection H as <-. exact Hk.
  - apply bind_Done in H as (k0' & _ & H).
    apply (IH _ _ H); [intros w Hw; apply Hall; right; exact Hw|].
    unfold upd. destruct (index_eqb k0' k); [|exact Hk].
    apply (Hall (k0, v0)). left. reflexivity.
Qed.

(** The value found at an index is the one written there last. *)
Lemma index_put_last {A : Type} (sh : shape) (before after : list (index * A))
    (k : index) (v : A) :
  forall g g',
    index_put sh g (before ++ (k, v) :: after) = Done g' ->
    inside sh k ->
    (forall w, In w after -> inside sh (fst w) /\ fst w <> k) ->
    g' k = v.
Proof.
  induction before as [|[k0 v0] before IH]; intros g g' H Hk Hafter.
  - simpl in H. rewrite (locate_inside sh k Hk) in H. cbn [of_option bind] in H.
    assert (Hkeep : forall ws (g0 g1 : grid A),
               index_put sh g0 ws = Done g1 ->
               (forall w, In w ws -> inside sh (fst w) /\ fst w <> k) ->
               g1 k = g0 k).
    { induction ws as [|[k1 v1] ws IHws]; intros g0 g1 H0 Hws; simpl in H0.
      - injection H0 as <-. reflexivity.
      - destruct (Hws (k1, v1) (or_introl eq_refl)) as [Hin Hne]. simpl in Hin, Hne.
        rewrite (locate_inside sh k1 Hin) in H0. cbn [of_option bind] in H0.
        rewrite (IHws _ _ H0) by (intros w Hw; apply Hws; right; exact Hw).
        apply upd_other. exact Hne. }
    rewrite (Hkeep _ _ _ H Hafter). apply upd_same.
  - simpl in H. apply bind_Done in H as (k0' & _ & H).
    apply (IH _ _ H Hk Hafter).
Qed.

(** *** From the tensor columns to the ground-truth rows *)

Lemma Qtrunc_floor (q : Q) : 0 <= q -> Qtrunc q = Qfloor q.
Proof.
  destruct q as [n d]. unfold Qle, Qtrunc, Qfloor. simpl. intro H.
  apply Z.quot_div_nonneg; lia.
Qed.

Lemma Qfloor_range (q : Q) (n : Z) :
  0 <= q -> q < inject_Z n -> (0 <= Qfloor q < n)%Z.
Proof.
  intros H0 Hn. split.
  - rewrite <- (Qfloor_Z 0). apply Qfloor_resp_le. exact H0.
  - rewrite Zlt_Qlt. apply Qle_lt_trans with q; [apply Qfloor_le | exact Hn].
Qed.

Lemma raw_cell_primary (sh : shape) (anchors : list (Q * Q)) (t : target_row) :
  in_range sh t -> raw_cell sh anchors t = primary sh anchors t.
Proof.
  intros (_ & _ & Hx0 & _ & Hy0 & _). unfold raw_cell, primary.
  rewrite (Qtrunc_floor _ Hx0), (Qtrunc_floor _ Hy0). reflexivity.
Qed.

Lemma primary_inside (sh : shape) (anchors : list (Q * Q)) (t : target_row) :
  anchors <> [] -> length anchors = nA sh -> in_range sh t ->
  inside sh (primary sh anchors t).
Proof.
  intros Hne Hlen (Hb & _ & Hx0 & Hx1 & Hy0 & Hy1). unfold primary, inside.
  destruct (best_anchor_max anchors (gt_wh sh t) Hne) as [Hn _].
  split; [exact Hb|]. split; [lia|].
  split; apply Qfloor_range; assumption.
Qed.

Lemma zip4_map {T A B C D : Type} (fa : T -> A) (fb : T -> B) (fc : T -> C) (fd : T -> D)
    (l : list T) :
  zip4 (map fa l) (map fb l) (map fc l) (map fd l)
  = map (fun x => (fa x, fb x, fc x, fd x)) l.
Proof.
  induction l as [|x l IH]; simpl; [reflexivity|]. rewrite IH. reflexivity.
Qed.

Lemma combine_map {T A B : Type} (fa : T -> A) (fb : T -> B) (l : list T) :
  combine (map fa l) (map fb l) = map (fun x => (fa x, fb x)) l.
Proof.
  induction l as [|x l IH]; simpl; [reflexivity|]. rewrite IH. reflexivity.
Qed.

Lemma map_nth_seq {A : Type} (d : A) (l : list A) :
  map (fun k => nth k l d) (seq 0 (length l)) = l.
Proof.
  induction l as [|x l IH]; simpl; [reflexivity|].
  rewrite <- seq_shift, map_map. simpl. rewrite IH. reflexivity.
Qed.

(** Row [k] of the transposed IoU matrix holds the IoUs of the anchors with
    ground-truth box [k]. *)
Lemma transpose_ious (anchors gwh : list (Q * Q)) :
  transpose (length gwh) (map (fun anchor => bbox_wh_iou anchor gwh) anchors)
  = map (fun wh => map (fun anchor => wh_iou_elem anchor wh) anchors) gwh.
Proof.
  unfold transpose, bbox_wh_iou.
  transitivity (map (fun wh => map (fun anchor => wh_iou_elem anchor wh) anchors)
                    (map (fun k => nth k gwh (0, 0)) (seq 0 (length gwh))));
    [|rewrite map_nth_seq; reflexivity].
  rewrite map_map.
  apply map_ext_in. intros k Hk. apply in_seq in Hk.
  rewrite map_map. apply map_ext. intro anchor.
  rewrite (nth_indep _ 0 (wh_iou_elem anchor (0, 0))) by (rewrite length_map; lia).
  apply map_nth.
Qed.

Lemma best_columns (anchors gwh : list (Q * Q)) :
  anchors <> [] ->
  exists best,
    map_outcome (fun col => of_option EmptyReduction (max_with_index col))
                (map (fun wh => map (fun anchor => wh_iou_elem anchor wh) anchors) gwh)
    = Done best
    /\ map snd best = map (best_anchor anchors) gwh.
Proof.
  intro Hne. induction gwh as [|wh gwh (best & Hbest & Hsnd)]; simpl.
  - exists []. auto.
  - destruct (max_with_index_some (map (fun anchor => wh_iou_elem anchor wh) anchors))
      as (m & Hm).
    { destruct anchors; [congruence | discriminate]. }
    rewrite Hm, Hbest. cbn [of_option bind].
    exists (m :: best). split; [reflexivity|].
    simpl. rewrite Hsnd. unfold best_anchor at 2. rewrite Hm. reflexivity.
Qed.

(** *** The statements of [build_targets], one by one *)

(** An indexed assignment with one write per ground-truth row succeeds when
    the rows are inside the tensor, and leaves at the index of a row the
    value of that row unless a later row has the same index. *)
Lemma index_put_rows {A : Type} (sh : shape) (key : target_row -> index)
    (val : target_row -> A) (target : list target_row) (g : grid A) :
  (forall t, In t target -> inside sh (key t)) ->
  exists g',
    index_put sh g (map (fun t => (key t, val t)) target) = Done g'
    /\ (forall (P : A -> Prop) k,
           P (g k) -> (forall t, In t target -> P (val t)) -> P (g' k))
    /\ forall i t,
         nth_error target i = Some t ->
         (forall j t', (i < j)%nat -> nth_error target j = Some t' -> key t' <> key t) ->
         g' (key t) = val t.
Proof.
  intro Hin.
  destruct (index_put_inside sh (map (fun t => (key t, val t)) target) g) as (g' & Hg').
  { intros w Hw. apply in_map_iff in Hw as (t & <- & Ht). apply Hin, Ht. }
  exists g'. split; [exact Hg'|]. split.
  - intros P k Hk Hall. apply (index_put_preserves P sh _ g g' Hg'); [|exact Hk].
    intros w Hw. apply in_map_iff in Hw as (t & <- & Ht). apply Hall, Ht.
  - intros i t Hi Hlater.
    destruct (nth_error_split target i Hi) as (before & after & -> & Hlen).
    rewrite map_app in Hg'. simpl in Hg'.
    apply (index_put_last sh _ _ _ _ g g' Hg').
    + apply Hin. apply in_or_app. right. left. reflexivity.
    + intros w Hw. apply in_map_iff in Hw as (t' & <- & Ht'). simpl. split.
      * apply Hin. apply in_or_app. right. right. exact Ht'.
      * destruct (In_nth_error after t' Ht') as (n & Hn).
        apply (Hlater (length before + S n)%nat t'); [lia|].
        rewrite nth_error_app2 by lia.
        replace (length before + S n - length before)%nat with (S n) by lia.
        exact Hn.
Qed.

Lemma select_In {A : Type} (mask : list bool) (l : list A) (x : A) :
  In x (select mask l) -> In x l.
Proof.
  revert l. induction mask as [|m mask IH]; intros [|y l] H; simpl in *; try tauto.
  destruct m; simpl in H; intuition.
Qed.

(** The loop over the anchors above [ignore_thres] succeeds on rows inside
    the tensor and only ever writes 0. *)
Lemma noobj_loop_rows (sh : shape) (ignore_thres : Q) (rows : list (Z * Z * Z * list Q)) :
  forall g,
    (forall b gj gi ious, In (b, gj, gi, ious) rows ->
        length ious = nA sh
        /\ (0 <= b < Z.of_nat (nB sh))%Z
        /\ (0 <= gj < Z.of_nat (nG sh))%Z /\ (0 <= gi < Z.of_nat (nG sh))%Z) ->
    exists g',
      noobj_loop sh ignore_thres g rows = Done g'
      /\ forall k, g k = 0%Z -> g' k = 0%Z.
Proof.
  induction rows as [|[[[b gj] gi] ious] rows IH]; intros g H; simpl.
  - exists g. auto.
  - destruct (H b gj gi ious (or_introl eq_refl)) as (Hlen & Hb & Hgj & Hgi).
    rewrite (proj2 (Nat.eqb_eq _ _) Hlen). cbn [negb].
    set (writes := map (fun a => ((b, Z.of_nat a, gj, gi), 0%Z)) _).
    destruct (index_put_inside sh writes g) as (g1 & Hg1).
    { intros w Hw. unfold writes in Hw.
      apply in_map_iff in Hw as (a & <- & Ha). simpl.
      apply select_In in Ha. apply in_seq in Ha. rewrite length_map in Ha.
      repeat split; try lia. }
    rewrite Hg1. cbn [bind].
    destruct (IH g1) as (g' & Hg' & Hzero).
    { intros b' gj' gi' ious' Hr. apply H. right. exact Hr. }
    exists g'. split; [exact Hg'|].
    intros k Hk. apply Hzero.
    apply (index_put_preserves (fun v => v = 0%Z) sh writes g g1 Hg1); [|exact Hk].
    intros w Hw. unfold writes in Hw. apply in_map_iff in Hw as (a & <- & _). reflexivity.
Qed.

Lemma tcls_put_rows (sh : shape) (writes : list (index * Z)) :
  forall g,
    (forall w, In w writes ->
        inside sh (fst w) /\ (0 <= snd w < Z.of_nat (nC sh))%Z) ->
    exists g', tcls_put sh g writes = Done g'.
Proof.
  induction writes as [|[k label] writes IH]; intros g H; simpl.
  - eexists. reflexivity.
  - destruct (H (k, label) (or_introl eq_refl)) as [Hk Hl]. simpl in Hk, Hl.
    rewrite (locate_inside sh k Hk), (norm_index_in_range _ _ Hl).
    cbn [of_option bind]. apply IH. intros w Hw. apply H. right. exact Hw.
Qed.

Lemma index_get_rows {A : Type} (sh : shape) (g : grid A) (ks : list index) :
  (forall k, In k ks -> inside sh k) -> index_get sh g ks = Done (map g ks).
Proof.
  unfold index_get. induction ks as [|k ks IH]; intro H; simpl; [reflexivity|].
  rewrite (locate_inside sh k) by (apply H; left; reflexivity).
  cbn [of_option bind].
  rewrite IH by (intros k' Hk'; apply H; right; exact Hk'). reflexivity.
Qed.

Lemma argmax_rows (rows : list (list Q)) :
  (forall r, In r rows -> r <> []) ->
  exists m,
    map_outcome (fun row => of_option EmptyReduction (max_with_index row)) rows = Done m.
Proof.
  induction rows as [|r rows IH]; intro H; simpl.
  - eexists. reflexivity.
  - destruct (max_with_index_some r (H r (or_introl eq_refl))) as (m & ->).
    destruct IH as (ms & ->); [intros r' Hr'; apply H; right; exact Hr'|].
    eexists. reflexivity.
Qed.

Lemma index_put_combine {A : Type} (sh : shape) (ks : list index) (vs : list A) (g : grid A) :
  (forall k, In k ks -> inside sh k) ->
  exists g', index_put sh g (combine ks vs) = Done g'.
Proof.
  intro H. apply index_put_inside.
  intros [k v] Hw. apply in_combine_l in Hw. apply H, Hw.
Qed.

Lemma index_put_written {A : Type} (P : A -> Prop) (sh : shape) (k : index)
    (writes : list (index * A)) :
  forall g g',
    index_put sh g writes = Done g' ->
    (forall w, In w writes -> inside sh (fst w) /\ P (snd w)) ->
    (exists w, In w writes /\ fst w = k) ->
    P (g' k).
Proof.
  induction writes as [|[k0 v0] writes IH]; intros g g' H Hall (w & Hw & Hk).
  - destruct Hw.
  - simpl in H.
    destruct (Hall (k0, v0) (or_introl eq_refl)) as [Hin0 Hv0]. simpl in Hin0, Hv0.
    rewrite (locate_inside sh k0 Hin0) in H. cbn [of_option bind] in H.
    destruct Hw as [<-|Hw].
    + simpl in Hk. subst k0.
      apply (index_put_preserves P sh writes _ g' H).
      * intros w Hw. apply Hall. right. exact Hw.
      * rewrite upd_same. exact Hv0.
    + apply (IH _ _ H).
      * intros w' Hw'. apply Hall. right. exact Hw'.
      * exists w. auto.
Qed.

Lemma index_put_rows_written {A : Type} (P : A -> Prop) (sh : shape)
    (key : target_row -> index) (val : target_row -> A) (target : list target_row)
    (g g' : grid A) :
  index_put sh g (map (fun t => (key t, val t)) target) = Done g' ->
  (forall t, In t target -> inside sh (key t)) ->
  (forall t, In t target -> P (val t)) ->
  forall t, In t target -> P (g' (key t)).
Proof.
  intros H Hin Hall t Ht.
  apply (index_put_written P sh (key t) _ g g' H).
  - intros w Hw. apply in_map_iff in Hw as (t' & <- & Ht'). simpl. auto.
  - exists (key t, val t). split; [|reflexivity].
    apply in_map_iff. exists t. auto.
Qed.
(** C2, amended: on a valid input (a non-empty anchor set of size [nA], class
    scores in every cell, ground-truth rows whose image index, label and
    scaled centre lie inside the tensors), for every ground-truth box, at its
    image, at the cell containing its scaled centre (row and column are the
    floors of the scaled centre y and x) and at an anchor of maximal size-only
    IoU with the box, the object mask is 1 and the no-object mask is 0; and
    when no later ground-truth row is assigned to the same image, anchor and
    cell, [tx], [ty] there are the fractional parts of the scaled centre and
    [tw], [th] are the logarithms of (ground-truth size / anchor size + 1e-16),
    separately for width and height. *)
Theorem build_targets_primary (log : Q -> Q) (sh : shape) (pred_boxes : grid box)
    (pred_cls : grid (list Q)) (target : list target_row) (anchors : list (Q * Q))
    (ignore_thres : Q) (i : nat) (t : target_row) :
  anchors <> [] -> length anchors = nA sh ->
  (forall k, pred_cls k <> []) ->
  (forall t', In t' target -> in_range sh t') ->
  nth_error target i = Some t ->
  let g := scale_box sh t in
  let n := best_anchor anchors (gt_wh sh t) in
  let k := primary sh anchors t in
  (n < length anchors)%nat
  /\ (forall a, In a anchors ->
        wh_iou_elem a (gt_wh sh t) <= wh_iou_elem (nth n anchors (0, 0)) (gt_wh sh t))
  /\ exists out,
       build_targets log sh pred_boxes pred_cls target anchors ignore_thres = Done out
       /\ obj_mask out k = 1%Z /\ noobj_mask out k = 0%Z
       /\ ((forall j t', (i < j)%nat -> nth_error target j = Some t' ->
                         primary sh anchors t' <> k) ->
           tx out k = frac (c0 g) /\ ty out k = frac (c1 g)
           /\ tw out k = log (c2 g / fst (nth n anchors (0, 0)) + eps)
           /\ th out k = log (c3 g / snd (nth n anchors (0, 0)) + eps)).
Proof.
  intros Hne Hlen Hcls Hrange Hi g n k.
  destruct (best_anchor_max anchors (gt_wh sh t) Hne) as [Hn Hmax].
  split; [exact Hn|]. split; [exact Hmax|].
  assert (Hin : In t target) by (eapply nth_error_In; exact Hi).
  assert (HnC : nC sh <> 0%nat).
  { destruct (Hrange t Hin) as (_ & Hl & _). lia. }
  assert (Hinside : forall t', In t' target -> inside sh (primary sh anchors t')).
  { intros t' Ht'. apply primary_inside; auto. }
  unfold build_targets.
  replace (match anchors with
           | [] => Raised EmptyStack
           | _ :: _ =>
               Done (map (fun anchor => bbox_wh_iou anchor
                           (map (fun b => (c2 b, c3 b)) (map (scale_box sh) target)))
                         anchors)
           end)
    with (Done (map (fun anchor => bbox_wh_iou anchor
                           (map (fun b => (c2 b, c3 b)) (map (scale_box sh) target)))
                    anchors))
    by (destruct anchors; [congruence | reflexivity]).
  cbn [bind].
  replace (length target)
    with (length (map (fun b => (c2 b, c3 b)) (map (scale_box sh) target)))
    by (rewrite !length_map; reflexivity).
  rewrite transpose_ious.
  destruct (best_columns anchors
              (map (fun b => (c2 b, c3 b)) (map (scale_box sh) target)) Hne)
    as (best & Hbest & Hsnd).
  rewrite Hbest. cbn [bind]. rewrite Hsnd. clear Hbest Hsnd best.
  rewrite !map_map. cbn [fst snd].
  match goal with
  | |- context [index_put sh (fill 0%Z) (map _ ?ab)] =>
      replace ab with (map (primary sh anchors) target)
  end.
  2:{ rewrite zip4_map. apply map_ext_in. intros t' Ht'.
      symmetry. apply (raw_cell_primary sh anchors t' (Hrange t' Ht')). }
  rewrite zip4_map, !zip_with_map, !combine_map, !map_map.
  (* obj_mask[b, best_n, gj, gi] = 1 *)
  destruct (index_put_rows sh (primary sh anchors) (fun _ => 1%Z) target (fill 0%Z) Hinside)
    as (om & Hom & _ & _).
  cbv beta in Hom. rewrite Hom. cbn [bind].
  (* noobj_mask[b, best_n, gj, gi] = 0 *)
  destruct (index_put_rows sh (primary sh anchors) (fun _ => 0%Z) target (fill 1%Z) Hinside)
    as (nm & Hnm & _ & _).
  cbv beta in Hnm. rewrite Hnm. cbn [bind].
  (* the loop over the anchors above ignore_thres *)
  match goal with
  | |- context [noobj_loop sh ignore_thres nm ?rows] =>
      destruct (noobj_loop_rows sh ignore_thres rows nm) as (nm' & Hnm' & Hzero)
  end.
  { intros b gj gi ious Hr. apply in_map_iff in Hr as (t' & Heq & Ht').
    injection Heq as <- <- <- <-.
    destruct (Hrange t' Ht') as (Hb & _ & Hx0 & Hx1 & Hy0 & Hy1).
    rewrite length_map. split; [exact Hlen|]. split; [exact Hb|].
    change (c1 (t_box t') * inject_Z (Z.of_nat (nG sh))) with (c1 (scale_box sh t')).
    change (c0 (t_box t') * inject_Z (Z.of_nat (nG sh))) with (c0 (scale_box sh t')).
    rewrite (Qtrunc_floor _ Hx0), (Qtrunc_floor _ Hy0).
    split; apply Qfloor_range; assumption. }
  rewrite Hnm'. cbn [bind].
  (* tx, ty, tw, th *)
  destruct (index_put_rows sh (primary sh anchors)
              (fun x => c0 (scale_box sh x) - inject_Z (Qfloor (c0 (scale_box sh x))))
              target (fill 0) Hinside) as (tx' & Htx & _ & Htx_last).
  cbv beta in Htx. rewrite Htx. cbn [bind].
  destruct (index_put_rows sh (primary sh anchors)
              (fun x => c1 (scale_box sh x) - inject_Z (Qfloor (c1 (scale_box sh x))))
              target (fill 0) Hinside) as (ty' & Hty & _ & Hty_last).
  cbv beta in Hty. rewrite Hty. cbn [bind].
  destruct (index_put_rows sh (primary sh anchors)
              (fun x => log (c2 (scale_box sh x)
                             / fst (nth (best_anchor anchors
                                           (c2 (scale_box sh x), c3 (scale_box sh x)))
                                        anchors (0, 0)) + eps))
              target (fill 0) Hinside) as (tw' & Htw & _ & Htw_last).
  cbv beta in Htw. rewrite Htw. cbn [bind].
  destruct (index_put_rows sh (primary sh anchors)
              (fun x => log (c3 (scale_box sh x)
                             / snd (nth (best_anchor anchors
                                           (c2 (scale_box sh x), c3 (scale_box sh x)))
                                        anchors (0, 0)) + eps))
              target (fill 0) Hinside) as (th' & Hth & _ & Hth_last).
  cbv beta in Hth. rewrite Hth. cbn [bind].
  (* tcls *)
  match goal with
  | |- context [tcls_put sh ?g0 ?writes] =>
      destruct (tcls_put_rows sh writes g0) as (tcls' & Htcls)
  end.
  { intros w Hw. apply in_map_iff in Hw as (t' & <- & Ht'). simpl.
    split; [apply Hinside, Ht'|]. destruct (Hrange t' Ht') as (_ & Hl & _). exact Hl. }
  rewrite Htcls. cbn [bind].
  (* class_mask and iou_scores *)
  assert (Hkeys : forall k0, In k0 (map (primary sh anchors) target) -> inside sh k0).
  { intros k0 Hk0. apply in_map_iff in Hk0 as (t' & <- & Ht'). apply Hinside, Ht'. }
  rewrite !(index_get_rows sh _ _ Hkeys). cbn [bind].
  rewrite (proj2 (Nat.eqb_neq _ _) HnC).
  destruct (argmax_rows (map pred_cls (map (primary sh anchors) target))) as (am & Ham).
  { intros r Hr. apply in_map_iff in Hr as (k0 & <- & _). apply Hcls. }
  rewrite Ham. cbn [bind].
  match goal with
  | |- context [index_put sh ?g0 (combine ?ks ?vs)] =>
      destruct (index_put_combine sh ks vs g0 Hkeys) as (cm & Hcm)
  end.
  rewrite Hcm. cbn [bind].
  match goal with
  | |- context [index_put sh ?g0 (combine ?ks ?vs)] =>
      destruct (index_put_combine sh ks vs g0 Hkeys) as (ious' & Hious)
  end.
  rewrite Hious. cbn [bind].
  eexists. split; [reflexivity|].
  cbn [obj_mask noobj_mask tx ty tw th].
  split.
  { apply (index_put_rows_written (fun v => v = 1%Z) sh (primary sh anchors)
             (fun _ => 1%Z) target (fill 0%Z) om Hom Hinside); auto. }
  split.
  { apply Hzero.
    apply (index_put_rows_written (fun v => v = 0%Z) sh (primary sh anchors)
             (fun _ => 0%Z) target (fill 1%Z) nm Hnm Hinside); auto. }
  intro Hlater. unfold k, g, n, frac, gt_wh.
  rewrite (Htx_last i t Hi Hlater), (Hty_last i t Hi Hlater),
          (Htw_last i t Hi Hlater), (Hth_last i t Hi Hlater).
  auto.
Qed.

(** C2 as stated fails: two ground-truth boxes of one image share their cell
    and their best anchor; the offset target found there is the fractional
    part 0.4 of the second box, not the 0.2 of the first. *)
Lemma colliding_targets_overwritten :
  nth_error colliding_targets 0 = Some first_colliding
  /\ primary small_shape three_anchors first_colliding = (0, 1, 1, 1)%Z
  /\ frac (c0 (scale_box small_shape first_colliding)) == 1 # 5
  /\ exists v,
       tx_at (build_targets (fun q => q) small_shape (fill (Box 0 0 0 0)) (fill flat_scores)
                            colliding_targets three_anchors (1 # 2))
             (primary small_shape three_anchors first_colliding)
       = Some v
       /\ v == 2 # 5
       /\ ~ v == frac (c0 (scale_box small_shape first_colliding)).
Proof.
  split; [reflexivity|]. split; [reflexivity|]. split; [reflexivity|].
  eexists. split; [vm_compute; reflexivity|].
  split; [reflexivity | vm_compute; discriminate].
Qed.

Lemma single_target_in_range : forall t', In t' single_target -> in_range small_shape t'.
Proof.
  intros t' [<-|[]]. unfold in_range. repeat split; vm_compute; congruence.
Qed.

Lemma build_targets_primary_witness :
  exists out,
    build_targets (fun q => q) small_shape (fill (Box 0 0 0 0)) (fill flat_scores)
                  single_target three_anchors (1 # 2)
    = Done out
    /\ obj_mask out (0, 1, 2, 2)%Z = 1%Z
    /\ noobj_mask out (0, 1, 2, 2)%Z = 0%Z
    /\ tx out (0, 1, 2, 2)%Z == 1 # 2
    /\ ty out (0, 1, 2, 2)%Z == 1 # 2
    /\ tw out (0, 1, 2, 2)%Z == 1 + eps
    /\ th out (0, 1, 2, 2)%Z == 1 + eps.
Proof.
  destruct (build_targets_primary (fun q => q) small_shape (fill (Box 0 0 0 0))
              (fill flat_scores) single_target three_anchors (1 # 2) 0%nat centred_target)
    as (_ & _ & out & Hout & Hobj & Hnoobj & Hreg).
  - discriminate.
  - reflexivity.
  - intros k. discriminate.
  - exact single_target_in_range.
  - reflexivity.
  - destruct Hreg as (Htx & Hty & Htw & Hth).
    + intros [|[|j]] t' Hj Ht'; simpl in Ht'; try discriminate. lia.
    + assert (Hk : primary small_shape three_anchors centred_target = (0, 1, 2, 2)%Z)
        by reflexivity.
      rewrite Hk in Hobj, Hnoobj, Htx, Hty, Htw, Hth.
      exists out. split; [exact Hout|].
      split; [exact Hobj|]. split; [exact Hnoobj|].
      split; [rewrite Htx; vm_compute; reflexivity|].
      split; [rewrite Hty; vm_compute; reflexivity|].
      split; [rewrite Htw | rewrite Hth]; vm_compute; reflexivity.
Defined.

(** * Further properties of the code *)

(** ** [bbox_iou], [xywh2xyxy] *)

Lemma iou_elem_as_corners (x1y1x2y2 : bool) (a b : box) :
  iou_elem x1y1x2y2 a b = iou_elem true (as_corners x1y1x2y2 a) (as_corners x1y1x2y2 b).
Proof. destruct x1y1x2y2; reflexivity. Qed.

Lemma iou_elem_quotient (a b : box) :
  iou_elem true a b
  = iou_quotient (clamp_min (Qmin (c2 a) (c2 b) - Qmax (c0 a) (c0 b) + 1) 0)
                 (clamp_min (Qmin (c3 a) (c3 b) - Qmax (c1 a) (c1 b) + 1) 0)
                 (spec_area a) (spec_area b).
Proof. reflexivity. Qed.

Lemma iou_quotient_compat (w h a1 a2 w' h' a1' a2' : Q) :
  w == w' -> h == h' -> a1 == a1' -> a2 == a2' ->
  iou_quotient w h a1 a2 == iou_quotient w' h' a1' a2'.
Proof.
  intros Hw Hh H1 H2. unfold iou_quotient. rewrite Hw, Hh, H1, H2. reflexivity.
Qed.

Lemma clamp_min_compat (x y : Q) : x == y -> clamp_min x 0 == clamp_min y 0.
Proof.
  intro H. rewrite !clamp_min_zero. rewrite H. reflexivity.
Qed.

Lemma clamp_min_of_nonneg (x : Q) : 0 <= x -> clamp_min x 0 = x.
Proof.
  intro H. unfold clamp_min.
  destruct (Qlt_bool x 0) eqn:E; [|reflexivity].
  apply Qlt_bool_true in E. lra.
Qed.

(** X1: the IoU does not depend on the order of its two arguments, in either
    coordinate convention. *)
Theorem bbox_iou_symmetric (a b : box) (x1y1x2y2 : bool) :
  exists p q,
    bbox_iou [a] [b] x1y1x2y2 = [p] /\ bbox_iou [b] [a] x1y1x2y2 = [q] /\ p == q.
Proof.
  exists (iou_elem x1y1x2y2 a b), (iou_elem x1y1x2y2 b a).
  split; [reflexivity|]. split; [reflexivity|].
  rewrite (iou_elem_as_corners x1y1x2y2 a b), (iou_elem_as_corners x1y1x2y2 b a).
  rewrite !iou_elem_quotient.
  generalize (as_corners x1y1x2y2 a) (as_corners x1y1x2y2 b). clear a b.
  intros a b. unfold iou_quotient.
  assert (Hw : clamp_min (Qmin (c2 a) (c2 b) - Qmax (c0 a) (c0 b) + 1) 0
               == clamp_min (Qmin (c2 b) (c2 a) - Qmax (c0 b) (c0 a) + 1) 0).
  { apply clamp_min_compat. rewrite (Q.min_comm (c2 a)), (Q.max_comm (c0 a)). reflexivity. }
  assert (Hh : clamp_min (Qmin (c3 a) (c3 b) - Qmax (c1 a) (c1 b) + 1) 0
               == clamp_min (Qmin (c3 b) (c3 a) - Qmax (c1 b) (c1 a) + 1) 0).
  { apply clamp_min_compat. rewrite (Q.min_comm (c3 a)), (Q.max_comm (c1 a)). reflexivity. }
  rewrite Hw, Hh. unfold Qdiv.
  apply Qmult_comp; [reflexivity|]. apply Qinv_comp. ring.
Qed.

Lemma overlap_le_extent_r (lo1 hi1 lo2 hi2 : Q) :
  lo2 <= hi2 ->
  clamp_min (Qmin hi1 hi2 - Qmax lo1 lo2 + 1) 0 <= hi2 - lo2 + 1.
Proof.
  intro H. apply clamp_min_le; [|lra].
  pose proof (Q.le_min_r hi1 hi2). pose proof (Q.le_max_r lo1 lo2). lra.
Qed.

(** X2: for well-formed corner-form boxes the IoU lies in [0, 1]: the
    intersection is not negative and never exceeds the divisor.  (In exact
    arithmetic the value stays below 1, because of the epsilon in the
    divisor; in floating point identical boxes reach 1, the epsilon being
    absorbed.) *)
Theorem bbox_iou_range (a b : box) :
  well_formed a -> well_formed b ->
  exists iou, bbox_iou [a] [b] true = [iou] /\ 0 <= iou /\ iou <= 1.
Proof.
  intros Ha Hb. exists (iou_elem true a b). split; [reflexivity|].
  pose proof (union_pos a b Ha Hb) as Hpos.
  rewrite iou_elem_corner.
  destruct Ha as [Hax Hay], Hb as [Hbx Hby].
  pose proof (overlap_le_extent (c0 a) (c2 a) (c0 b) (c2 b) Hax) as Hw.
  pose proof (overlap_le_extent (c1 a) (c3 a) (c1 b) (c3 b) Hay) as Hh.
  pose proof (overlap_le_extent_r (c0 a) (c2 a) (c0 b) (c2 b) Hbx) as Hw'.
  pose proof (overlap_le_extent_r (c1 a) (c3 a) (c1 b) (c3 b) Hby) as Hh'.
  pose proof (clamp_min_nonneg (Qmin (c2 a) (c2 b) - Qmax (c0 a) (c0 b) + 1)) as Hw0.
  pose proof (clamp_min_nonneg (Qmin (c3 a) (c3 b) - Qmax (c1 a) (c1 b) + 1)) as Hh0.
  pose proof eps_pos as He.
  unfold spec_area in *.
  set (w := clamp_min (Qmin (c2 a) (c2 b) - Qmax (c0 a) (c0 b) + 1) 0) in *.
  set (h := clamp_min (Qmin (c3 a) (c3 b) - Qmax (c1 a) (c1 b) + 1) 0) in *.
  split.
  - apply Qle_shift_div_l; [exact Hpos|]. nra.
  - apply Qle_shift_div_r; [exact Hpos|]. nra.
Qed.

Lemma bbox_iou_range_witness :
  exists iou, bbox_iou [box_a] [box_c] true = [iou] /\ 0 <= iou /\ iou <= 1.
Proof.
  apply (bbox_iou_range box_a box_c); split; vm_compute; discriminate.
Defined.

Lemma self_overlap (lo hi : Q) :
  lo <= hi -> clamp_min (Qmin hi hi - Qmax lo lo + 1) 0 == hi - lo + 1.
Proof.
  intro H. rewrite clamp_min_zero, Q.min_id, Q.max_id. apply Q.max_l. lra.
Qed.

Lemma self_iou (a : box) :
  well_formed a ->
  iou_elem true a a == spec_area a / (spec_area a + eps) /\ 1 <= spec_area a.
Proof.
  intros [Hx Hy]. split.
  - rewrite iou_elem_quotient. unfold iou_quotient.
    rewrite (self_overlap _ _ Hx), (self_overlap _ _ Hy).
    fold (spec_area a). unfold Qdiv.
    apply Qmult_comp; [reflexivity|]. apply Qinv_comp. ring.
  - unfold spec_area. nra.
Qed.

Lemma self_iou_above (a : box) (t : Q) :
  well_formed a -> t * (1 + eps) < 1 -> t < iou_elem true a a.
Proof.
  intros Ha Ht. destruct (self_iou a Ha) as [-> Harea].
  pose proof eps_pos as He.
  apply Qlt_shift_div_l; [lra|].
  destruct (Qlt_le_dec t 0) as [Hneg|Hpos]; nra.
Qed.

(** X3: the IoU of a well-formed corner-form box with itself is
    [area / (area + 1e-16)], with [area >= 1]; it exceeds every threshold [t]
    with [t * (1 + 1e-16) < 1]. *)
Theorem bbox_iou_self (a : box) :
  well_formed a ->
  exists iou,
    bbox_iou [a] [a] true = [iou]
    /\ iou == spec_area a / (spec_area a + eps)
    /\ 1 <= spec_area a
    /\ forall t, t * (1 + eps) < 1 -> t < iou.
Proof.
  intro Ha. exists (iou_elem true a a). split; [reflexivity|].
  destruct (self_iou a Ha) as [Hiou Harea].
  split; [exact Hiou|]. split; [exact Harea|].
  intros t Ht. apply self_iou_above; assumption.
Qed.

Lemma bbox_iou_self_witness :
  exists iou,
    bbox_iou [box_c] [box_c] true = [iou]
    /\ iou == spec_area box_c / (spec_area box_c + eps)
    /\ 1 <= spec_area box_c
    /\ forall t, t * (1 + eps) < 1 -> t < iou.
Proof.
  apply (bbox_iou_self box_c). split; vm_compute; discriminate.
Defined.

Lemma overlap_translate (lo1 hi1 lo2 hi2 d : Q) :
  clamp_min (Qmin (hi1 + d) (hi2 + d) - Qmax (lo1 + d) (lo2 + d) + 1) 0
  == clamp_min (Qmin hi1 hi2 - Qmax lo1 lo2 + 1) 0.
Proof.
  apply clamp_min_compat.
  rewrite Q.plus_min_distr_r, Q.plus_max_distr_r. ring.
Qed.

(** Moving both corner-form boxes by the same offset leaves their IoU
    unchanged. *)
Theorem bbox_iou_translate (a b : box) (dx dy : Q) :
  exists p q,
    bbox_iou [translate dx dy a] [translate dx dy b] true = [p]
    /\ bbox_iou [a] [b] true = [q]
    /\ p == q.
Proof.
  exists (iou_elem true (translate dx dy a) (translate dx dy b)), (iou_elem true a b).
  split; [reflexivity|]. split; [reflexivity|].
  rewrite !iou_elem_quotient. apply iou_quotient_compat.
  - apply overlap_translate.
  - apply overlap_translate.
  - unfold spec_area, translate. simpl. ring.
  - unfold spec_area, translate. simpl. ring.
Qed.





Lemma broadcast2_map {A B C : Type} (g : B -> B -> C) (h : A -> B) (l1 l2 : list A) :
  broadcast2 (fun a b => g (h a) (h b)) l1 l2 = broadcast2 g (map h l1) (map h l2).
Proof.
  assert (Hzip : forall l l', zip_with (fun a b => g (h a) (h b)) l l'
                              = zip_with g (map h l) (map h l')).
  { induction l as [|a l IH]; intros [|b l']; simpl; try reflexivity.
    rewrite IH. reflexivity. }
  unfold broadcast2.
  destruct l1 as [|a [|a' l1]]; destruct l2 as [|b [|b' l2]];
    simpl; rewrite ?map_map, ?Hzip; reflexivity.
Qed.

(** In the centre-size convention, [bbox_iou] returns what the corner
    convention returns on the boxes converted by [xywh2xyxy], entry by entry
    and for every broadcast shape. *)
Theorem bbox_iou_center_size (box1 box2 : list box) :
  bbox_iou box1 box2 false
  = bbox_iou (map xywh2xyxy box1) (map xywh2xyxy box2) true.
Proof.
  unfold bbox_iou.
  rewrite <- (broadcast2_map (iou_elem true) xywh2xyxy).
  reflexivity.
Qed.

(** ** [bbox_wh_iou] and the choice of the anchor *)

Lemma Qdiv_lt_div (a b c d : Q) :
  0 < b -> 0 < d -> a * d < c * b -> a / b < c / d.
Proof.
  intros Hb Hd H. apply Qlt_shift_div_r; [exact Hb|].
  setoid_replace (c / d * b) with (c * b / d) by (field; lra).
  apply Qlt_shift_div_l; assumption.
Qed.

Lemma Qdiv_le_div (a b c d : Q) :
  0 < b -> 0 < d -> a * d <= c * b -> a / b <= c / d.
Proof.
  intros Hb Hd H. apply Qle_shift_div_r; [exact Hb|].
  setoid_replace (c / d * b) with (c * b / d) by (field; lra).
  apply Qle_shift_div_l; assumption.
Qed.

Lemma wh_iou_elem_unfold (a b : Q * Q) :
  wh_iou_elem a b
  = Qmin (fst a) (fst b) * Qmin (snd a) (snd b)
    / (fst a * snd a + eps + fst b * snd b - Qmin (fst a) (fst b) * Qmin (snd a) (snd b)).
Proof. destruct a, b. reflexivity. Qed.

(** Facts about the two minima that enter the size-only IoU. *)
Lemma min_facts (x y : Q) :
  0 < x -> 0 < y ->
  0 < Qmin x y /\ Qmin x y <= x /\ Qmin x y <= y
  /\ (~ x == y -> Qmin x y < x \/ Qmin x y < y).
Proof.
  intros Hx Hy.
  pose proof (Q.le_min_l x y). pose proof (Q.le_min_r x y).
  destruct (Q.min_spec x y) as [[Hlt Heq]|[Hle Heq]].
  - repeat split; try assumption; [rewrite Heq; exact Hx|].
    intros _. right. rewrite Heq. exact Hlt.
  - repeat split; try assumption; [rewrite Heq; exact Hy|].
    intro Hne. left. rewrite Heq.
    destruct (Qlt_le_dec y x) as [Hlt|Hge]; [exact Hlt|].
    exfalso. apply Hne. apply Qle_antisym; assumption.
Qed.

(** The size-only IoU with a box never exceeds the value an anchor of the
    box's own size has, and stays below it for an anchor of another size. *)
Lemma wh_iou_le_exact (a b : Q * Q) :
  positive_size a -> positive_size b ->
  wh_iou_elem a b <= size_area b / (size_area b + eps)
  /\ (~ same_size a b -> wh_iou_elem a b < size_area b / (size_area b + eps)).
Proof.
  intros [Ha1 Ha2] [Hb1 Hb2]. rewrite wh_iou_elem_unfold. unfold size_area, same_size.
  destruct (min_facts (fst a) (fst b) Ha1 Hb1) as (Hm1 & Hm1a & Hm1b & Hne1).
  destruct (min_facts (snd a) (snd b) Ha2 Hb2) as (Hm2 & Hm2a & Hm2b & Hne2).
  pose proof eps_pos as He.
  set (m1 := Qmin (fst a) (fst b)) in *. set (m2 := Qmin (snd a) (snd b)) in *.
  assert (Hu : 0 < fst a * snd a + eps + fst b * snd b - m1 * m2) by nra.
  assert (Hd : 0 < fst b * snd b + eps) by nra.
  assert (HI0 : 0 < m1 * m2) by nra.
  assert (HIA : m1 * m2 <= fst a * snd a) by nra.
  assert (HIB : m1 * m2 <= fst b * snd b) by nra.
  assert (Hstrict : ~ (fst a == fst b /\ snd a == snd b) ->
                    m1 * m2 < fst a * snd a \/ m1 * m2 < fst b * snd b).
  { intro Hdiff.
    assert (Hcase : m1 < fst a \/ m1 < fst b \/ m2 < snd a \/ m2 < snd b).
    { destruct (Qeq_dec (fst a) (fst b)) as [E1|N1].
      - destruct (Qeq_dec (snd a) (snd b)) as [E2|N2]; [exfalso; apply Hdiff; auto|].
        destruct (Hne2 N2); auto.
      - destruct (Hne1 N1); auto. }
    destruct Hcase as [Hc|[Hc|[Hc|Hc]]]; [left | right | left | right]; nra. }
  set (I := m1 * m2) in *. set (A := fst a * snd a) in *. set (B := fst b * snd b) in *.
  split.
  - apply Qdiv_le_div; [exact Hu | exact Hd |]. nra.
  - intro Hdiff. apply Qdiv_lt_div; [exact Hu | exact Hd |].
    destruct (Hstrict Hdiff); nra.
Qed.

Lemma wh_iou_exact (a b : Q * Q) :
  positive_size b -> same_size a b ->
  wh_iou_elem a b == size_area b / (size_area b + eps).
Proof.
  intros [Hb1 Hb2] [E1 E2]. rewrite wh_iou_elem_unfold. unfold size_area.
  rewrite E1, E2, !Q.min_id. unfold Qdiv.
  apply Qmult_comp; [reflexivity|]. apply Qinv_comp. ring.
Qed.

Lemma wh_iou_unit (a b : Q * Q) :
  nonneg_size a -> nonneg_size b ->
  0 <= wh_iou_elem a b /\ wh_iou_elem a b <= 1.
Proof.
  intros [Ha1 Ha2] [Hb1 Hb2]. rewrite wh_iou_elem_unfold.
  pose proof (Q.le_min_l (fst a) (fst b)) as H1a.
  pose proof (Q.le_min_r (fst a) (fst b)) as H1b.
  pose proof (Q.le_min_l (snd a) (snd b)) as H2a.
  pose proof (Q.le_min_r (snd a) (snd b)) as H2b.
  assert (Hm1 : 0 <= Qmin (fst a) (fst b)) by (apply Q.min_glb; assumption).
  assert (Hm2 : 0 <= Qmin (snd a) (snd b)) by (apply Q.min_glb; assumption).
  pose proof eps_pos as He.
  set (m1 := Qmin (fst a) (fst b)) in *. set (m2 := Qmin (snd a) (snd b)) in *.
  assert (HIA : m1 * m2 <= fst a * snd a) by nra.
  assert (HIB : m1 * m2 <= fst b * snd b) by nra.
  assert (HI0 : 0 <= m1 * m2) by nra.
  assert (Hu : 0 < fst a * snd a + eps + fst b * snd b - m1 * m2) by lra.
  split.
  - apply Qle_shift_div_l; [exact Hu|]. lra.
  - apply Qle_shift_div_r; [exact Hu|]. lra.
Qed.

(** X6: [bbox_wh_iou] returns one value per row of [wh2], and for widths
    and heights that are not negative every value lies in [0, 1]: the
    intersection never exceeds the divisor, which is at least the epsilon.
    (An anchor of exactly the size of the box gives a value below 1 in exact
    arithmetic, and 1 in floating point once the epsilon is absorbed.) *)
Theorem bbox_wh_iou_range (wh1 : Q * Q) (wh2 : list (Q * Q)) :
  nonneg_size wh1 -> (forall wh, In wh wh2 -> nonneg_size wh) ->
  length (bbox_wh_iou wh1 wh2) = length wh2
  /\ forall iou, In iou (bbox_wh_iou wh1 wh2) -> 0 <= iou /\ iou <= 1.
Proof.
  intros H1 H2. unfold bbox_wh_iou. split; [apply length_map|].
  intros iou Hin. apply in_map_iff in Hin as (wh & <- & Hwh).
  apply wh_iou_unit; [exact H1 | apply H2, Hwh].
Qed.

Lemma bbox_wh_iou_range_witness :
  length (bbox_wh_iou (2, 2) [(1, 1); (3, 0)]) = 2%nat
  /\ forall iou, In iou (bbox_wh_iou (2, 2) [(1, 1); (3, 0)]) -> 0 <= iou /\ iou <= 1.
Proof.
  apply (bbox_wh_iou_range (2, 2) [(1, 1); (3, 0)]).
  - split; vm_compute; discriminate.
  - intros wh [<-|[<-|[]]]; split; vm_compute; discriminate.
Defined.

(** X7: when the anchors have positive sizes and pairwise different sizes,
    a box whose size is exactly that of anchor [n] has anchor [n] as its
    best anchor. *)
Theorem best_anchor_exact_size (anchors : list (Q * Q)) (wh : Q * Q) (n : nat) :
  (forall a, In a anchors -> positive_size a) ->
  (n < length anchors)%nat ->
  same_size (nth n anchors (0, 0)) wh ->
  (forall j, (j < length anchors)%nat -> j <> n ->
             ~ same_size (nth j anchors (0, 0)) (nth n anchors (0, 0))) ->
  best_anchor anchors wh = n.
Proof.
  intros Hpos Hn Hsame Hdiff.
  assert (Hwh : positive_size wh).
  { destruct (Hpos _ (nth_In anchors (0, 0) Hn)) as [P1 P2].
    destruct Hsame as [E1 E2]. split; [rewrite <- E1 | rewrite <- E2]; assumption. }
  unfold best_anchor.
  destruct (max_with_index_some (map (fun anchor => wh_iou_elem anchor wh) anchors))
    as ([v j] & Hm).
  { destruct anchors; [simpl in Hn; lia | discriminate]. }
  rewrite Hm. simpl.
  apply max_with_index_spec in Hm as (Hj & Hnth & Hall).
  rewrite length_map in Hj.
  rewrite (nth_indep _ 0 (wh_iou_elem (0, 0) wh)) in Hnth by (rewrite length_map; exact Hj).
  rewrite (map_nth (fun anchor => wh_iou_elem anchor wh)) in Hnth.
  destruct (Nat.eq_dec j n) as [E|Hne]; [exact E|exfalso].
  assert (Hle : wh_iou_elem (nth n anchors (0, 0)) wh <= v).
  { apply Hall. apply in_map_iff. exists (nth n anchors (0, 0)).
    split; [reflexivity | apply nth_In; exact Hn]. }
  rewrite (wh_iou_exact _ _ Hwh Hsame) in Hle.
  assert (Hlt : v < size_area wh / (size_area wh + eps)).
  { rewrite <- Hnth.
    apply (wh_iou_le_exact (nth j anchors (0, 0)) wh);
      [apply Hpos, nth_In; exact Hj | exact Hwh |].
    intros [E1 E2]. apply (Hdiff j Hj Hne).
    destruct Hsame as [S1 S2]. split; [rewrite E1, S1 | rewrite E2, S2]; reflexivity. }
  lra.
Qed.

Lemma best_anchor_exact_size_witness : best_anchor three_anchors (2, 2) = 1%nat.
Proof.
  apply (best_anchor_exact_size three_anchors (2, 2) 1).
  - intros a [<-|[<-|[<-|[]]]]; split; reflexivity.
  - simpl. lia.
  - split; reflexivity.
  - intros [|[|[|j]]] Hj Hne [E1 E2]; simpl in *; try lia; discriminate.
Defined.

(** ** [compute_ap] *)

Lemma Qmax_case (x y : Q) : Qmax x y = x \/ Qmax x y = y.
Proof.
  unfold Qmax, GenericMinMax.gmax. destruct (x ?= y); auto.
Qed.

(** Loop invariant of the envelope loop against the array [m0] it started
    from: from index [i] on the current array holds the suffix maxima of
    [m0], below [i] it still holds [m0]. *)
Lemma envelope_from_suffix_max (m0 : list Q) (i : nat) :
  forall cur,
    length cur = length m0 -> (i < length m0)%nat ->
    (forall k, (i <= k < length m0)%nat -> suffix_max m0 k (nth k cur 0)) ->
    (forall k, (k < i)%nat -> nth k cur 0 = nth k m0 0) ->
    forall k, (k < length m0)%nat -> suffix_max m0 k (nth k (envelope_from i cur) 0).
Proof.
  induction i as [|j IH]; intros cur Hlen Hi Hdone Htodo k Hk; simpl.
  - apply Hdone. lia.
  - apply IH; try lia.
    + rewrite length_set_nth. exact Hlen.
    + intros k' Hk'. destruct (Nat.eq_dec j k') as [<-|Hne].
      * rewrite nth_set_nth_eq by lia.
        destruct (Hdone (S j)) as [Hub (j' & Hj' & Hval)]; [lia|].
        rewrite (Htodo j) by lia.
        split.
        -- intros j0 Hj0. destruct (Nat.eq_dec j0 j) as [->|Hne0].
           ++ apply Q.le_max_l.
           ++ apply Qle_trans with (nth (S j) cur 0); [apply Hub; lia | apply Q.le_max_r].
        -- destruct (Qmax_case (nth j m0 0) (nth (S j) cur 0)) as [E|E]; rewrite E.
           ++ exists j. split; [lia | reflexivity].
           ++ exists j'. split; [lia | exact Hval].
      * rewrite nth_set_nth_ne by exact Hne. apply Hdone. lia.
    + intros k' Hk'. rewrite nth_set_nth_ne by lia. apply Htodo. lia.
Qed.

Lemma precision_envelope_is_suffix_max (precision : list Q) (k : nat) :
  (k < length (padded_precision precision))%nat ->
  suffix_max (padded_precision precision) k (nth k (precision_envelope precision) 0).
Proof.
  intro Hk. unfold precision_envelope.
  change ([0] ++ precision ++ [0]) with (padded_precision precision).
  assert (Hlen : (0 < length (padded_precision precision))%nat) by lia.
  apply envelope_from_suffix_max; try lia.
  - intros k' Hk'.
    replace k' with (length (padded_precision precision) - 1)%nat by lia.
    split.
    + intros j Hj. replace j with (length (padded_precision precision) - 1)%nat by lia.
      apply Qle_refl.
    + exists (length (padded_precision precision) - 1)%nat. split; [lia | reflexivity].
  - intros. reflexivity.
Qed.

(** X8: every entry of the precision envelope is the largest value of the
    padded precision array from that index on: it bounds all of them and is
    one of them. *)
Theorem precision_envelope_suffix_max (precision : list Q) (k : nat) :
  (k < length precision + 2)%nat ->
  (forall j, (k <= j < length precision + 2)%nat ->
             nth j (padded_precision precision) 0
             <= nth k (precision_envelope precision) 0)
  /\ exists j, (k <= j < length precision + 2)%nat
               /\ nth k (precision_envelope precision) 0
                  = nth j (padded_precision precision) 0.
Proof.
  intro Hk.
  assert (Hlen : length (padded_precision precision) = (length precision + 2)%nat).
  { unfold padded_precision. simpl. rewrite length_app. simpl. lia. }
  destruct (precision_envelope_is_suffix_max precision k) as [Hub Hex]; [lia|].
  rewrite Hlen in Hub, Hex. split; assumption.
Qed.

Lemma precision_envelope_suffix_max_witness :
  nth 2 (padded_precision [1; 1 # 2; 2 # 3]) 0
  <= nth 1 (precision_envelope [1; 1 # 2; 2 # 3]) 0.
Proof.
  apply (proj1 (precision_envelope_suffix_max [1; 1 # 2; 2 # 3] 1 ltac:(simpl; lia)) 2%nat).
  simpl. lia.
Defined.

(** *** Sums *)

Lemma qsum_from (l : list Q) : forall a, fold_left Qplus l a == a + qsum l.
Proof.
  unfold qsum. induction l as [|x l IH]; intro a; simpl.
  - ring.
  - rewrite (IH (a + x)), (IH (0 + x)). ring.
Qed.

Lemma qsum_cons (x : Q) (l : list Q) : qsum (x :: l) == x + qsum l.
Proof.
  unfold qsum at 1. simpl. rewrite qsum_from. ring.
Qed.

Lemma qsum_app (l1 l2 : list Q) : qsum (l1 ++ l2) == qsum l1 + qsum l2.
Proof.
  induction l1 as [|x l1 IH]; simpl.
  - unfold qsum at 2. simpl. ring.
  - rewrite !qsum_cons, IH. ring.
Qed.

Lemma qsum_map_le {A : Type} (f g : A -> Q) (l : list A) :
  (forall x, In x l -> f x <= g x) -> qsum (map f l) <= qsum (map g l).
Proof.
  induction l as [|x l IH]; intro H; simpl; [apply Qle_refl|].
  rewrite !qsum_cons.
  apply Qplus_le_compat; [apply H; left; reflexivity|].
  apply IH. intros y Hy. apply H. right. exact Hy.
Qed.

Lemma qsum_map_eq {A : Type} (f g : A -> Q) (l : list A) :
  (forall x, In x l -> f x == g x) -> qsum (map f l) == qsum (map g l).
Proof.
  intro H. apply Qle_antisym; apply qsum_map_le; intros x Hx; rewrite (H x Hx); apply Qle_refl.
Qed.

Lemma qsum_map_zero {A : Type} (l : list A) : qsum (map (fun _ => 0) l) == 0.
Proof.
  induction l as [|x l IH]; simpl; [reflexivity|]. rewrite qsum_cons, IH. ring.
Qed.

(** A sum of consecutive differences collapses to the difference of its
    ends. *)
Lemma qsum_telescope (f : nat -> Q) (m : nat) :
  qsum (map (fun k => f (S k) - f k) (seq 0 m)) == f m - f O.
Proof.
  induction m as [|m IH]; [simpl; unfold qsum; simpl; ring|].
  rewrite seq_S, map_app, qsum_app, IH. simpl. rewrite qsum_cons.
  unfold qsum. simpl. ring.
Qed.

(** Summing over the indices where two arrays differ, or over all indices,
    gives the same result when the summand vanishes where they agree. *)
Lemma where_ne_sum (g : nat -> Q) (a : list Q) :
  forall b i,
    length a = length b ->
    (forall idx, (idx < length a)%nat -> nth idx a 0 == nth idx b 0 -> g (i + idx)%nat == 0) ->
    qsum (map g (where_ne i a b)) == qsum (map g (seq i (length a))).
Proof.
  induction a as [|x a IH]; intros [|y b] i Hlen Hz; simpl in *; try discriminate.
  - reflexivity.
  - assert (Hrest : qsum (map g (where_ne (S i) a b)) == qsum (map g (seq (S i) (length a)))).
    { apply IH; [lia|]. intros idx Hidx Heq.
      replace (S i + idx)%nat with (i + S idx)%nat by lia.
      apply (Hz (S idx)); [lia | exact Heq]. }
    destruct (Qeq_bool x y) eqn:E.
    + rewrite Hrest, qsum_cons.
      apply Qeq_bool_iff in E.
      pose proof (Hz O ltac:(lia) E) as H0. rewrite Nat.add_0_r in H0.
      rewrite H0. ring.
    + simpl. rewrite !qsum_cons, Hrest. reflexivity.
Qed.

Lemma padded_recall_nth (recall : list Q) :
  length (padded_recall recall) = (length recall + 2)%nat
  /\ nth O (padded_recall recall) 0 = 0
  /\ nth (S (length recall)) (padded_recall recall) 0 = 1
  /\ nth (length recall) (padded_recall recall) 0 = last recall 0
  /\ forall k, (k < length recall)%nat ->
               nth (S k) (padded_recall recall) 0 = nth k recall 0.
Proof.
  unfold padded_recall. simpl. rewrite length_app. simpl.
  split; [lia|]. split; [reflexivity|]. split.
  { rewrite app_nth2 by lia. rewrite Nat.sub_diag. reflexivity. }
  split.
  - destruct recall as [|x recall] using rev_ind; [reflexivity|].
    rewrite last_last, length_app. simpl.
    replace (length recall + 1)%nat with (S (length recall)) by lia.
    rewrite app_nth1 by (rewrite length_app; simpl; lia).
    rewrite app_nth2 by lia. rewrite Nat.sub_diag. reflexivity.
  - intros k Hk. apply app_nth1. exact Hk.
Qed.

(** [compute_ap] as a sum over all the recall steps. *)
Lemma compute_ap_all_steps (recall precision : list Q) :
  compute_ap recall precision
  == qsum (map (fun k => (nth (S k) (padded_recall recall) 0 - nth k (padded_recall recall) 0)
                         * nth (S k) (precision_envelope precision) 0)
               (seq 0 (S (length recall)))).
Proof.
  unfold compute_ap.
  change ([0] ++ recall ++ [1]) with (padded_recall recall).
  set (mrec := padded_recall recall).
  set (mpre := precision_envelope precision).
  assert (Htl : tl mrec = recall ++ [1]) by reflexivity.
  assert (Hrl : removelast mrec = 0 :: recall).
  { unfold mrec, padded_recall. change ([0] ++ recall ++ [1]) with ((0 :: recall) ++ [1]).
    apply removelast_last. }
  rewrite Htl, Hrl.
  rewrite (qsum_map_eq
             (fun k => (nth (k + 1) mrec 0 - nth k mrec 0) * nth (k + 1) mpre 0)
             (fun k => (nth (S k) mrec 0 - nth k mrec 0) * nth (S k) mpre 0))
    by (intros k _; rewrite Nat.add_1_r; reflexivity).
  rewrite (where_ne_sum _ (recall ++ [1]) (0 :: recall) O).
  - rewrite length_app. simpl. rewrite Nat.add_1_r. reflexivity.
  - rewrite length_app. simpl. lia.
  - intros idx Hidx Heq. cbn [Nat.add].
    rewrite length_app in Hidx. simpl in Hidx.
    assert (E1 : nth (S idx) mrec 0 = nth idx (recall ++ [1]) 0) by reflexivity.
    assert (E2 : nth idx mrec 0 = nth idx (0 :: recall) 0).
    { unfold mrec, padded_recall. change ([0] ++ recall ++ [1]) with ((0 :: recall) ++ [1]).
      apply app_nth1. simpl. lia. }
    rewrite E1, E2, Heq. ring.
Qed.


Lemma padded_precision_unit (precision : list Q) (j : nat) :
  unit_range precision ->
  0 <= nth j (padded_precision precision) 0 /\ nth j (padded_precision precision) 0 <= 1.
Proof.
  intro H.
  destruct (nth_in_or_default j (padded_precision precision) 0) as [Hin | E];
    [|rewrite E; lra].
  set (v := nth j (padded_precision precision) 0) in *.
  unfold padded_precision in Hin.
  apply in_app_or in Hin as [[E|[]]|Hin]; [rewrite <- E; lra|].
  apply in_app_or in Hin as [Hin|[E|[]]]; [apply H, Hin | rewrite <- E; lra].
Qed.

Lemma precision_envelope_unit (precision : list Q) (k : nat) :
  unit_range precision ->
  0 <= nth k (precision_envelope precision) 0 /\ nth k (precision_envelope precision) 0 <= 1.
Proof.
  intro H.
  destruct (Nat.lt_ge_cases k (length (padded_precision precision))) as [Hk|Hk].
  - destruct (precision_envelope_is_suffix_max precision k Hk) as [_ (j & _ & ->)].
    apply padded_precision_unit, H.
  - rewrite nth_overflow; [lra|].
    unfold precision_envelope. rewrite length_envelope_from. exact Hk.
Qed.

Lemma non_decreasing_nth (l : list Q) :
  non_decreasing l ->
  forall k, (S k < length l)%nat -> nth k l 0 <= nth (S k) l 0.
Proof.
  induction l as [|x l IH]; intros Hl k Hk; simpl in Hk; [lia|].
  destruct Hl as [Hx Hl].
  destruct k as [|k].
  - destruct l as [|y l]; [simpl in Hk; lia | exact Hx].
  - apply (IH Hl k). lia.
Qed.

Lemma non_decreasing_last (l : list Q) (hi : Q) :
  non_decreasing l -> l <> [] -> last l 0 <= hi -> non_decreasing (l ++ [hi]).
Proof.
  induction l as [|x l IH]; intros Hl Hne Hlast; [congruence|].
  destruct Hl as [Hx Hl].
  destruct l as [|y l].
  - simpl in *. auto.
  - change ((x :: y :: l) ++ [hi]) with (x :: (y :: l) ++ [hi]).
    split; [exact Hx|]. apply IH; [exact Hl | discriminate | exact Hlast].
Qed.

(** The padded recall array of a non-decreasing curve within [0, 1] is
    non-decreasing. *)
Lemma padded_recall_steps (recall : list Q) :
  non_decreasing recall -> unit_range recall ->
  forall k, (k <= length recall)%nat ->
            nth k (padded_recall recall) 0 <= nth (S k) (padded_recall recall) 0.
Proof.
  intros Hnd Hunit k Hk.
  assert (Hall : non_decreasing (padded_recall recall)).
  { unfold padded_recall. simpl.
    destruct recall as [|x recall]; [simpl; repeat split; lra|].
    split.
    - simpl. apply (Hunit x). left. reflexivity.
    - apply non_decreasing_last; [exact Hnd | discriminate |].
      apply (Hunit (last (x :: recall) 0)).
      destruct (@exists_last _ (x :: recall)) as (l' & z & E); [discriminate|].
      rewrite E, last_last. apply in_or_app. right. left. reflexivity. }
  apply non_decreasing_nth; [exact Hall|].
  destruct (padded_recall_nth recall) as (Hlen & _). lia.
Qed.

(** X9: for a recall curve that never decreases, with recall and precision
    values within [0, 1] (one precision per recall), the average precision
    lies within [0, 1]. *)
Theorem compute_ap_bounds (recall precision : list Q) :
  length recall = length precision ->
  non_decreasing recall -> unit_range recall -> unit_range precision ->
  0 <= compute_ap recall precision /\ compute_ap recall precision <= 1.
Proof.
  intros _ Hnd Hrec Hpre.
  rewrite compute_ap_all_steps.
  set (mrec := padded_recall recall).
  set (env := precision_envelope precision).
  assert (Hstep : forall k, In k (seq 0 (S (length recall))) ->
                            0 <= nth (S k) mrec 0 - nth k mrec 0).
  { intros k Hk. apply in_seq in Hk.
    pose proof (padded_recall_steps recall Hnd Hrec k ltac:(lia)). unfold mrec. lra. }
  split.
  - rewrite <- (qsum_map_zero (seq 0 (S (length recall)))).
    apply qsum_map_le. intros k Hk.
    pose proof (Hstep k Hk). pose proof (precision_envelope_unit precision (S k) Hpre).
    fold env in H0. nra.
  - apply Qle_trans with
      (qsum (map (fun k => nth (S k) mrec 0 - nth k mrec 0) (seq 0 (S (length recall))))).
    + apply qsum_map_le. intros k Hk.
      pose proof (Hstep k Hk). pose proof (precision_envelope_unit precision (S k) Hpre).
      fold env in H0. nra.
    + rewrite (qsum_telescope (fun k => nth k mrec 0)).
      destruct (padded_recall_nth recall) as (_ & H0 & H1 & _).
      unfold mrec. rewrite H0, H1. lra.
Qed.

Lemma compute_ap_bounds_witness :
  0 <= compute_ap [1 # 2; 1 # 2; 1] [1; 1 # 2; 2 # 3]
  /\ compute_ap [1 # 2; 1 # 2; 1] [1; 1 # 2; 2 # 3] <= 1.
Proof.
  apply (compute_ap_bounds [1 # 2; 1 # 2; 1] [1; 1 # 2; 2 # 3]).
  - reflexivity.
  - simpl. repeat split; vm_compute; discriminate.
  - intros x [<-|[<-|[<-|[]]]]; split; vm_compute; discriminate.
  - intros x [<-|[<-|[<-|[]]]]; split; vm_compute; discriminate.
Defined.



(** ** [non_max_suppression]: termination and what is kept *)






(** ** Configuration is not validated *)











(** X13: when no row of any image reaches [conf_thres], every entry of the
    output is absent; no class score is read and the loop is never entered,
    so this holds for any rows, thresholds and fuel. *)
Theorem non_max_suppression_all_filtered (fuel : nat) (prediction : list (list prediction_row))
    (conf_thres nms_thres : Q) :
  (forall image r, In image prediction -> In r image -> p_conf r < conf_thres) ->
  non_max_suppression fuel prediction conf_thres nms_thres
  = Done (map (fun _ => None) prediction).
Proof.
  intro Hlow. unfold non_max_suppression.
  induction prediction as [|image prediction IH]; simpl; [reflexivity|].
  assert (Hnone : nms_image fuel conf_thres nms_thres
                    (map (fun r => PredRow (xywh2xyxy (p_box r)) (p_conf r) (p_cls r)) image)
                  = Done None).
  { unfold nms_image, candidates.
    rewrite filter_none; [reflexivity|].
    intros r Hr. apply in_map_iff in Hr as (r0 & <- & Hr0). simpl.
    pose proof (Hlow image r0 (or_introl eq_refl) Hr0) as Hlt.
    destruct (Qle_bool conf_thres (p_conf r0)) eqn:E; [|reflexivity].
    apply Qle_bool_iff in E. lra. }
  rewrite Hnone. cbn [bind].
  rewrite IH; [reflexivity|].
  intros image' r Hi Hr. apply (Hlow image' r); [right; exact Hi | exact Hr].
Qed.

Lemma non_max_suppression_all_filtered_witness :
  non_max_suppression 0 two_images 1 (2 # 5) = Done [None; None].
Proof.
  apply (non_max_suppression_all_filtered 0 two_images 1 (2 # 5)).
  intros image r Hi Hr. unfold two_images in Hi. simpl in Hi.
  destruct Hi as [<-|[<-|[]]]; simpl in Hr;
    repeat match goal with
           | H : _ \/ _ |- _ => destruct H as [<-|H]
           | H : False |- _ => destruct H
           end; reflexivity.
Defined.

(** ** [non_max_suppression]: the merged box, and other classes *)

Lemma qsum_nonneg (l : list Q) : (forall x, In x l -> 0 <= x) -> 0 <= qsum l.
Proof.
  induction l as [|x l IH]; intro H; [apply Qle_refl|].
  rewrite qsum_cons.
  pose proof (H x (or_introl eq_refl)).
  assert (0 <= qsum l) by (apply IH; intros y Hy; apply H; right; exact Hy).
  lra.
Qed.

Lemma qsum_ge_member (l : list Q) (x : Q) :
  (forall y, In y l -> 0 <= y) -> In x l -> x <= qsum l.
Proof.
  induction l as [|y l IH]; intros H Hx; [destruct Hx|].
  rewrite qsum_cons.
  pose proof (H y (or_introl eq_refl)).
  assert (0 <= qsum l) by (apply qsum_nonneg; intros z Hz; apply H; right; exact Hz).
  destruct Hx as [->|Hx]; [lra|].
  assert (x <= qsum l) by (apply IH; [intros z Hz; apply H; right; exact Hz | exact Hx]).
  lra.
Qed.

Lemma weighted_mean_mono (coord1 coord2 : box -> Q) (s : list detection) :
  (forall d, In d s -> 0 <= d_conf d) ->
  0 < qsum (map d_conf s) ->
  (forall d, In d s -> coord1 (d_box d) <= coord2 (d_box d)) ->
  weighted_mean coord1 s <= weighted_mean coord2 s.
Proof.
  intros Hw Hpos Hc. unfold weighted_mean, Qdiv.
  apply Qmult_le_compat_r.
  - apply qsum_map_le. intros d Hd. pose proof (Hw d Hd). pose proof (Hc d Hd). nra.
  - apply Qinv_le_0_compat. lra.
Qed.

(** X14: in an iteration whose top row belongs to its own cluster and has a
    positive objectness, with no negative objectness in the pool, the merged
    box emitted has [x2 >= x1] and [y2 >= y1] whenever the boxes of the pool
    do: the two sums that give [x1] and [x2] carry the same weights, term by
    term, and are divided by the same positive total. *)
Theorem merged_box_well_formed (nms_thres : Q) (c : detection) (rest : list detection) :
  in_cluster nms_thres c c = true ->
  0 < d_conf c ->
  (forall d, In d (c :: rest) -> 0 <= d_conf d /\ well_formed (d_box d)) ->
  well_formed (d_box (fst (nms_body nms_thres c rest))).
Proof.
  intros Hself Hc Hpool.
  pose proof (nms_body_cluster nms_thres c rest) as Hbody. cbv zeta in Hbody.
  rewrite Hbody. cbn [fst set_box d_box].
  set (s := cluster nms_thres c (c :: rest)).
  assert (Hsub : forall d, In d s -> In d (c :: rest)).
  { intros d Hd. unfold s, cluster in Hd. apply filter_In in Hd. tauto. }
  assert (Hcs : In c s).
  { unfold s, cluster. apply filter_In. split; [left; reflexivity | exact Hself]. }
  assert (Hw : forall d, In d s -> 0 <= d_conf d).
  { intros d Hd. apply (Hpool d (Hsub d Hd)). }
  assert (Hpos : 0 < qsum (map d_conf s)).
  { apply Qlt_le_trans with (d_conf c); [exact Hc|].
    apply qsum_ge_member.
    - intros y Hy. apply in_map_iff in Hy as (d & <- & Hd). apply Hw, Hd.
    - apply in_map. exact Hcs. }
  unfold well_formed. cbn [c0 c1 c2 c3].
  split.
  - apply weighted_mean_mono; try assumption.
    intros d Hd. apply (Hpool d (Hsub d Hd)).
  - apply weighted_mean_mono; try assumption.
    intros d Hd. apply (Hpool d (Hsub d Hd)).
Qed.

Lemma merged_box_well_formed_witness :
  well_formed (d_box (fst (nms_body (3 # 10) chain_head chain_tail))).
Proof.
  apply (merged_box_well_formed (3 # 10) chain_head chain_tail).
  - vm_compute. reflexivity.
  - reflexivity.
  - intros d Hd. unfold chain_tail in Hd. simpl in Hd.
    repeat match goal with
           | H : _ \/ _ |- _ => destruct H as [<-|H]
           | H : False |- _ => destruct H
           end;
      (split; [|split]); vm_compute; discriminate.
Defined.




(** ** [get_batch_statistics] *)

Lemma mem_nat_false (x : nat) (l : list nat) : mem_nat x l = false -> ~ In x l.
Proof.
  unfold mem_nat. intros H Hin.
  assert (existsb (Nat.eqb x) l = true).
  { apply existsb_exists. exists x. split; [exact Hin | apply Nat.eqb_refl]. }
  congruence.
Qed.

Lemma count_tp_zeros {A : Type} (l : list A) : count_tp (map (fun _ => 0) l) = 0%nat.
Proof.
  unfold count_tp. induction l as [|x l IH]; simpl; [reflexivity | exact IH].
Qed.

Lemma flag_ok_zeros (iou_threshold : Q) (annotations : list (Q * box)) (preds : list detection) :
  Forall2 (flag_ok iou_threshold annotations) preds (map (fun _ => 0) preds).
Proof.
  induction preds as [|d preds IH]; simpl; constructor; [left; reflexivity | exact IH].
Qed.

(** Invariant of the matching loop: the claimed boxes are distinct indices
    of boxes of the image, one more for every flag set to 1. *)
Lemma match_loop_spec (iou_threshold : Q) (annotations : list (Q * box)) :
  forall preds detected_boxes tps detected',
    match_loop iou_threshold annotations preds detected_boxes = (tps, detected') ->
    NoDup detected_boxes ->
    (forall i, In i detected_boxes -> (i < length annotations)%nat) ->
    length tps = length preds
    /\ NoDup detected'
    /\ (forall i, In i detected' -> (i < length annotations)%nat)
    /\ (count_tp tps + length detected_boxes = length detected')%nat
    /\ Forall2 (flag_ok iou_threshold annotations) preds tps.
Proof.
  induction preds as [|d preds IH]; intros det tps det' H Hnd Hlt.
  - simpl in H. injection H as <- <-.
    split; [reflexivity|]. split; [exact Hnd|]. split; [exact Hlt|].
    split; [reflexivity | constructor].
  - cbn [match_loop] in H.
    destruct (Nat.eqb (length det) (length annotations)).
    { injection H as <- <-.
      change (0 :: map (fun _ : detection => 0) preds)
        with (map (fun _ : detection => 0) (d :: preds)).
      split; [apply length_map|]. split; [exact Hnd|]. split; [exact Hlt|].
      split; [rewrite count_tp_zeros; reflexivity | apply flag_ok_zeros]. }
    destruct (negb (mem_q (d_cls_pred d) (map fst annotations))) eqn:Elabel.
    { destruct (match_loop iou_threshold annotations preds det) as [tps0 det0] eqn:E.
      injection H as <- <-.
      destruct (IH _ _ _ E Hnd Hlt) as (Hlen & Hnd' & Hlt' & Hcount & Hflags).
      split; [simpl; lia|]. split; [exact Hnd'|]. split; [exact Hlt'|].
      split; [exact Hcount|]. constructor; [left; reflexivity | exact Hflags]. }
    apply negb_false_iff in Elabel.
    destruct (max_with_index (bbox_iou [d_box d] (map snd annotations) true))
      as [[iou j]|] eqn:Emax.
    2:{ injection H as <- <-.
        change (0 :: map (fun _ : detection => 0) preds)
          with (map (fun _ : detection => 0) (d :: preds)).
        split; [apply length_map|]. split; [exact Hnd|]. split; [exact Hlt|].
        split; [rewrite count_tp_zeros; reflexivity | apply flag_ok_zeros]. }
    destruct (Qle_bool iou_threshold iou && negb (mem_nat j det)) eqn:Econd.
    + apply andb_true_iff in Econd as [Hiou Hfree].
      apply Qle_bool_iff in Hiou. apply negb_true_iff in Hfree.
      destruct (match_loop iou_threshold annotations preds (det ++ [j])) as [tps0 det0] eqn:E.
      injection H as <- <-.
      assert (Hj : (j < length annotations)%nat).
      { apply max_with_index_spec in Emax as (Hj & _).
        unfold bbox_iou, broadcast2 in Hj. rewrite !length_map in Hj. exact Hj. }
      destruct (IH _ _ _ E) as (Hlen & Hnd' & Hlt' & Hcount & Hflags).
      * apply NoDup_app; [exact Hnd | constructor; [intros [] | constructor] |].
        intros x Hx [<-|[]]. apply (mem_nat_false _ _ Hfree Hx).
      * intros i Hi. apply in_app_or in Hi as [Hi|[<-|[]]]; [apply Hlt, Hi | exact Hj].
      * split; [simpl; lia|]. split; [exact Hnd'|]. split; [exact Hlt'|].
        split.
        -- rewrite length_app in Hcount. simpl in Hcount.
           unfold count_tp in *. simpl. lia.
        -- constructor; [|exact Hflags].
           right. split; [reflexivity|]. split; [exact Elabel|].
           exists iou, j. split; [exact Emax | exact Hiou].
    + destruct (match_loop iou_threshold annotations preds det) as [tps0 det0] eqn:E.
      injection H as <- <-.
      destruct (IH _ _ _ E Hnd Hlt) as (Hlen & Hnd' & Hlt' & Hcount & Hflags).
      split; [simpl; lia|]. split; [exact Hnd'|]. split; [exact Hlt'|].
      split; [exact Hcount|]. constructor; [left; reflexivity | exact Hflags].
Qed.

Lemma bounded_nodup_length (l : list nat) (n : nat) :
  NoDup l -> (forall i, In i l -> (i < n)%nat) -> (length l <= n)%nat.
Proof.
  intros Hnd Hlt. rewrite <- (length_seq n 0).
  apply NoDup_incl_length; [exact Hnd|].
  intros i Hi. apply in_seq. pose proof (Hlt i Hi). lia.
Qed.

(** What [sample_statistics] returns for one image. *)
Lemma sample_statistics_spec (iou_threshold : Q) (targets : list target_row)
    (sample_i : nat) (output : list detection) :
  let '(tps, scores, labels) := sample_statistics iou_threshold targets sample_i output in
  scores = map d_conf output /\ labels = map d_cls_pred output
  /\ length tps = length output
  /\ (count_tp tps <= length (annotations_of targets sample_i))%nat
  /\ Forall2 (flag_ok iou_threshold (annotations_of targets sample_i)) output tps.
Proof.
  unfold sample_statistics.
  split; [reflexivity|]. split; [reflexivity|].
  destruct (annotations_of targets sample_i) as [|a ann] eqn:Eann.
  - split; [apply length_map|]. split; [rewrite count_tp_zeros; simpl; lia|].
    apply flag_ok_zeros.
  - destruct (match_loop iou_threshold (a :: ann) output []) as [tps det] eqn:E.
    destruct (match_loop_spec _ _ _ _ _ _ E) as (Hlen & Hnd & Hlt & Hcount & Hflags).
    + constructor.
    + intros i [].
    + cbn [fst]. split; [exact Hlen|]. split; [|exact Hflags].
      pose proof (bounded_nodup_length det _ Hnd Hlt). simpl in Hcount. lia.
Qed.

(** The entries of [batch_metrics] are those of the images that have
    detections, each computed for its own sample index. *)
Lemma batch_statistics_entries (outputs : list (option (list detection)))
    (targets : list target_row) (iou_threshold : Q) :
  forall sample_i entry,
    In entry (batch_statistics_from sample_i outputs targets iou_threshold) ->
    exists i output,
      nth_error outputs i = Some (Some output)
      /\ entry = sample_statistics iou_threshold targets (sample_i + i) output.
Proof.
  induction outputs as [|[output|] outputs IH]; intros sample_i entry Hin; simpl in Hin.
  - destruct Hin.
  - destruct Hin as [<-|Hin].
    + exists O, output. rewrite Nat.add_0_r. auto.
    + destruct (IH _ _ Hin) as (i & output' & Hnth & ->).
      exists (S i), output'. split; [exact Hnth|]. f_equal. lia.
  - destruct (IH _ _ Hin) as (i & output' & Hnth & ->).
    exists (S i), output'. split; [exact Hnth|]. f_equal. lia.
Qed.

Lemma Forall2_nth_error {A B : Type} (P : A -> B -> Prop) (l : list A) (l' : list B) :
  Forall2 P l l' ->
  forall p a b, nth_error l p = Some a -> nth_error l' p = Some b -> P a b.
Proof.
  intro H. induction H as [|x y l l' Hxy _ IH]; intros [|p] a b Ha Hb; simpl in *;
    try discriminate.
  - injection Ha as <-. injection Hb as <-. exact Hxy.
  - apply (IH p a b Ha Hb).
Qed.

Lemma annotations_of_In (targets : list target_row) (sample_i : nat) (a : Q * box) :
  In a (annotations_of targets sample_i) ->
  exists t, In t targets /\ t_img t == inject_Z (Z.of_nat sample_i)
            /\ fst a = t_label t /\ snd a = t_box t.
Proof.
  unfold annotations_of. intro H.
  apply in_map_iff in H as (t & <- & Ht). apply filter_In in Ht as [Hin Himg].
  apply Qeq_bool_iff in Himg. exists t. auto.
Qed.

(** X16: [get_batch_statistics] returns one entry per image that has
    detections (images whose output is absent are skipped); an entry holds
    the objectness and the class of each detection of its image, in order,
    and one flag per detection; and the number of flags set is at most the
    number of ground-truth boxes of that image, since a box is claimed at
    most once. *)
Theorem get_batch_statistics_entries (outputs : list (option (list detection)))
    (targets : list target_row) (iou_threshold : Q) :
  length (get_batch_statistics outputs targets iou_threshold) = length (present outputs)
  /\ forall tps scores labels,
       In (tps, scores, labels) (get_batch_statistics outputs targets iou_threshold) ->
       exists i output,
         nth_error outputs i = Some (Some output)
         /\ scores = map d_conf output /\ labels = map d_cls_pred output
         /\ length tps = length output
         /\ (count_tp tps <= length (annotations_of targets i))%nat.
Proof.
  split.
  - unfold get_batch_statistics. generalize O.
    induction outputs as [|[output|] outputs IH]; intro n; simpl; auto.
  - intros tps scores labels Hin.
    destruct (batch_statistics_entries outputs targets iou_threshold O _ Hin)
      as (i & output & Hnth & Hentry).
    exists i, output. split; [exact Hnth|].
    pose proof (sample_statistics_spec iou_threshold targets i output) as Hspec.
    simpl in Hentry. rewrite <- Hentry in Hspec.
    destruct Hspec as (Hs & Hl & Hlen & Hcount & _). auto.
Qed.

Lemma get_batch_statistics_entries_witness :
  exists i output,
    nth_error [None; Some wrong_class_first] i = Some (Some output)
    /\ [9 # 10; 8 # 10] = map d_conf output /\ [0; 1] = map d_cls_pred output
    /\ length [0%Q; 0%Q] = length output
    /\ (count_tp [0%Q; 0%Q] <= length (annotations_of two_class_targets i))%nat.
Proof.
  apply (proj2 (get_batch_statistics_entries [None; Some wrong_class_first]
                  two_class_targets (1 # 2)) [0; 0] [9 # 10; 8 # 10] [0; 1]).
  vm_compute. left. reflexivity.
Defined.

(** X17: a detection is flagged true-positive only if its class is the
    class of some ground-truth box of its image and its IoU with some
    ground-truth box of its image reaches [iou_threshold]; in particular an
    image without ground truth yields no true positive. *)
Theorem true_positive_sound (outputs : list (option (list detection)))
    (targets : list target_row) (iou_threshold : Q) :
  forall tps scores labels,
    In (tps, scores, labels) (get_batch_statistics outputs targets iou_threshold) ->
    exists i output,
      nth_error outputs i = Some (Some output)
      /\ forall p d,
           nth_error output p = Some d -> nth_error tps p = Some 1 ->
           (exists t, In t targets /\ t_img t == inject_Z (Z.of_nat i)
                      /\ t_label t == d_cls_pred d)
           /\ (exists t, In t targets /\ t_img t == inject_Z (Z.of_nat i)
                         /\ iou_threshold <= iou_elem true (d_box d) (t_box t)).
Proof.
  intros tps scores labels Hin.
  destruct (batch_statistics_entries outputs targets iou_threshold O _ Hin)
    as (i & output & Hnth & Hentry).
  exists i, output. split; [exact Hnth|].
  pose proof (sample_statistics_spec iou_threshold targets i output) as Hspec.
  simpl in Hentry. rewrite <- Hentry in Hspec.
  destruct Hspec as (_ & _ & _ & _ & Hflags).
  intros p d Hd Hp.
  destruct (Forall2_nth_error _ _ _ Hflags p d 1 Hd Hp) as [H01|(_ & Hlabel & iou & j & Hmax & Hiou)].
  { discriminate H01. }
  split.
  - unfold mem_q in Hlabel. apply existsb_exists in Hlabel as (l & Hl & Heq).
    apply in_map_iff in Hl as (a & <- & Ha).
    destruct (annotations_of_In _ _ _ Ha) as (t & Ht & Himg & Hfst & _).
    apply Qeq_bool_iff in Heq.
    exists t. split; [exact Ht|]. split; [exact Himg|]. rewrite <- Hfst, Heq. reflexivity.
  - apply max_with_index_spec in Hmax as (Hj & Hval & _).
    unfold bbox_iou, broadcast2 in Hj, Hval. rewrite !length_map in Hj.
    rewrite map_map in Hval.
    set (a := nth j (annotations_of targets i) (0, Box 0 0 0 0)).
    assert (Ha : In a (annotations_of targets i)) by (apply nth_In; exact Hj).
    rewrite (nth_indep _ 0 (iou_elem true (d_box d) (snd (0, Box 0 0 0 0)))) in Hval
      by (rewrite length_map; exact Hj).
    rewrite (map_nth (fun x => iou_elem true (d_box d) (snd x))) in Hval. fold a in Hval.
    destruct (annotations_of_In _ _ _ Ha) as (t & Ht & Himg & _ & Hsnd).
    exists t. split; [exact Ht|]. split; [exact Himg|].
    rewrite <- Hsnd, Hval. exact Hiou.
Qed.

Lemma true_positive_sound_witness :
  exists i output,
    nth_error [Some three_detections] i = Some (Some output)
    /\ forall p d,
         nth_error output p = Some d -> nth_error [1; 0; 1] p = Some 1 ->
         (exists t, In t one_class_targets /\ t_img t == inject_Z (Z.of_nat i)
                    /\ t_label t == d_cls_pred d)
         /\ (exists t, In t one_class_targets /\ t_img t == inject_Z (Z.of_nat i)
                       /\ (1 # 2) <= iou_elem true (d_box d) (t_box t)).
Proof.
  apply (true_positive_sound [Some three_detections] one_class_targets (1 # 2)
           [1; 0; 1] [9 # 10; 8 # 10; 7 # 10] [0; 0; 0]).
  vm_compute. left. reflexivity.
Defined.

(** ** [ap_per_class] *)

Lemma insert_unique_ascending (c : Z) (l : list Z) :
  ascending l -> ascending (insert_unique c l).
Proof.
  induction l as [|x l IH]; simpl.
  - intros _. split; [intros y [] | exact I].
  - intros [Hx Hl].
    destruct (c <? x)%Z eqn:E1.
    + apply Z.ltb_lt in E1. simpl. split; [|split; assumption].
      intros y [<-|Hy]; [exact E1 | pose proof (Hx y Hy); lia].
    + destruct (c =? x)%Z eqn:E2.
      * simpl. split; assumption.
      * apply Z.ltb_ge in E1. apply Z.eqb_neq in E2.
        simpl. split; [|apply IH, Hl].
        intros y Hy. apply insert_unique_In in Hy as [->|Hy]; [lia | apply Hx, Hy].
Qed.

Lemma unique_ascending (l : list Z) : ascending (unique l).
Proof.
  induction l as [|c l IH]; simpl; [exact I|].
  apply insert_unique_ascending, IH.
Qed.

(** X18: the class list returned by [ap_per_class] is in strictly ascending
    order, hence without duplicates, whatever the order and the repetitions
    of the ground-truth classes. *)
Theorem ap_per_class_classes_ascending (tp conf : list Q) (pred_cls target_cls : list Z) :
  ascending (r_classes (ap_per_class tp conf pred_cls target_cls))
  /\ NoDup (r_classes (ap_per_class tp conf pred_cls target_cls)).
Proof.
  unfold ap_per_class. cbn [r_classes].
  pose proof (unique_ascending target_cls) as H.
  split; [exact H|].
  induction (unique target_cls) as [|x l IH]; [constructor|].
  destruct H as [Hx Hl]. constructor; [|apply IH, Hl].
  intro Hin. pose proof (Hx x Hin). lia.
Qed.

(** ** [build_targets]: masks and class targets *)

(** On valid input [build_targets] returns, and its masks and class targets
    are the results of the indexed writes spelled out in [targets_run]. *)
Lemma build_targets_valid_run (log : Q -> Q) (sh : shape) (pred_boxes : grid box)
    (pred_cls : grid (list Q)) (target : list target_row) (anchors : list (Q * Q))
    (ignore_thres : Q) :
  anchors <> [] -> length anchors = nA sh -> nC sh <> 0%nat ->
  (forall k, pred_cls k <> []) ->
  (forall t, In t target -> in_range sh t) ->
  exists out,
    build_targets log sh pred_boxes pred_cls target anchors ignore_thres = Done out
    /\ targets_run log sh target anchors ignore_thres out.
Proof.
  intros Hne Hlen HnC Hcls Hrange.
  assert (Hinside : forall t', In t' target -> inside sh (primary sh anchors t')).
  { intros t' Ht'. apply primary_inside; auto. }
  unfold build_targets.
  replace (match anchors with
           | [] => Raised EmptyStack
           | _ :: _ =>
               Done (map (fun anchor => bbox_wh_iou anchor
                           (map (fun b => (c2 b, c3 b)) (map (scale_box sh) target)))
                         anchors)
           end)
    with (Done (map (fun anchor => bbox_wh_iou anchor
                           (map (fun b => (c2 b, c3 b)) (map (scale_box sh) target)))
                    anchors))
    by (destruct anchors; [congruence | reflexivity]).
  cbn [bind].
  replace (length target)
    with (length (map (fun b => (c2 b, c3 b)) (map (scale_box sh) target)))
    by (rewrite !length_map; reflexivity).
  rewrite transpose_ious.
  destruct (best_columns anchors
              (map (fun b => (c2 b, c3 b)) (map (scale_box sh) target)) Hne)
    as (best & Hbest & Hsnd).
  rewrite Hbest. cbn [bind]. rewrite Hsnd. clear Hbest Hsnd best.
  rewrite !map_map. cbn [fst snd].
  match goal with
  | |- context [index_put sh (fill 0%Z) (map _ ?ab)] =>
      replace ab with (map (primary sh anchors) target)
  end.
  2:{ rewrite zip4_map. apply map_ext_in. intros t' Ht'.
      symmetry. apply (raw_cell_primary sh anchors t' (Hrange t' Ht')). }
  rewrite zip4_map, !zip_with_map, !combine_map, !map_map.
  match goal with
  | |- context [noobj_loop sh ignore_thres _ ?rows] =>
      replace rows
        with (map (fun t => (Qtrunc (t_img t), Qfloor (c1 (scale_box sh t)),
                             Qfloor (c0 (scale_box sh t)), anchor_ious sh anchors t))
                  target)
  end.
  2:{ apply map_ext_in. intros t' Ht'.
      destruct (Hrange t' Ht') as (_ & _ & Hx0 & _ & Hy0 & _).
      rewrite (Qtrunc_floor _ Hx0), (Qtrunc_floor _ Hy0). reflexivity. }
  destruct (index_put_rows sh (primary sh anchors) (fun _ => 1%Z) target (fill 0%Z) Hinside)
    as (om & Hom & _ & _).
  cbv beta in Hom. rewrite Hom. cbn [bind].
  destruct (index_put_rows sh (primary sh anchors) (fun _ => 0%Z) target (fill 1%Z) Hinside)
    as (nm & Hnm & _ & _).
  cbv beta in Hnm. rewrite Hnm. cbn [bind].
  match goal with
  | |- context [noobj_loop sh ignore_thres nm ?rows] =>
      destruct (noobj_loop_rows sh ignore_thres rows nm) as (nm' & Hnm' & _)
  end.
  { intros b gj gi ious Hr. apply in_map_iff in Hr as (t' & Heq & Ht').
    injection Heq as <- <- <- <-.
    change (length (anchor_ious sh anchors t') = nA sh
            /\ (0 <= Qtrunc (t_img t') < Z.of_nat (nB sh))%Z
            /\ (0 <= Qfloor (c1 (scale_box sh t')) < Z.of_nat (nG sh))%Z
            /\ (0 <= Qfloor (c0 (scale_box sh t')) < Z.of_nat (nG sh))%Z).
    destruct (Hrange t' Ht') as (Hb & _ & Hx0 & Hx1 & Hy0 & Hy1).
    unfold anchor_ious. rewrite length_map. split; [exact Hlen|]. split; [exact Hb|].
    split; apply Qfloor_range; assumption. }
  rewrite Hnm'. cbn [bind].
  repeat match goal with
  | |- context [index_put sh (fill 0) (map (fun x => (primary sh anchors x, @?v x)) target)] =>
      let g := fresh "g" in let Hg := fresh "Hg" in
      destruct (index_put_rows sh (primary sh anchors) v target (fill 0) Hinside)
        as (g & Hg & _ & _);
      cbv beta in Hg; rewrite Hg; cbn [bind]; clear Hg
  end.
  match goal with
  | |- context [tcls_put sh ?g0 ?writes] =>
      destruct (tcls_put_rows sh writes g0) as (tcls' & Htcls)
  end.
  { intros w Hw. apply in_map_iff in Hw as (t' & <- & Ht'). simpl.
    split; [apply Hinside, Ht'|]. destruct (Hrange t' Ht') as (_ & Hl & _). exact Hl. }
  rewrite Htcls. cbn [bind].
  assert (Hkeys : forall k0, In k0 (map (primary sh anchors) target) -> inside sh k0).
  { intros k0 Hk0. apply in_map_iff in Hk0 as (t' & <- & Ht'). apply Hinside, Ht'. }
  rewrite !(index_get_rows sh _ _ Hkeys). cbn [bind].
  rewrite (proj2 (Nat.eqb_neq _ _) HnC).
  destruct (argmax_rows (map pred_cls (map (primary sh anchors) target))) as (am & Ham).
  { intros r Hr. apply in_map_iff in Hr as (k0 & <- & _). apply Hcls. }
  rewrite Ham. cbn [bind].
  match goal with
  | |- context [index_put sh ?g0 (combine ?ks ?vs)] =>
      destruct (index_put_combine sh ks vs g0 Hkeys) as (cm & Hcm)
  end.
  rewrite Hcm. cbn [bind].
  match goal with
  | |- context [index_put sh ?g0 (combine ?ks ?vs)] =>
      destruct (index_put_combine sh ks vs g0 Hkeys) as (ious' & Hious)
  end.
  rewrite Hious. cbn [bind].
  eexists. split; [reflexivity|].
  constructor; cbn [obj_mask noobj_mask tcls tconf].
  - exact Hom.
  - exists nm. split; assumption.
  - exact Htcls.
  - intro k. reflexivity.
Qed.

Lemma index_put_untouched {A : Type} (sh : shape) (k : index) (writes : list (index * A)) :
  forall g g',
    index_put sh g writes = Done g' ->
    (forall w, In w writes -> inside sh (fst w) /\ fst w <> k) ->
    g' k = g k.
Proof.
  induction writes as [|[k1 v1] writes IH]; intros g g' H Hw; simpl in H.
  - injection H as <-. reflexivity.
  - destruct (Hw (k1, v1) (or_introl eq_refl)) as [Hin Hne]. simpl in Hin, Hne.
    rewrite (locate_inside sh k1 Hin) in H. cbn [of_option bind] in H.
    rewrite (IH _ _ H) by (intros w Hin'; apply Hw; right; exact Hin').
    apply upd_other. exact Hne.
Qed.

(** An element that differs from its initial value was written to. *)
Lemma index_put_changed {A : Type} (sh : shape) (k : index) (writes : list (index * A)) :
  forall g g',
    index_put sh g writes = Done g' ->
    (forall w, In w writes -> inside sh (fst w)) ->
    g' k <> g k ->
    exists w, In w writes /\ fst w = k.
Proof.
  intros g g' H Hin Hne.
  destruct (existsb (fun w => index_eqb (fst w) k) writes) eqn:E.
  - apply existsb_exists in E as (w & Hw & Hk). apply index_eqb_eq in Hk.
    exists w. auto.
  - exfalso. apply Hne. apply (index_put_untouched sh k writes g g' H).
    intros w Hw. split; [apply Hin, Hw|].
    intro Hk. apply (proj2 (index_eqb_eq _ _)) in Hk.
    assert (existsb (fun w => index_eqb (fst w) k) writes = true)
      by (apply existsb_exists; exists w; auto).
    congruence.
Qed.

Lemma noobj_loop_preserves (P : Z -> Prop) (sh : shape) (ignore_thres : Q)
    (rows : list (Z * Z * Z * list Q)) :
  P 0%Z ->
  forall g g',
    noobj_loop sh ignore_thres g rows = Done g' ->
    forall k, P (g k) -> P (g' k).
Proof.
  intro H0. induction rows as [|[[[b gj] gi] ious] rows IH]; intros g g' H k Hk; simpl in H.
  - injection H as <-. exact Hk.
  - destruct (negb (Nat.eqb (length ious) (nA sh))); [discriminate|].
    apply bind_Done in H as (g1 & Hg1 & H).
    apply (IH _ _ H).
    apply (index_put_preserves P sh _ g g1 Hg1); [|exact Hk].
    intros w Hw. apply in_map_iff in Hw as (a & <- & _). exact H0.
Qed.

(** X19: on valid input, the object mask is 1 exactly at the (image, anchor,
    cell) of some ground-truth box and 0 elsewhere; the no-object mask is 0
    or 1, and 0 wherever the object mask is 1; the objectness target [tconf]
    is the object mask. *)
Theorem build_targets_masks (log : Q -> Q) (sh : shape) (pred_boxes : grid box)
    (pred_cls : grid (list Q)) (target : list target_row) (anchors : list (Q * Q))
    (ignore_thres : Q) :
  anchors <> [] -> length anchors = nA sh -> nC sh <> 0%nat ->
  (forall k, pred_cls k <> []) ->
  (forall t, In t target -> in_range sh t) ->
  exists out,
    build_targets log sh pred_boxes pred_cls target anchors ignore_thres = Done out
    /\ forall k,
         (obj_mask out k = 1%Z <-> exists t, In t target /\ primary sh anchors t = k)
         /\ (obj_mask out k = 0%Z \/ obj_mask out k = 1%Z)
         /\ (noobj_mask out k = 0%Z \/ noobj_mask out k = 1%Z)
         /\ (obj_mask out k = 1%Z -> noobj_mask out k = 0%Z)
         /\ tconf out k = inject_Z (obj_mask out k).
Proof.
  intros Hne Hlen HnC Hcls Hrange.
  destruct (build_targets_valid_run log sh pred_boxes pred_cls target anchors ignore_thres
              Hne Hlen HnC Hcls Hrange) as (out & Hout & [Hobj (nm & Hnm & Hloop) _ Htconf]).
  exists out. split; [exact Hout|]. intro k.
  assert (Hinside : forall t', In t' target -> inside sh (primary sh anchors t')).
  { intros t' Ht'. apply primary_inside; auto. }
  assert (Hkeys : forall (v : Z) w,
             In w (map (fun t => (primary sh anchors t, v)) target) -> inside sh (fst w)).
  { intros v w Hw. apply in_map_iff in Hw as (t & <- & Ht). apply Hinside, Ht. }
  assert (Hiff : obj_mask out k = 1%Z <-> exists t, In t target /\ primary sh anchors t = k).
  { split.
    - intro H1.
      destruct (index_put_changed sh k _ _ _ Hobj (Hkeys 1%Z)) as (w & Hw & Hk).
      { rewrite H1. discriminate. }
      apply in_map_iff in Hw as (t & <- & Ht). exists t. auto.
    - intros (t & Ht & <-).
      apply (index_put_rows_written (fun v => v = 1%Z) sh (primary sh anchors)
               (fun _ => 1%Z) target (fill 0%Z) _ Hobj Hinside); auto. }
  split; [exact Hiff|]. split.
  { apply (index_put_preserves (fun v => v = 0%Z \/ v = 1%Z) sh _ _ _ Hobj).
    - intros w Hw. apply in_map_iff in Hw as (t & <- & _). right. reflexivity.
    - left. reflexivity. }
  split.
  { apply (noobj_loop_preserves (fun v => v = 0%Z \/ v = 1%Z) sh ignore_thres _
             (or_introl eq_refl) _ _ Hloop).
    apply (index_put_preserves (fun v => v = 0%Z \/ v = 1%Z) sh _ _ _ Hnm).
    - intros w Hw. apply in_map_iff in Hw as (t & <- & _). left. reflexivity.
    - right. reflexivity. }
  split; [|apply Htconf].
  intro H1. apply Hiff in H1 as (t & Ht & <-).
  apply (noobj_loop_preserves (fun v => v = 0%Z) sh ignore_thres _ eq_refl _ _ Hloop).
  apply (index_put_rows_written (fun v => v = 0%Z) sh (primary sh anchors)
           (fun _ => 0%Z) target (fill 1%Z) _ Hnm Hinside); auto.
Qed.

Lemma build_targets_masks_witness :
  exists out,
    build_targets (fun q => q) small_shape (fill (Box 0 0 0 0)) (fill flat_scores)
                  colliding_targets three_anchors (1 # 2)
    = Done out
    /\ forall k,
         (obj_mask out k = 1%Z
          <-> exists t, In t colliding_targets /\ primary small_shape three_anchors t = k)
         /\ (obj_mask out k = 0%Z \/ obj_mask out k = 1%Z)
         /\ (noobj_mask out k = 0%Z \/ noobj_mask out k = 1%Z)
         /\ (obj_mask out k = 1%Z -> noobj_mask out k = 0%Z)
         /\ tconf out k = inject_Z (obj_mask out k).
Proof.
  apply (build_targets_masks (fun q => q) small_shape (fill (Box 0 0 0 0)) (fill flat_scores)
           colliding_targets three_anchors (1 # 2)).
  - discriminate.
  - reflexivity.
  - discriminate.
  - intro k. discriminate.
  - intros t [<-|[<-|[]]]; unfold in_range; repeat split; vm_compute; congruence.
Defined.

(** The class-target writes only ever set entries to 1: an entry is 1
    afterwards exactly if it was 1 before or is the (index, label) of a
    write, and it keeps its value otherwise. *)
Lemma tcls_put_spec (sh : shape) (writes : list (index * Z)) :
  forall g g',
    tcls_put sh g writes = Done g' ->
    (forall w, In w writes -> inside sh (fst w) /\ (0 <= snd w < Z.of_nat (nC sh))%Z) ->
    forall k c,
      (In (k, c) writes -> g' k c = 1)
      /\ (~ In (k, c) writes -> g' k c = g k c)
      /\ (g k c = 1 -> g' k c = 1).
Proof.
  induction writes as [|[k0 l0] writes IH]; intros g g' H Hw k c; simpl in H.
  - injection H as <-. repeat split; auto. intros [].
  - destruct (Hw (k0, l0) (or_introl eq_refl)) as [Hin Hl]. simpl in Hin, Hl.
    rewrite (locate_inside sh k0 Hin), (norm_index_in_range _ _ Hl) in H.
    cbn [of_option bind] in H.
    destruct (IH _ _ H (fun w Hin' => Hw w (or_intror Hin')) k c) as (Hset & Hkeep & Hone).
    assert (Hhere : upd g k0 (fun c' => if (c' =? l0)%Z then 1 else g k0 c') k0 l0 = 1).
    { rewrite upd_same, Z.eqb_refl. reflexivity. }
    split; [|split].
    + intros [E|Hin']; [|apply Hset, Hin'].
      injection E as -> ->. apply Hone. exact Hhere.
    + intro Hnot. rewrite Hkeep by (intro Hin'; apply Hnot; right; exact Hin').
      unfold upd. destruct (index_eqb k0 k) eqn:E; [|reflexivity].
      apply index_eqb_eq in E. subst k0.
      destruct (c =? l0)%Z eqn:E2; [|reflexivity].
      apply Z.eqb_eq in E2. subst l0. exfalso. apply Hnot. left. reflexivity.
    + intro H1. apply Hone. unfold upd.
      destruct (index_eqb k0 k) eqn:E; [|exact H1].
      apply index_eqb_eq in E. subst k0.
      destruct (c =? l0)%Z; [reflexivity | exact H1].
Qed.

(** X20: on valid input, the class target at an (image, anchor, cell) and a
    class is 1 exactly when some ground-truth box of that class is assigned
    there, and 0 otherwise: a cell shared by boxes of several classes carries
    a 1 for each of them. *)
Theorem build_targets_class_targets (log : Q -> Q) (sh : shape) (pred_boxes : grid box)
    (pred_cls : grid (list Q)) (target : list target_row) (anchors : list (Q * Q))
    (ignore_thres : Q) :
  anchors <> [] -> length anchors = nA sh -> nC sh <> 0%nat ->
  (forall k, pred_cls k <> []) ->
  (forall t, In t target -> in_range sh t) ->
  exists out,
    build_targets log sh pred_boxes pred_cls target anchors ignore_thres = Done out
    /\ forall k c,
         (tcls out k c = 1
          <-> exists t, In t target /\ primary sh anchors t = k /\ Qtrunc (t_label t) = c)
         /\ (tcls out k c = 0 \/ tcls out k c = 1).
Proof.
  intros Hne Hlen HnC Hcls Hrange.
  destruct (build_targets_valid_run log sh pred_boxes pred_cls target anchors ignore_thres
              Hne Hlen HnC Hcls Hrange) as (out & Hout & [_ _ Htcls _]).
  exists out. split; [exact Hout|]. intros k c.
  set (writes := map (fun t => (primary sh anchors t, Qtrunc (t_label t))) target) in *.
  assert (Hw : forall w, In w writes ->
                         inside sh (fst w) /\ (0 <= snd w < Z.of_nat (nC sh))%Z).
  { intros w Hin. apply in_map_iff in Hin as (t & <- & Ht). simpl.
    split; [apply primary_inside; auto|]. destruct (Hrange t Ht) as (_ & Hl & _). exact Hl. }
  destruct (tcls_put_spec sh writes _ _ Htcls Hw k c) as (Hset & Hkeep & _).
  assert (Hdec : In (k, c) writes \/ ~ In (k, c) writes).
  { destruct (in_dec (fun a b : index * Z =>
                        ltac:(repeat decide equality) : {a = b} + {a <> b})
                     (k, c) writes); auto. }
  split.
  - split.
    + intro H1. destruct Hdec as [Hin|Hnot].
      * apply in_map_iff in Hin as (t & E & Ht). injection E as <- <-. exists t. auto.
      * rewrite (Hkeep Hnot) in H1. discriminate H1.
    + intros (t & Ht & <- & <-). apply Hset. apply in_map_iff. exists t. auto.
  - destruct Hdec as [Hin|Hnot]; [right; apply Hset, Hin | left; apply Hkeep, Hnot].
Qed.

Lemma build_targets_class_targets_witness :
  exists out,
    build_targets (fun q => q) small_shape (fill (Box 0 0 0 0)) (fill flat_scores)
                  colliding_targets three_anchors (1 # 2)
    = Done out
    /\ forall k c,
         (tcls out k c = 1
          <-> exists t, In t colliding_targets
                        /\ primary small_shape three_anchors t = k
                        /\ Qtrunc (t_label t) = c)
         /\ (tcls out k c = 0 \/ tcls out k c = 1).
Proof.
  apply (build_targets_class_targets (fun q => q) small_shape (fill (Box 0 0 0 0))
           (fill flat_scores) colliding_targets three_anchors (1 # 2)).
  - discriminate.
  - reflexivity.
  - discriminate.
  - intro k. discriminate.
  - intros t [<-|[<-|[]]]; unfold in_range; repeat split; vm_compute; congruence.
Defined.

Lemma select_seq_In {A : Type} (p : A -> bool) (d : A) (l : list A) :
  forall s a,
    (a < length l)%nat -> p (nth a l d) = true ->
    In (s + a)%nat (select (map p l) (seq s (length (map p l)))).
Proof.
  induction l as [|x l IH]; intros s a Ha Hp; simpl in Ha; [lia|].
  simpl. destruct a as [|a].
  - simpl in Hp. rewrite Hp. left. lia.
  - simpl in Hp.
    assert (Hin : In (S s + a)%nat (select (map p l) (seq (S s) (length (map p l)))))
      by (apply IH; [lia | exact Hp]).
    replace (s + S a)%nat with (S s + a)%nat by lia.
    destruct (p x); [right; exact Hin | exact Hin].
Qed.

(** After the loop over the ground-truth rows, the no-object mask is 0 at
    every anchor whose IoU with a row exceeds the threshold, at the image and
    cell of that row. *)
Lemma noobj_loop_hits (sh : shape) (ignore_thres : Q) (rows : list (Z * Z * Z * list Q)) :
  forall g g',
    noobj_loop sh ignore_thres g rows = Done g' ->
    (forall b gj gi ious, In (b, gj, gi, ious) rows ->
        length ious = nA sh
        /\ (0 <= b < Z.of_nat (nB sh))%Z
        /\ (0 <= gj < Z.of_nat (nG sh))%Z /\ (0 <= gi < Z.of_nat (nG sh))%Z) ->
    forall b gj gi ious a,
      In (b, gj, gi, ious) rows -> (a < length ious)%nat ->
      ignore_thres < nth a ious 0 ->
      g' (b, Z.of_nat a, gj, gi) = 0%Z.
Proof.
  induction rows as [|[[[b0 gj0] gi0] ious0] rows IH];
    intros g g' H Hvalid b gj gi ious a Hin Ha Hthr; [destruct Hin|].
  simpl in H.
  destruct (Hvalid b0 gj0 gi0 ious0 (or_introl eq_refl)) as (Hlen & Hb & Hgj & Hgi).
  rewrite (proj2 (Nat.eqb_eq _ _) Hlen) in H. cbn [negb] in H.
  apply bind_Done in H as (g1 & Hg1 & H).
  destruct Hin as [E|Hin].
  - injection E as -> -> -> ->.
    apply (noobj_loop_preserves (fun v => v = 0%Z) sh ignore_thres rows eq_refl _ _ H).
    apply (index_put_written (fun v => v = 0%Z) sh _ _ _ _ Hg1).
    + intros w Hw. apply in_map_iff in Hw as (a' & <- & Ha'). simpl.
      apply select_In in Ha'. apply in_seq in Ha'. rewrite length_map in Ha'.
      split; [|reflexivity]. repeat split; try lia.
    + exists ((b, Z.of_nat a, gj, gi), 0%Z). split; [|reflexivity].
      apply in_map_iff. exists a. split; [reflexivity|].
      apply (select_seq_In (fun iou => Qlt_bool ignore_thres iou) 0 ious O a Ha).
      apply Qlt_bool_true. exact Hthr.
  - apply (IH _ _ H (fun b' gj' gi' ious' Hr => Hvalid b' gj' gi' ious' (or_intror Hr))
              b gj gi ious a Hin Ha Hthr).
Qed.

(** X21: on valid input, for every ground-truth box the no-object mask is
    also 0, at the image and cell of the box, at every anchor whose size-only
    IoU with the box exceeds [ignore_thres], whether or not it is the best
    anchor. *)
Theorem build_targets_ignored_anchors (log : Q -> Q) (sh : shape) (pred_boxes : grid box)
    (pred_cls : grid (list Q)) (target : list target_row) (anchors : list (Q * Q))
    (ignore_thres : Q) :
  anchors <> [] -> length anchors = nA sh -> nC sh <> 0%nat ->
  (forall k, pred_cls k <> []) ->
  (forall t, In t target -> in_range sh t) ->
  exists out,
    build_targets log sh pred_boxes pred_cls target anchors ignore_thres = Done out
    /\ forall t a,
         In t target -> (a < length anchors)%nat ->
         ignore_thres < wh_iou_elem (nth a anchors (0, 0)) (gt_wh sh t) ->
         noobj_mask out (Qtrunc (t_img t), Z.of_nat a,
                         Qfloor (c1 (scale_box sh t)), Qfloor (c0 (scale_box sh t)))
         = 0%Z.
Proof.
  intros Hne Hlen HnC Hcls Hrange.
  destruct (build_targets_valid_run log sh pred_boxes pred_cls target anchors ignore_thres
              Hne Hlen HnC Hcls Hrange) as (out & Hout & [_ (nm & _ & Hloop) _ _]).
  exists out. split; [exact Hout|]. intros t a Ht Ha Hthr.
  apply (noobj_loop_hits sh ignore_thres _ _ _ Hloop) with (ious := anchor_ious sh anchors t).
  - intros b gj gi ious Hr. apply in_map_iff in Hr as (t' & Heq & Ht').
    injection Heq as <- <- <- <-.
    change (length (anchor_ious sh anchors t') = nA sh
            /\ (0 <= Qtrunc (t_img t') < Z.of_nat (nB sh))%Z
            /\ (0 <= Qfloor (c1 (scale_box sh t')) < Z.of_nat (nG sh))%Z
            /\ (0 <= Qfloor (c0 (scale_box sh t')) < Z.of_nat (nG sh))%Z).
    destruct (Hrange t' Ht') as (Hb & _ & Hx0 & Hx1 & Hy0 & Hy1).
    unfold anchor_ious. rewrite length_map. split; [exact Hlen|]. split; [exact Hb|].
    split; apply Qfloor_range; assumption.
  - apply in_map_iff. exists t. auto.
  - unfold anchor_ious. rewrite length_map. exact Ha.
  - unfold anchor_ious.
    rewrite (nth_indep _ 0 (wh_iou_elem (0, 0) (gt_wh sh t))) by (rewrite length_map; exact Ha).
    rewrite (map_nth (fun anchor => wh_iou_elem anchor (gt_wh sh t))). exact Hthr.
Qed.

Lemma build_targets_ignored_anchors_witness :
  exists out,
    build_targets (fun q => q) small_shape (fill (Box 0 0 0 0)) (fill flat_scores)
                  single_target three_anchors (1 # 5)
    = Done out
    /\ forall t a,
         In t single_target -> (a < length three_anchors)%nat ->
         (1 # 5) < wh_iou_elem (nth a three_anchors (0, 0)) (gt_wh small_shape t) ->
         noobj_mask out (Qtrunc (t_img t), Z.of_nat a,
                         Qfloor (c1 (scale_box small_shape t)),
                         Qfloor (c0 (scale_box small_shape t)))
         = 0%Z.
Proof.
  apply (build_targets_ignored_anchors (fun q => q) small_shape (fill (Box 0 0 0 0))
           (fill flat_scores) single_target three_anchors (1 # 5)).
  - discriminate.
  - reflexivity.
  - discriminate.
  - intro k. discriminate.
  - exact single_target_in_range.
Defined.

(** Without ground-truth rows (and with a non-empty anchor set and at
    least one class), [build_targets] returns the tensors as they were
    allocated: object mask 0, no-object mask 1 and all targets 0
    everywhere. *)
Theorem build_targets_no_targets (log : Q -> Q) (sh : shape) (pred_boxes : grid box)
    (pred_cls : grid (list Q)) (anchors : list (Q * Q)) (ignore_thres : Q) :
  anchors <> [] -> nC sh <> 0%nat ->
  exists out,
    build_targets log sh pred_boxes pred_cls [] anchors ignore_thres = Done out
    /\ forall k,
         obj_mask out k = 0%Z /\ noobj_mask out k = 1%Z
         /\ tx out k = 0 /\ ty out k = 0 /\ tw out k = 0 /\ th out k = 0
         /\ class_mask out k = 0 /\ iou_scores out k = 0 /\ tconf out k = 0
         /\ forall c, tcls out k c = 0.
Proof.
  intros Hne HnC. unfold build_targets.
  destruct anchors as [|a anchors]; [congruence|].
  simpl. destruct (nC sh); [congruence|].
  simpl. eexists. split; [reflexivity|].
  intro k. repeat split.
Qed.

Lemma build_targets_no_targets_witness :
  exists out,
    build_targets (fun q => q) small_shape (fill (Box 0 0 0 0)) (fill flat_scores)
                  [] three_anchors (1 # 2)
    = Done out
    /\ forall k,
         obj_mask out k = 0%Z /\ noobj_mask out k = 1%Z
         /\ tx out k = 0 /\ ty out k = 0 /\ tw out k = 0 /\ th out k = 0
         /\ class_mask out k = 0 /\ iou_scores out k = 0 /\ tconf out k = 0
         /\ forall c, tcls out k c = 0.
Proof.
  apply (build_targets_no_targets (fun q => q) small_shape (fill (Box 0 0 0 0))
           (fill flat_scores) three_anchors (1 # 2)); discriminate.
Defined.

Lemma index_put_fails {A : Type} (sh : shape) (writes : list (index * A)) :
  forall g,
    (exists w, In w writes /\ locate sh (fst w) = None) ->
    index_put sh g writes = Raised IndexOutOfRange.
Proof.
  induction writes as [|[k v] writes IH]; intros g (w & Hw & Hnone); [destruct Hw|].
  simpl. destruct (locate sh k) as [k'|] eqn:E; [|reflexivity].
  cbn [of_option bind]. apply IH.
  destruct Hw as [<-|Hw]; [simpl in Hnone; congruence|].
  exists w. auto.
Qed.

Lemma norm_index_beyond (n : nat) (i : Z) : (Z.of_nat n <= i)%Z -> norm_index n i = None.
Proof.
  intro H. unfold norm_index.
  replace ((i <? Z.of_nat n)%Z) with false by (symmetry; apply Z.ltb_ge; lia).
  replace ((i <? 0)%Z) with false by (symmetry; apply Z.ltb_ge; lia).
  rewrite !andb_false_r. reflexivity.
Qed.

(** X22: a ground-truth row whose normalized centre has [x >= 1] (a centre
    on or beyond the right border) makes [build_targets] raise an index
    error, whatever the other rows are, as soon as the anchor set is not
    empty: its column index [gi] is the grid size or more. *)
Theorem build_targets_centre_on_border (log : Q -> Q) (sh : shape) (pred_boxes : grid box)
    (pred_cls : grid (list Q)) (target : list target_row) (anchors : list (Q * Q))
    (ignore_thres : Q) (t : target_row) :
  anchors <> [] -> In t target -> 1 <= c0 (t_box t) ->
  build_targets log sh pred_boxes pred_cls target anchors ignore_thres
  = Raised IndexOutOfRange.
Proof.
  intros Hne Ht Hx. unfold build_targets.
  replace (match anchors with
           | [] => Raised EmptyStack
           | _ :: _ =>
               Done (map (fun anchor => bbox_wh_iou anchor
                           (map (fun b => (c2 b, c3 b)) (map (scale_box sh) target)))
                         anchors)
           end)
    with (Done (map (fun anchor => bbox_wh_iou anchor
                           (map (fun b => (c2 b, c3 b)) (map (scale_box sh) target)))
                    anchors))
    by (destruct anchors; [congruence | reflexivity]).
  cbn [bind].
  replace (length target)
    with (length (map (fun b => (c2 b, c3 b)) (map (scale_box sh) target)))
    by (rewrite !length_map; reflexivity).
  rewrite transpose_ious.
  destruct (best_columns anchors
              (map (fun b => (c2 b, c3 b)) (map (scale_box sh) target)) Hne)
    as (best & Hbest & Hsnd).
  rewrite Hbest. cbn [bind]. rewrite Hsnd. clear Hbest Hsnd best.
  rewrite !map_map. cbn [fst snd]. rewrite zip4_map.
  rewrite (index_put_fails sh _ (fill 0%Z)); [reflexivity|].
  exists (raw_cell sh anchors t, 1%Z). split.
  - rewrite map_map. apply in_map_iff. exists t. split; [reflexivity | exact Ht].
  - cbn [fst]. unfold raw_cell, locate.
    assert (Hgx : 0 <= c0 (scale_box sh t)
                  /\ inject_Z (Z.of_nat (nG sh)) <= c0 (scale_box sh t)).
    { unfold scale_box. cbn [c0].
      assert (inject_Z 0 <= inject_Z (Z.of_nat (nG sh))) by (rewrite <- Zle_Qle; lia).
      change (inject_Z 0) with 0 in H.
      split; nra. }
    destruct Hgx as [H0 Hn].
    rewrite (Qtrunc_floor _ H0).
    rewrite (norm_index_beyond (nG sh) (Qfloor (c0 (scale_box sh t)))).
    + repeat match goal with
             | |- context [match norm_index ?n ?i with _ => _ end] =>
                 destruct (norm_index n i)
             end; reflexivity.
    + rewrite <- (Qfloor_Z (Z.of_nat (nG sh))). apply Qfloor_resp_le. exact Hn.
Qed.

Lemma build_targets_centre_on_border_witness :
  build_targets (fun q => q) small_shape (fill (Box 0 0 0 0)) (fill flat_scores)
                [Target 0 0 (Box 1 (1 # 2) (1 # 4) (1 # 4))] three_anchors (1 # 2)
  = Raised IndexOutOfRange.
Proof.
  apply (build_targets_centre_on_border (fun q => q) small_shape (fill (Box 0 0 0 0))
           (fill flat_scores) _ three_anchors (1 # 2)
           (Target 0 0 (Box 1 (1 # 2) (1 # 4) (1 # 4)))).
  - discriminate.
  - left. reflexivity.
  - vm_compute. discriminate.
Defined.

(** ** [rescale_boxes] *)

Lemma Forall2_map_r {A B : Type} (P : A -> B -> Prop) (f : A -> B) (l : list A) :
  (forall a, In a l -> P a (f a)) -> Forall2 P l (map f l).
Proof.
  induction l as [|a l IH]; intro H; simpl; constructor.
  - apply H. left. reflexivity.
  - apply IH. intros a' Ha'. apply H. right. exact Ha'.
Qed.



(** On a square image no padding is removed: [rescale_boxes] multiplies
    every coordinate by [orig / current_dim] and keeps the other columns. *)
Theorem rescale_boxes_square (boxes : list detection) (current_dim orig : Z) :
  (0 < current_dim)%Z -> (0 < orig)%Z ->
  exists boxes',
    rescale_boxes boxes current_dim (orig, orig) = Some boxes'
    /\ Forall2 (scaled_by (inject_Z orig / inject_Z current_dim)) boxes boxes'.
Proof.
  intros Hcd Ho. unfold rescale_boxes.
  rewrite Z.max_id, Z.sub_diag. change (Z.max 0 0) with 0%Z.
  replace ((orig =? 0)%Z) with false by (symmetry; apply Z.eqb_neq; lia).
  assert (Hc : 0 < inject_Z current_dim)
    by (change 0 with (inject_Z 0); rewrite <- Zlt_Qlt; lia).
  assert (Hq : 0 < inject_Z orig)
    by (change 0 with (inject_Z 0); rewrite <- Zlt_Qlt; lia).
  set (cd := inject_Z current_dim) in *. set (o := inject_Z orig) in *.
  assert (Hf : floor_half (inject_Z 0 * (cd / o)) == 0).
  { unfold floor_half.
    assert (E : inject_Z 0 * (cd / o) / 2 == inject_Z 0) by (field; lra).
    rewrite E, Qfloor_Z. reflexivity. }
  assert (Hs : forall a, (a - floor_half (inject_Z 0 * (cd / o)))
                         / (cd - inject_Z 0 * (cd / o)) * o == a * (o / cd)).
  { intro a. rewrite Hf. field. split; [lra|].
    change (inject_Z 0) with 0. field_simplify (cd - 0 * (cd / o)); lra. }
  eexists. split; [reflexivity|].
  apply Forall2_map_r. intros d _. unfold scaled_by.
  cbn [set_box d_box c0 c1 c2 c3 d_conf d_cls_conf d_cls_pred].
  repeat (split; [apply Hs|]). auto.
Qed.

Lemma rescale_boxes_square_witness :
  exists boxes',
    rescale_boxes [Detection (Box 104 52 312 156) (9 # 10) (8 # 10) 1] 416%Z (832%Z, 832%Z)
      = Some boxes'
    /\ Forall2 (scaled_by (inject_Z 832 / inject_Z 416))
         [Detection (Box 104 52 312 156) (9 # 10) (8 # 10) 1] boxes'.
Proof.
  apply (rescale_boxes_square
           [Detection (Box 104 52 312 156) (9 # 10) (8 # 10) 1] 416%Z 832%Z); lia.
Defined.

(** ** Text files *)

Lemma split_nonempty (sep : Ascii.ascii) (s : text) : split sep s <> [].
Proof.
  destruct s as [|c s]; simpl; [discriminate|].
  destruct (Ascii.eqb c sep); [discriminate|].
  destruct (split sep s); discriminate.
Qed.

Lemma split_app (sep : Ascii.ascii) (a b : text) :
  split sep (a ++ sep :: b) = split sep a ++ split sep b.
Proof.
  induction a as [|c a IH]; simpl.
  - rewrite Ascii.eqb_refl. reflexivity.
  - destruct (Ascii.eqb c sep); [rewrite IH; reflexivity|].
    rewrite IH. pose proof (split_nonempty sep a) as Hne.
    destruct (split sep a) as [|w ws]; [contradiction|]. reflexivity.
Qed.

Lemma split_no_sep (sep : Ascii.ascii) (w : text) : ~ In sep w -> split sep w = [w].
Proof.
  induction w as [|c w IH]; intro H; simpl; [reflexivity|].
  destruct (Ascii.eqb_spec c sep) as [->|_]; [exfalso; apply H; left; reflexivity|].
  rewrite IH; [reflexivity|]. intro Hin. apply H. right. exact Hin.
Qed.

Lemma join_split (sep : Ascii.ascii) (s : text) : join sep (split sep s) = s.
Proof.
  induction s as [|c s IH]; simpl; [reflexivity|].
  pose proof (split_nonempty sep s) as Hne.
  destruct (Ascii.eqb_spec c sep) as [->|_].
  - destruct (split sep s) as [|w ws]; [contradiction|].
    change (join sep ([] :: w :: ws)) with (sep :: join sep (w :: ws)).
    rewrite IH. reflexivity.
  - destruct (split sep s) as [|w ws]; [contradiction|].
    destruct ws as [|w' ws].
    + simpl in IH. simpl. rewrite IH. reflexivity.
    + change (join sep ((c :: w) :: w' :: ws)) with (c :: join sep (w :: w' :: ws)).
      rewrite IH. reflexivity.
Qed.

Lemma length_split (sep : Ascii.ascii) (s : text) :
  length (split sep s) = S (count_occ Ascii.ascii_dec s sep).
Proof.
  induction s as [|c s IH]; simpl; [reflexivity|].
  pose proof (split_nonempty sep s) as Hne.
  destruct (Ascii.eqb_spec c sep) as [->|Hc].
  - destruct (Ascii.ascii_dec sep sep) as [_|N]; [|contradiction].
    simpl. rewrite IH. reflexivity.
  - destruct (Ascii.ascii_dec c sep) as [E|_]; [contradiction|].
    destruct (split sep s) as [|w ws]; [contradiction|]. exact IH.
Qed.

Lemma split_free (sep : Ascii.ascii) (s : text) :
  Forall (fun w => ~ In sep w) (split sep s).
Proof.
  induction s as [|c s IH]; simpl.
  - constructor; [intros []|constructor].
  - destruct (Ascii.eqb_spec c sep) as [->|Hc].
    + constructor; [intros []|exact IH].
    + destruct (split sep s) as [|w ws]; [constructor; [|constructor]|].
      * intros [E|[]]. apply Hc. exact E.
      * inversion IH as [|? ? Hw Hws]; subst. constructor; [|exact Hws].
        intros [E|Hin]; [apply Hc; exact E|apply Hw; exact Hin].
Qed.

Lemma Forall_removelast {A : Type} (P : A -> Prop) (l : list A) :
  Forall P l -> Forall P (removelast l).
Proof.
  induction 1 as [|a l Ha Hl IH]; simpl; [constructor|].
  destruct l; [constructor|]. constructor; assumption.
Qed.

Lemma names_file_cons (c : text) (cs : list text) :
  names_file (c :: cs) = c ++ newline :: names_file cs.
Proof. unfold names_file. simpl. rewrite <- app_assoc. reflexivity. Qed.

Lemma names_file_app (l1 l2 : list text) :
  names_file (l1 ++ l2) = names_file l1 ++ names_file l2.
Proof. unfold names_file. rewrite map_app, concat_app. reflexivity. Qed.

(** A text is its terminated lines followed by what comes after the last
    newline. *)
Lemma split_decomposition (s : text) :
  s = names_file (removelast (split newline s)) ++ last (split newline s) [].
Proof.
  induction s as [|c s IH]; [reflexivity|].
  pose proof (split_nonempty newline s) as Hne. simpl split.
  destruct (Ascii.eqb_spec c newline) as [->|_].
  - destruct (split newline s) as [|w ws] eqn:E; [contradiction|].
    change (removelast ([] :: w :: ws)) with ([] :: removelast (w :: ws)).
    change (last ([] :: w :: ws) []) with (last (w :: ws) []).
    rewrite names_file_cons. simpl. f_equal. exact IH.
  - destruct (split newline s) as [|w ws] eqn:E; [contradiction|].
    destruct ws as [|w' ws].
    + simpl in IH. simpl. f_equal. exact IH.
    + change (removelast ((c :: w) :: w' :: ws)) with ((c :: w) :: removelast (w' :: ws)).
      change (last ((c :: w) :: w' :: ws) []) with (last (w' :: ws) []).
      change (removelast (w :: w' :: ws)) with (w :: removelast (w' :: ws)) in IH.
      change (last (w :: w' :: ws) []) with (last (w' :: ws) []) in IH.
      rewrite names_file_cons in *. simpl. f_equal. exact IH.
Qed.

Lemma names_file_tail (l : list text) :
  names_file l = [] \/ exists before, names_file l = before ++ [newline].
Proof.
  induction l as [|c cs IH]; [left; reflexivity|right].
  rewrite names_file_cons. destruct IH as [->|[before ->]].
  - exists c. reflexivity.
  - exists (c ++ newline :: before). rewrite <- app_assoc. reflexivity.
Qed.

Lemma In_load_classes (content line : text) :
  In line (load_classes content) <-> terminated_line content line.
Proof.
  unfold load_classes, terminated_line. split.
  - intro Hin. split.
    + pose proof (Forall_removelast _ _ (split_free newline content)) as Hf.
      rewrite Forall_forall in Hf. apply Hf. exact Hin.
    + apply in_split in Hin. destruct Hin as [l1 [l2 E]].
      exists (names_file l1), (names_file l2 ++ last (split newline content) []).
      split; [|apply names_file_tail].
      rewrite (split_decomposition content) at 1.
      rewrite E, names_file_app, names_file_cons, <- !app_assoc. reflexivity.
  - intros [Hfree [before [after [-> Hb]]]].
    assert (Hl : forall a, removelast (split newline (line ++ newline :: a))
                           = line :: removelast (split newline a)).
    { intro a. rewrite split_app, (split_no_sep _ _ Hfree).
      pose proof (split_nonempty newline a) as Hne.
      simpl. destruct (split newline a); [contradiction|reflexivity]. }
    destruct Hb as [->|[before' ->]].
    + simpl app. rewrite Hl. left. reflexivity.
    + rewrite <- app_assoc. simpl app. rewrite split_app.
      rewrite removelast_app by apply split_nonempty.
      apply in_or_app. right. rewrite Hl. left. reflexivity.
Qed.

Lemma load_classes_written (classes : list text) :
  Forall (fun class_name => ~ In newline class_name) classes ->
  load_classes (names_file classes) = classes.
Proof.
  unfold load_classes. induction 1 as [|c cs Hc Hcs IH]; [reflexivity|].
  rewrite names_file_cons, split_app, (split_no_sep _ _ Hc).
  pose proof (split_nonempty newline (names_file cs)) as Hne.
  simpl. destruct (split newline (names_file cs)) eqn:E; [contradiction|].
  f_equal. exact IH.
Qed.

(** Text mode gives back what was written, when no carriage return was
    written. *)
Lemma read_write_text (linesep s : text) :
  platform_linesep linesep -> ~ In carriage_return s ->
  read_text (write_text linesep s) = s.
Proof.
  intros Hsep. induction s as [|c s IH]; intro Hcr; [reflexivity|].
  assert (Hc : c <> carriage_return) by (intro E; apply Hcr; left; exact E).
  assert (Hs : ~ In carriage_return s) by (intro H; apply Hcr; right; exact H).
  specialize (IH Hs). unfold write_text in *. cbn [flat_map].
  destruct (Ascii.eqb_spec c newline) as [->|Hn].
  - destruct Hsep as [->| ->]; cbn [app read_text].
    + change (Ascii.eqb newline carriage_return) with false. cbv iota.
      rewrite IH. reflexivity.
    + rewrite Ascii.eqb_refl. cbv iota. rewrite Ascii.eqb_refl. rewrite IH. reflexivity.
  - cbn [app read_text].
    destruct (Ascii.eqb_spec c carriage_return) as [E|_]; [contradiction|].
    rewrite IH. reflexivity.
Qed.

Lemma names_file_no_carriage_return (classes : list text) :
  Forall plain_name classes -> ~ In carriage_return (names_file classes).
Proof.
  induction 1 as [|c cs Hc Hcs IH]; [intros []|].
  rewrite names_file_cons. intro Hin. apply in_app_or in Hin.
  destruct Hin as [Hin|[E|Hin]].
  - unfold plain_name in Hc. rewrite Forall_forall in Hc.
    destruct (Hc _ Hin) as (_ & Hcr & _). apply Hcr. reflexivity.
  - discriminate E.
  - apply IH. exact Hin.
Qed.

(** X25: [load_classes] reads back what the [obj.names] writer of
    [generate_yolo_train_test_files] wrote, on either kind of platform: the
    class names, in order, as long as the names are made of 7-bit characters
    and contain no newline and no carriage return.  (Text mode turns a
    carriage return into a newline when the file is read, which would split
    a name.) *)
Theorem load_classes_names_file (linesep : text) (classes : list text) :
  platform_linesep linesep ->
  Forall plain_name classes ->
  load_classes (read_text (write_text linesep (names_file classes))) = classes.
Proof.
  intros Hsep Hplain.
  rewrite (read_write_text linesep _ Hsep (names_file_no_carriage_return _ Hplain)).
  apply load_classes_written.
  apply Forall_forall. intros name Hname Hin.
  rewrite Forall_forall in Hplain. specialize (Hplain name Hname).
  unfold plain_name in Hplain. rewrite Forall_forall in Hplain.
  destruct (Hplain _ Hin) as (Hn & _). apply Hn. reflexivity.
Qed.

Lemma load_classes_names_file_witness :
  load_classes
    (read_text
       (write_text [carriage_return; newline]
          (names_file
             [[Ascii.ascii_of_nat 99; Ascii.ascii_of_nat 97; Ascii.ascii_of_nat 116];
              [Ascii.ascii_of_nat 100; Ascii.ascii_of_nat 111; Ascii.ascii_of_nat 103]])))
  = [[Ascii.ascii_of_nat 99; Ascii.ascii_of_nat 97; Ascii.ascii_of_nat 116];
     [Ascii.ascii_of_nat 100; Ascii.ascii_of_nat 111; Ascii.ascii_of_nat 103]].
Proof.
  apply (load_classes_names_file [carriage_return; newline]
           [[Ascii.ascii_of_nat 99; Ascii.ascii_of_nat 97; Ascii.ascii_of_nat 116];
            [Ascii.ascii_of_nat 100; Ascii.ascii_of_nat 111; Ascii.ascii_of_nat 103]]).
  - right. reflexivity.
  - repeat constructor; try discriminate; vm_compute; lia.
Defined.

(** A carriage return inside a name does not survive the file: the name
    comes back as two names. *)
Lemma carriage_return_splits_name :
  load_classes
    (read_text
       (write_text [newline]
          (names_file [[Ascii.ascii_of_nat 97; carriage_return; Ascii.ascii_of_nat 98]])))
  = [[Ascii.ascii_of_nat 97]; [Ascii.ascii_of_nat 98]].
Proof. reflexivity. Qed.

(** X26: [load_classes] returns exactly the lines that end with a newline:
    the content is these lines, each followed by its newline, and then a rest
    without newline, which is dropped.  A last line that is not terminated is
    lost, and there are as many names as newlines. *)
Theorem load_classes_terminated_lines (content : text) :
  Forall (fun name => ~ In newline name) (load_classes content)
  /\ length (load_classes content) = count_occ Ascii.ascii_dec content newline
  /\ exists rest, ~ In newline rest
                  /\ content = names_file (load_classes content) ++ rest.
Proof.
  unfold load_classes. split; [|split].
  - apply Forall_removelast, split_free.
  - pose proof (length_split newline content) as Hl.
    pose proof (split_nonempty newline content) as Hne.
    destruct (split newline content) as [|w ws] using rev_ind; [contradiction|].
    rewrite removelast_last. rewrite length_app in Hl. simpl in Hl. lia.
  - exists (last (split newline content) []). split; [|apply split_decomposition].
    pose proof (split_free newline content) as Hf.
    pose proof (split_nonempty newline content) as Hne.
    destruct (split newline content) as [|w ws] using rev_ind; [contradiction|].
    rewrite last_last. apply Forall_app in Hf. destruct Hf as [_ Hf].
    inversion Hf; subst. assumption.
Qed.

Lemma wide_fields (line : text) :
  (5 <? length (split space line))%nat = true <-> wide line.
Proof. unfold wide. rewrite length_split, Nat.ltb_lt. lia. Qed.

Lemma normalize_lines_narrow (lines out : list text) (n : nat) :
  Forall (fun line => ~ wide line) lines ->
  normalize_lines lines out n = inr (out ++ lines, n).
Proof.
  intro H. revert out. induction H as [|line lines Hl Hls IH]; intro out; simpl.
  - rewrite app_nil_r. reflexivity.
  - unfold normalize_line.
    destruct (5 <? length (split space line))%nat eqn:E;
      [exfalso; apply Hl, wide_fields; exact E|].
    rewrite join_split, IH, <- app_assoc. reflexivity.
Qed.

Lemma normalize_lines_wide (lines out : list text) (n : nat) :
  Exists wide lines -> exists e, normalize_lines lines out n = inl e.
Proof.
  intro H. revert out. induction lines as [|line lines IH]; intro out;
    [inversion H|]. simpl. unfold normalize_line.
  destruct (5 <? length (split space line))%nat eqn:E.
  - destruct ((length (split space line) - 1) mod 4 =? 0)%nat; eexists; reflexivity.
  - apply IH. inversion H as [? ? Hw|? ? Hw]; subst; [|exact Hw].
    apply wide_fields in Hw. congruence.
Qed.

Lemma wide_dec (line : text) : {wide line} + {~ wide line}.
Proof. unfold wide. apply le_dec. Qed.

Lemma cut_load_classes (content : text) :
  cut_at_last_newline content (join newline (load_classes content)).
Proof.
  unfold cut_at_last_newline, load_classes. split.
  - intros body tail -> Hfree.
    rewrite split_app, (split_no_sep _ _ Hfree).
    rewrite removelast_app by discriminate. simpl. rewrite app_nil_r.
    apply join_split.
  - intro Hfree. rewrite (split_no_sep _ _ Hfree). reflexivity.
Qed.

(** The run of the loop over the files, by whether a matching file has a
    wide line. *)
Lemma normalize_files_run (matches : text -> bool) (files : directory) (n : nat) :
  (Forall (fun f => matches (fst f) = true ->
                    Forall (fun line => ~ wide line) (load_classes (snd f))) files
   /\ exists files', normalize_files matches files n = (files', inr n)
                     /\ Forall2 (rewritten matches) files files')
  \/ (exists done file content rest done' e,
        files = done ++ (file, content) :: rest
        /\ matches file = true /\ Exists wide (load_classes content)
        /\ normalize_files matches files n = (done' ++ (file, content) :: rest, inl e)
        /\ Forall2 (rewritten matches) done done'
        /\ Forall (fun f => matches (fst f) = true ->
                            Forall (fun line => ~ wide line) (load_classes (snd f))) done).
Proof.
  induction files as [|[file content] files IH].
  - left. split; [constructor|]. exists []. split; [reflexivity|constructor].
  - cbn [normalize_files]. destruct (matches file) eqn:Em.
    + destruct (Forall_Exists_dec (fun line => ~ wide line)
                  (fun line => match wide_dec line with
                               | left w => right (fun nw => nw w)
                               | right nw => left nw
                               end)
                  (load_classes content)) as [Hn|Hw].
      * fold (load_classes content).
        rewrite (normalize_lines_narrow _ [] n Hn). cbn [app].
        destruct IH as [[Hall [files' [-> HF]]]
                       |[done [file' [content' [rest [done' [e
                           [-> [Hm [Hex [-> [HF Hd]]]]]]]]]]]].
        -- left. split; [constructor; [intros _; exact Hn|exact Hall]|].
           eexists. split; [reflexivity|]. constructor; [|exact HF].
           unfold rewritten. cbn [fst snd]. rewrite Em.
           split; [reflexivity|apply cut_load_classes].
        -- right.
           exists ((file, content) :: done), file', content', rest,
             ((file, join newline (load_classes content)) :: done'), e.
           split; [reflexivity|]. split; [exact Hm|]. split; [exact Hex|].
           split; [reflexivity|]. split.
           ++ constructor; [|exact HF].
              unfold rewritten. cbn [fst snd]. rewrite Em.
              split; [reflexivity|apply cut_load_classes].
           ++ constructor; [intros _; exact Hn|exact Hd].
      * assert (Hw' : Exists wide (load_classes content)).
        { apply Exists_exists. apply Exists_exists in Hw.
          destruct Hw as [line [Hin Hnn]]. exists line. split; [exact Hin|].
          destruct (wide_dec line) as [w|nw]; [exact w|contradiction]. }
        fold (load_classes content).
        destruct (normalize_lines_wide _ [] n Hw') as [e ->].
        right. exists [], file, content, files, [], e.
        split; [reflexivity|]. split; [exact Em|]. split; [exact Hw'|].
        split; [reflexivity|]. split; constructor.
    + destruct IH as [[Hall [files' [-> HF]]]
                     |[done [file' [content' [rest [done' [e
                         [-> [Hm [Hex [-> [HF Hd]]]]]]]]]]]].
      * left. split; [constructor; [cbn [fst]; congruence|exact Hall]|].
        eexists. split; [reflexivity|]. constructor; [|exact HF].
        unfold rewritten. cbn [fst snd]. rewrite Em. split; reflexivity.
      * right.
        exists ((file, content) :: done), file', content', rest,
          ((file, content) :: done'), e.
        split; [reflexivity|]. split; [exact Hm|]. split; [exact Hex|].
        split; [reflexivity|]. split.
        -- constructor; [|exact HF].
           unfold rewritten. cbn [fst snd]. rewrite Em. split; reflexivity.
        -- constructor; [cbn [fst]; congruence|exact Hd].
Qed.

(** X27: when [normalize_cvat_labels] returns, the count it returns is 0, no
    terminated line of a matching file had more than five fields, and every
    matching file holds its old content cut at the last newline (a file
    without newline is left empty); the other files are unchanged.  So the
    function never splits a line, and it removes the final newline of every
    file it rewrites. *)
Theorem normalize_cvat_labels_returns (matches : text -> bool) (files files' : directory)
    (lines_changed : nat) :
  normalize_cvat_labels matches files = (files', inr lines_changed) ->
  lines_changed = 0%nat
  /\ Forall2 (rewritten matches) files files'
  /\ forall file content line,
       In (file, content) files -> matches file = true ->
       terminated_line content line -> ~ wide line.
Proof.
  unfold normalize_cvat_labels. intro H.
  destruct (normalize_files_run matches files 0)
    as [[Hall [files0 [E HF]]]
       |[done [file' [content' [rest [done' [e [_ [_ [_ [E _]]]]]]]]]]];
    rewrite E in H; [|discriminate].
  injection H as <- <-. split; [reflexivity|]. split; [exact HF|].
  intros file content line Hin Hm Hl. rewrite Forall_forall in Hall.
  specialize (Hall _ Hin Hm). cbn [snd] in Hall. rewrite Forall_forall in Hall.
  apply Hall. apply In_load_classes. exact Hl.
Qed.

Lemma normalize_cvat_labels_returns_witness :
  0%nat = 0%nat
  /\ Forall2 (rewritten (fun _ => true))
       [([Ascii.ascii_of_nat 97],
         [Ascii.ascii_of_nat 48; space; Ascii.ascii_of_nat 49; newline])]
       [([Ascii.ascii_of_nat 97],
         [Ascii.ascii_of_nat 48; space; Ascii.ascii_of_nat 49])]
  /\ forall file content line,
       In (file, content)
          [([Ascii.ascii_of_nat 97],
            [Ascii.ascii_of_nat 48; space; Ascii.ascii_of_nat 49; newline])] ->
       (fun _ : text => true) file = true ->
       terminated_line content line -> ~ wide line.
Proof.
  apply (normalize_cvat_labels_returns (fun _ => true)
           [([Ascii.ascii_of_nat 97],
             [Ascii.ascii_of_nat 48; space; Ascii.ascii_of_nat 49; newline])]).
  reflexivity.
Defined.

(** X28: [normalize_cvat_labels] raises as soon as a matching file has a
    terminated line with more than five fields, the lines it is meant to
    split, and no count is returned.  The run stops at the first matching
    file that has such a line: the files listed before it are already
    rewritten, it and the files after it are left as they were. *)
Theorem normalize_cvat_labels_raises (matches : text -> bool) (files : directory)
    (file content line : text) :
  In (file, content) files -> matches file = true ->
  terminated_line content line -> wide line ->
  exists done file' content' line' rest done' e,
    files = done ++ (file', content') :: rest
    /\ matches file' = true /\ terminated_line content' line' /\ wide line'
    /\ normalize_cvat_labels matches files = (done' ++ (file', content') :: rest, inl e)
    /\ Forall2 (rewritten matches) done done'
    /\ forall f c l, In (f, c) done -> matches f = true ->
         terminated_line c l -> ~ wide l.
Proof.
  unfold normalize_cvat_labels. intros Hin Hm Hl Hw.
  destruct (normalize_files_run matches files 0)
    as [[Hall _]
       |[done [file' [content' [rest [done' [e [E1 [Hm' [Hex [E2 [HF Hd]]]]]]]]]]]].
  - exfalso. rewrite Forall_forall in Hall. specialize (Hall _ Hin Hm).
    cbn [snd] in Hall. rewrite Forall_forall in Hall.
    apply (Hall line); [apply In_load_classes; exact Hl|exact Hw].
  - apply Exists_exists in Hex. destruct Hex as [line' [Hin' Hw']].
    exists done, file', content', line', rest, done', e.
    split; [exact E1|]. split; [exact Hm'|].
    split; [apply In_load_classes; exact Hin'|]. split; [exact Hw'|].
    split; [exact E2|]. split; [exact HF|].
    intros f c l Hf Hmf Hlf. rewrite Forall_forall in Hd.
    specialize (Hd _ Hf Hmf). cbn [snd] in Hd. rewrite Forall_forall in Hd.
    apply Hd. apply In_load_classes. exact Hlf.
Qed.

Lemma normalize_cvat_labels_raises_witness :
  exists done file' content' line' rest done' e,
    [([Ascii.ascii_of_nat 97],
      [Ascii.ascii_of_nat 48; space; space; space; space; space; newline])]
    = done ++ (file', content') :: rest
    /\ (fun _ : text => true) file' = true
    /\ terminated_line content' line' /\ wide line'
    /\ normalize_cvat_labels (fun _ => true)
         [([Ascii.ascii_of_nat 97],
           [Ascii.ascii_of_nat 48; space; space; space; space; space; newline])]
       = (done' ++ (file', content') :: rest, inl e)
    /\ Forall2 (rewritten (fun _ => true)) done done'
    /\ forall f c l, In (f, c) done -> (fun _ : text => true) f = true ->
         terminated_line c l -> ~ wide l.
Proof.
  apply (normalize_cvat_labels_raises (fun _ => true)
           [([Ascii.ascii_of_nat 97],
             [Ascii.ascii_of_nat 48; space; space; space; space; space; newline])]
           [Ascii.ascii_of_nat 97]
           [Ascii.ascii_of_nat 48; space; space; space; space; space; newline]
           [Ascii.ascii_of_nat 48; space; space; space; space; space]).
  - left. reflexivity.
  - reflexivity.
  - split.
    + intro H. simpl in H. repeat destruct H as [H|H]; discriminate || exact H.
    + exists [], []. split; [reflexivity|left; reflexivity].
  - unfold wide. vm_compute. lia.
Defined.

(** ** [ap_per_class]: precision and recall of a class *)

(** The flags of the rows of class [c], on rows that pair a flag with a
    class. *)
Lemma select_pairs (c : Z) (rows : list (Q * Z)) :
  select (map (Z.eqb c) (map snd rows)) (map fst rows)
  = map fst (filter (fun r => Z.eqb c (snd r)) rows).
Proof.
  induction rows as [|[t k] rows IH]; simpl; [reflexivity|].
  destruct (c =? k)%Z; simpl; rewrite IH; reflexivity.
Qed.

Lemma insert_by_map {A B : Type} (f : A -> B) (k : Q) (a : A) (l : list (Q * A)) :
  insert_by k (f a) (map (fun p => (fst p, f (snd p))) l)
  = map (fun p => (fst p, f (snd p))) (insert_by k a l).
Proof.
  induction l as [|[k' a'] l IH]; simpl; [reflexivity|].
  destruct (Qle_bool k k'); simpl; [reflexivity|]. rewrite IH. reflexivity.
Qed.

Lemma sort_pairs_map {A B : Type} (f : A -> B) (l : list (Q * A)) :
  sort_pairs (map (fun p => (fst p, f (snd p))) l)
  = map (fun p => (fst p, f (snd p))) (sort_pairs l).
Proof.
  unfold sort_pairs. induction l as [|[k a] l IH]; simpl; [reflexivity|].
  rewrite IH. apply insert_by_map.
Qed.

Lemma combine_map_r {A B : Type} (f : A -> B) (keys : list Q) (rows : list A) :
  combine keys (map f rows) = map (fun p => (fst p, f (snd p))) (combine keys rows).
Proof.
  revert rows. induction keys as [|k keys IH]; intros [|r rows]; simpl;
    try reflexivity. rewrite IH. reflexivity.
Qed.

(** Sorting a column of a table is sorting the table and taking the
    column. *)
Lemma argsort_apply_map {A B : Type} (f : A -> B) (keys : list Q) (rows : list A) :
  argsort_apply keys (map f rows) = map f (argsort_apply keys rows).
Proof.
  unfold argsort_apply. rewrite combine_map_r, sort_pairs_map, !map_map. reflexivity.
Qed.

Lemma map_fst_combine {A B : Type} (a : list A) (b : list B) :
  length a = length b -> map fst (combine a b) = a.
Proof.
  revert b. induction a as [|x a IH]; intros [|y b] H; simpl in *;
    try reflexivity; try discriminate. rewrite IH by lia. reflexivity.
Qed.

Lemma map_snd_combine {A B : Type} (a : list A) (b : list B) :
  length a = length b -> map snd (combine a b) = b.
Proof.
  revert b. induction a as [|x a IH]; intros [|y b] H; simpl in *;
    try reflexivity; try discriminate. rewrite IH by lia. reflexivity.
Qed.

(** Sum and number of the selected payloads do not depend on the order the
    sort gives the rows. *)
Lemma insert_by_selected {A : Type} (g : A -> bool) (f : A -> Q) (k : Q) (a : A)
    (l : list (Q * A)) :
  qsum (map f (filter g (map snd (insert_by k a l))))
  == qsum (map f (filter g (a :: map snd l)))
  /\ length (filter g (map snd (insert_by k a l))) = length (filter g (a :: map snd l)).
Proof.
  induction l as [|[k' a'] l [IHs IHl]]; [split; reflexivity|].
  cbn [insert_by]. destruct (Qle_bool k k'); [split; reflexivity|].
  cbn [map snd filter] in *.
  destruct (g a'), (g a); cbn [map length] in *; rewrite ?qsum_cons in *;
    split; try (rewrite IHs; ring); try lia; try exact IHs.
Qed.

Lemma sort_pairs_selected {A : Type} (g : A -> bool) (f : A -> Q) (l : list (Q * A)) :
  qsum (map f (filter g (map snd (sort_pairs l))))
  == qsum (map f (filter g (map snd l)))
  /\ length (filter g (map snd (sort_pairs l))) = length (filter g (map snd l)).
Proof.
  unfold sort_pairs. induction l as [|[k a] l [IHs IHl]]; [split; reflexivity|].
  cbn [fold_right fst snd map].
  destruct (insert_by_selected g f k a
              (fold_right (fun ka acc => insert_by (fst ka) (snd ka) acc) [] l))
    as [Hs Hl].
  rewrite Hs, Hl. cbn [filter].
  destruct (g a); cbn [map length]; rewrite ?qsum_cons; split;
    try (rewrite IHs; reflexivity); try lia; try exact IHs.
Qed.

Lemma last_cumsum_from (l : list Q) :
  forall acc d, l <> [] -> last (cumsum_from acc l) d == acc + qsum l.
Proof.
  induction l as [|x l IH]; intros acc d Hne; [contradiction|].
  destruct l as [|y l].
  - simpl. unfold qsum. simpl. ring.
  - change (cumsum_from acc (x :: y :: l))
      with ((acc + x) :: cumsum_from (acc + x) (y :: l)).
    change (last ((acc + x) :: cumsum_from (acc + x) (y :: l)) d)
      with (last (cumsum_from (acc + x) (y :: l)) d).
    rewrite IH by discriminate. rewrite (qsum_cons x). ring.
Qed.

Lemma length_cumsum_from (l : list Q) : forall acc, length (cumsum_from acc l) = length l.
Proof. induction l as [|x l IH]; intro acc; simpl; [|rewrite IH]; reflexivity. Qed.

Lemma last_map_nonempty {A B : Type} (f : A -> B) (l : list A) (d : A) (d' : B) :
  l <> [] -> last (map f l) d' = f (last l d).
Proof.
  induction l as [|x l IH]; intro Hne; [contradiction|].
  destruct l as [|y l]; [reflexivity|].
  change (last (map f (x :: y :: l)) d') with (last (map f (y :: l)) d').
  change (last (x :: y :: l) d) with (last (y :: l) d).
  apply IH. discriminate.
Qed.

Lemma last_zip_with {A B C : Type} (f : A -> B -> C) (l1 : list A) (l2 : list B)
    (d1 : A) (d2 : B) (d : C) :
  length l1 = length l2 -> l1 <> [] ->
  last (zip_with f l1 l2) d = f (last l1 d1) (last l2 d2).
Proof.
  revert l2. induction l1 as [|a l1 IH]; intros [|b l2] Hlen Hne;
    try contradiction; try discriminate.
  destruct l1 as [|a' l1]; destruct l2 as [|b' l2]; try discriminate;
    [reflexivity|].
  change (last (zip_with f (a :: a' :: l1) (b :: b' :: l2)) d)
    with (last (zip_with f (a' :: l1) (b' :: l2)) d).
  change (last (a :: a' :: l1) d1) with (last (a' :: l1) d1).
  change (last (b :: b' :: l2) d2) with (last (b' :: l2) d2).
  apply IH; [simpl in *; lia|discriminate].
Qed.

Lemma qsum_complement (l : list Q) :
  qsum (map (fun t => 1 - t) l) == inject_Z (Z.of_nat (length l)) - qsum l.
Proof.
  induction l as [|x l IH]; [reflexivity|].
  cbn [map length]. rewrite !qsum_cons, IH, Nat2Z.inj_succ.
  unfold Z.succ. rewrite inject_Z_plus. ring.
Qed.

Lemma count_eq_pairs (c : Z) (rows : list (Q * Z)) :
  count_eq c (map snd rows) = length (filter (fun r => Z.eqb c (snd r)) rows).
Proof.
  unfold count_eq. induction rows as [|[t k] rows IH]; simpl; [reflexivity|].
  destruct (c =? k)%Z; simpl; rewrite IH; reflexivity.
Qed.

(** The entry of a class that has predictions and ground truth. *)
Lemma class_entry_closed (rows : list (Q * Z)) (target_cls : list Z) (c : Z) :
  In c target_cls -> In c (map snd rows) ->
  exists ap p r,
    class_entry (map fst rows) (map snd rows) target_cls c = PR [ap] [p] [r]
    /\ p == qsum (map fst (filter (fun r => Z.eqb c (snd r)) rows))
            / inject_Z (Z.of_nat (length (filter (fun r => Z.eqb c (snd r)) rows)))
    /\ r == qsum (map fst (filter (fun r => Z.eqb c (snd r)) rows))
            / (inject_Z (Z.of_nat (count_eq c target_cls)) + eps).
Proof.
  intros Hgt Hp. unfold class_entry, class_body.
  rewrite count_true_map, select_pairs.
  assert (Hn : count_eq c target_cls <> 0%nat) by (rewrite count_eq_zero; tauto).
  assert (Hn' : count_eq c (map snd rows) <> 0%nat) by (rewrite count_eq_zero; tauto).
  apply Nat.eqb_neq in Hn, Hn'. rewrite Hn, Hn'. cbn [andb orb app].
  set (sel := map fst (filter (fun r => Z.eqb c (snd r)) rows)).
  assert (Hlen : length sel = count_eq c (map snd rows)).
  { unfold sel. rewrite length_map. symmetry. apply count_eq_pairs. }
  assert (Hsel : sel <> []).
  { apply Nat.eqb_neq in Hn'. intro E. rewrite E in Hlen. simpl in Hlen. lia. }
  assert (Hc : cumsum sel <> []).
  { unfold cumsum. destruct sel; [contradiction|discriminate]. }
  do 3 eexists. split; [reflexivity|]. split.
  - rewrite (last_zip_with _ _ _ 0 0).
    + unfold cumsum. rewrite !last_cumsum_from; [|destruct sel; [contradiction|discriminate]|exact Hsel].
      rewrite qsum_complement.
      assert (Hl : length sel = length (filter (fun r => Z.eqb c (snd r)) rows))
        by (unfold sel; apply length_map).
      rewrite Hl.
      set (N := inject_Z (Z.of_nat (length (filter (fun r => Z.eqb c (snd r)) rows)))).
      assert (E : 0 + qsum sel + (0 + (N - qsum sel)) == N) by ring.
      rewrite E, Qplus_0_l. reflexivity.
    + unfold cumsum. rewrite !length_cumsum_from, length_map. reflexivity.
    + exact Hc.
  - rewrite (last_map_nonempty _ _ 0) by exact Hc.
    unfold cumsum. rewrite last_cumsum_from by exact Hsel.
    rewrite Qplus_0_l. reflexivity.
Qed.

Lemma entries_nth (tp : list Q) (pred_cls target_cls : list Z) (classes : list Z) :
  (forall c, In c classes -> In c target_cls) ->
  forall i c, nth_error classes i = Some c ->
    exists ap p r,
      class_entry tp pred_cls target_cls c = PR [ap] [p] [r]
      /\ nth_error (flat_map (fun c => l_p (class_entry tp pred_cls target_cls c)) classes) i
         = Some p
      /\ nth_error (flat_map (fun c => l_r (class_entry tp pred_cls target_cls c)) classes) i
         = Some r.
Proof.
  induction classes as [|c0 classes IH]; intros Hgt i c Hi; [destruct i; discriminate|].
  destruct (class_entry_with_gt tp pred_cls target_cls c0 (Hgt c0 (or_introl eq_refl)))
    as (ap0 & p0 & r0 & E0 & _).
  cbn [flat_map]. rewrite E0. cbn [l_p l_r app].
  destruct i as [|i].
  - simpl in Hi. injection Hi as <-. exists ap0, p0, r0. rewrite E0. auto.
  - simpl in Hi. cbn [nth_error]. apply IH; [|exact Hi].
    intros c' Hc'. apply Hgt. right. exact Hc'.
Qed.

(** X29: when the three arrays of detections have the same length, the
    precision [ap_per_class] reports for a class with predictions and ground
    truth is the sum of the true-positive flags of its detections divided by
    their number, and the recall is the same sum divided by the number of
    ground-truth objects plus [1e-16]; neither depends on the confidences. *)
Theorem ap_per_class_precision_recall (tp conf : list Q) (pred_cls target_cls : list Z) :
  length tp = length conf -> length pred_cls = length conf ->
  forall i c,
    nth_error (r_classes (ap_per_class tp conf pred_cls target_cls)) i = Some c ->
    In c pred_cls ->
    exists p r,
      nth_error (r_p (ap_per_class tp conf pred_cls target_cls)) i = Some p
      /\ nth_error (r_r (ap_per_class tp conf pred_cls target_cls)) i = Some r
      /\ p == class_tp c tp pred_cls / inject_Z (Z.of_nat (count_eq c pred_cls))
      /\ r == class_tp c tp pred_cls
              / (inject_Z (Z.of_nat (count_eq c target_cls)) + eps).
Proof.
  intros Ht Hp i c Hi Hin. unfold ap_per_class in *. cbn [r_classes r_p r_r] in *.
  set (keys := map Qopp conf) in *.
  assert (Hk : length keys = length conf) by (unfold keys; apply length_map).
  set (table := argsort_apply keys (combine tp pred_cls)).
  assert (Etp : argsort_apply keys tp = map fst table).
  { unfold table. rewrite <- argsort_apply_map, map_fst_combine by lia. reflexivity. }
  assert (Epc : argsort_apply keys pred_cls = map snd table).
  { unfold table. rewrite <- argsort_apply_map, map_snd_combine by lia. reflexivity. }
  rewrite Etp, Epc.
  destruct (class_loop_entries (map fst table) (map snd table) target_cls
              (unique target_cls) (PR [] [] [])) as (_ & Hlp & Hlr).
  cbv zeta in Hlp, Hlr. cbn [l_p l_r app] in Hlp, Hlr. rewrite Hlp, Hlr.
  destruct (entries_nth (map fst table) (map snd table) target_cls (unique target_cls)
              (fun c Hc => proj1 (unique_In c target_cls) Hc) i c Hi)
    as (ap & p & r & E & Hnp & Hnr).
  exists p, r. split; [exact Hnp|]. split; [exact Hnr|].
  assert (Hgt : In c target_cls).
  { apply unique_In. apply nth_error_In with i. exact Hi. }
  set (g := fun r : Q * Z => Z.eqb c (snd r)).
  assert (Hrows : map snd (combine keys (combine tp pred_cls)) = combine tp pred_cls).
  { apply map_snd_combine. rewrite length_combine. lia. }
  destruct (sort_pairs_selected g fst (combine keys (combine tp pred_cls))) as [Hs Hl].
  rewrite Hrows in Hs, Hl. fold (argsort_apply keys (combine tp pred_cls)) in Hs, Hl.
  fold table in Hs, Hl.
  assert (Hsel : map fst (filter g (combine tp pred_cls))
                 = select (map (Z.eqb c) pred_cls) tp).
  { unfold g. rewrite <- (select_pairs c (combine tp pred_cls)).
    rewrite map_fst_combine, map_snd_combine by lia. reflexivity. }
  assert (Hcnt : length (filter g (combine tp pred_cls)) = count_eq c pred_cls).
  { unfold g. rewrite <- (count_eq_pairs c (combine tp pred_cls)).
    rewrite map_snd_combine by lia. reflexivity. }
  assert (Hin' : In c (map snd table)).
  { destruct (count_eq c (map snd table)) eqn:E0.
    - exfalso. rewrite count_eq_pairs in E0. fold g in E0.
      rewrite Hl, Hcnt in E0. apply count_eq_zero in E0. contradiction.
    - apply Decidable.not_not; [unfold Decidable.decidable|].
      + destruct (in_dec Z.eq_dec c (map snd table)); tauto.
      + intro Hn. apply count_eq_zero in Hn. congruence. }
  destruct (class_entry_closed table target_cls c Hgt Hin')
    as (ap' & p' & r' & E' & Hp' & Hr').
  rewrite E in E'. injection E' as <- <- <-.
  fold g in Hp', Hr'. rewrite Hs, Hl, Hsel, Hcnt in Hp'. rewrite Hs, Hsel in Hr'.
  split; [exact Hp'|exact Hr'].
Qed.

Lemma ap_per_class_precision_recall_witness :
  exists p r,
    nth_error (r_p (ap_per_class [1; 0] [9 # 10; 8 # 10] [0%Z; 0%Z] [0%Z])) 0 = Some p
    /\ nth_error (r_r (ap_per_class [1; 0] [9 # 10; 8 # 10] [0%Z; 0%Z] [0%Z])) 0 = Some r
    /\ p == class_tp 0 [1; 0] [0%Z; 0%Z] / inject_Z (Z.of_nat (count_eq 0 [0%Z; 0%Z]))
    /\ r == class_tp 0 [1; 0] [0%Z; 0%Z]
            / (inject_Z (Z.of_nat (count_eq 0 [0%Z])) + eps).
Proof.
  apply (ap_per_class_precision_recall [1; 0] [9 # 10; 8 # 10] [0%Z; 0%Z] [0%Z]).
  - reflexivity.
  - reflexivity.
  - vm_compute. reflexivity.
  - left. reflexivity.
Defined.

(** ** [prepare_image_yolo] *)

(** X30: the padding of [prepare_image_yolo] makes the image square, with
    side the larger of height and width, and keeps the channels.  The
    original image sits in it unchanged, shifted by half of the missing rows
    or columns (rounded down); every other pixel is [pad_value].  The padding
    after the image is the padding before it, or one more. *)
Theorem prepare_image_yolo_square (img : image) (pad_value : Q) :
  let out := prepare_image_yolo_padded img pad_value in
  let pad_top := ((Nat.max (img_h img) (img_w img) - img_h img) / 2)%nat in
  let pad_left := ((Nat.max (img_h img) (img_w img) - img_w img) / 2)%nat in
  img_c out = img_c img
  /\ img_h out = Nat.max (img_h img) (img_w img)
  /\ img_w out = Nat.max (img_h img) (img_w img)
  /\ (forall ch i j, (i < img_h img)%nat -> (j < img_w img)%nat ->
        img_at out ch (pad_top + i) (pad_left + j) = img_at img ch i j)
  /\ (forall ch i j,
        ~ ((pad_top <= i < pad_top + img_h img)%nat /\ (pad_left <= j < pad_left + img_w img)%nat) ->
        img_at out ch i j = pad_value)
  /\ (pad_top <= img_h out - img_h img - pad_top <= pad_top + 1)%nat
  /\ (pad_left <= img_w out - img_w img - pad_left <= pad_left + 1)%nat.
Proof.
  intros out pad_top pad_left. unfold out, prepare_image_yolo_padded.
  destruct img as [c h w at_]. cbn [img_c img_h img_w img_at] in *.
  destruct (Nat.leb_spec h w) as [Hle|Hgt].
  - assert (Ed : Z.abs_nat (Z.of_nat h - Z.of_nat w) = (w - h)%nat) by lia.
    rewrite Ed. unfold pad_constant. cbn [img_c img_h img_w img_at].
    assert (Et : pad_top = ((w - h) / 2)%nat) by (unfold pad_top; rewrite Nat.max_r by lia; reflexivity).
    assert (El : pad_left = 0%nat)
      by (unfold pad_left; rewrite Nat.max_r, Nat.sub_diag by lia; reflexivity).
    rewrite Et, El.
    pose proof (Nat.div_mod_eq (w - h) 2) as Hd.
    pose proof (Nat.mod_upper_bound (w - h) 2 ltac:(lia)) as Hm.
    split; [reflexivity|]. split; [lia|]. split; [lia|]. split; [|split; [|lia]].
    + intros ch i j Hi Hj.
      replace ((((w - h) / 2 <=? (w - h) / 2 + i) && ((w - h) / 2 + i <? (w - h) / 2 + h)
                && (0 <=? 0 + j) && (0 + j <? 0 + w))%nat) with true.
      * f_equal; lia.
      * symmetry. rewrite !andb_true_iff, !Nat.leb_le, !Nat.ltb_lt. lia.
    + intros ch i j Hout.
      replace ((((w - h) / 2 <=? i) && (i <? (w - h) / 2 + h)
                && (0 <=? j) && (j <? 0 + w))%nat) with false; [reflexivity|].
      symmetry. apply not_true_is_false. intro Ht. apply Hout.
      rewrite !andb_true_iff, !Nat.leb_le, !Nat.ltb_lt in Ht. lia.
  - assert (Ed : Z.abs_nat (Z.of_nat h - Z.of_nat w) = (h - w)%nat) by lia.
    rewrite Ed. unfold pad_constant. cbn [img_c img_h img_w img_at].
    assert (El : pad_left = ((h - w) / 2)%nat) by (unfold pad_left; rewrite Nat.max_l by lia; reflexivity).
    assert (Et : pad_top = 0%nat)
      by (unfold pad_top; rewrite Nat.max_l, Nat.sub_diag by lia; reflexivity).
    rewrite Et, El.
    pose proof (Nat.div_mod_eq (h - w) 2) as Hd.
    pose proof (Nat.mod_upper_bound (h - w) 2 ltac:(lia)) as Hm.
    split; [reflexivity|]. split; [lia|]. split; [lia|]. split; [|split; [|lia]].
    + intros ch i j Hi Hj.
      replace (((0 <=? 0 + i) && (0 + i <? 0 + h)
                && ((h - w) / 2 <=? (h - w) / 2 + j)
                && ((h - w) / 2 + j <? (h - w) / 2 + w))%nat) with true.
      * f_equal; lia.
      * symmetry. rewrite !andb_true_iff, !Nat.leb_le, !Nat.ltb_lt. lia.
    + intros ch i j Hout.
      replace (((0 <=? i) && (i <? 0 + h)
                && ((h - w) / 2 <=? j) && (j <? (h - w) / 2 + w))%nat) with false;
        [reflexivity|].
      symmetry. apply not_true_is_false. intro Ht. apply Hout.
      rewrite !andb_true_iff, !Nat.leb_le, !Nat.ltb_lt in Ht. lia.
Qed.
